(** * Hexi: binary streams over byte buffers

    A shallow embedding of the stream engine of Hexi:
    - [include/hexi/detail/intrusive_storage.h]  (module [Storage]),
    - [include/hexi/binary_stream.h]             (module [BinaryStream]),
    - [include/hexi/pmc/binary_stream_reader.h]  (module [Pmc.Reader]),
    - [include/hexi/pmc/binary_stream_writer.h]  (module [Pmc.Writer]).

    The buffer classes the streams borrow are not among these sources:
    module [Buffer] is the byte queue of the Buffer contract, and module
    [Segmented] the chain of storage blocks behind a segmented buffer.

    Sizes and offsets are [std::size_t]: integers modulo [2^64], written
    as [Z] with the wrap-around spelled out.  Bytes are [Init.Byte.byte];
    a [std::string] is the list of its bytes.  A member function that
    mutates the stream becomes a function from the stream to the new
    stream and an [outcome]: a normal return, a C++ exception that leaves
    the call, the execution of [std::unreachable()], or a failed
    [assert] that ends the program. *)

From Stdlib Require Import ZArith List Lia Bool.
From coqutil Require Import Byte Word.LittleEndianList.
Import ListNotations.
Local Open Scope Z_scope.

(** ** [std::size_t] arithmetic *)

Definition size_t_modulus : Z := 2 ^ 64.

Definition wrap (z : Z) : Z := z mod size_t_modulus.

Definition size_add (a b : Z) : Z := wrap (a + b).
Definition size_sub (a b : Z) : Z := wrap (a - b).

Definition is_size_t (z : Z) : Prop := 0 <= z < size_t_modulus.

(** [s.size()] of a byte sequence. *)
Definition len (s : list byte) : Z := Z.of_nat (length s).

(** [static_cast<std::uint32_t>] *)
Definition to_uint32 (z : Z) : Z := z mod 2 ^ 32.

(** ** Enumerations and exceptions *)

(** Modelled from the spec: the error state shared by readers and writers
    ([hexi/shared.h] is not among these sources), with the enumerator
    names the sources use: [buff_limit_err] is the buffer underrun,
    [read_limit_err] the exceeded read limit, [buff_write_err] the write
    failure. *)
Inductive stream_state : Type :=
  | ok
  | read_limit_err
  | buff_limit_err
  | buff_write_err
  | invalid_stream
  | user_defined_err.

Definition stream_state_eqb (a b : stream_state) : bool :=
  match a, b with
  | ok, ok | read_limit_err, read_limit_err | buff_limit_err, buff_limit_err
  | buff_write_err, buff_write_err | invalid_stream, invalid_stream
  | user_defined_err, user_defined_err => true
  | _, _ => false
  end.

(** Modelled from the spec: the directions of a buffer seek, as
    [intrusive_storage::write_seek] switches on them. *)
Inductive buffer_seek : Type := sk_absolute | sk_backward | sk_forward.

(** Modelled from the spec: the exception objects ([hexi/exception.h] is
    not among these sources), opaque payloads that carry the requested
    size, the bytes read so far and the limit or capacity; the writer
    rethrows whatever the sink threw. *)
Inductive exception : Type :=
  | buffer_underrun (read_size total_read buff_size : Z)
  | stream_read_limit (read_size total_read read_limit : Z)
  | sink_exception.

(** How a call ends: it returns, it throws, it runs into
    [std::unreachable()], or an [assert] in it fails and the program is
    aborted. *)
Inductive outcome (A : Type) : Type :=
  | Returned (a : A)
  | Thrown (e : exception)
  | Unreachable
  | Aborted.

Arguments Returned {A} a.
Arguments Thrown {A} e.
Arguments Unreachable {A}.
Arguments Aborted {A}.

(** ** Storage block: [hexi::detail::intrusive_storage<block_size>] *)

Module Storage.

Record intrusive_storage : Type := mk_storage {
  read_offset : Z;
  write_offset : Z;
  storage : list byte
}.

(** [std::memcpy(dst + off, src, |src|)] on an array held as a list. *)
Definition memcpy (dst : list byte) (off : Z) (src : list byte) : list byte :=
  firstn (Z.to_nat off) dst ++ src ++ skipn (Z.to_nat off + length src) dst.

(** The bytes [std::memcpy(destination, src + off, n)] hands out. *)
Definition slice (src : list byte) (off n : Z) : list byte :=
  firstn (Z.to_nat n) (skipn (Z.to_nat off) src).

Section Block.

(** The template parameter; [OffsetType] is [std::size_t]. *)
Variable block_size : Z.

Definition clear (b : intrusive_storage) : intrusive_storage :=
  {| read_offset := 0; write_offset := 0; storage := storage b |}.

(** [write(source, length)] with [length] the extent of [source]. *)
Definition write (b : intrusive_storage) (source : list byte)
  : intrusive_storage * Z :=
  let write_len := size_sub block_size (write_offset b) in
  let write_len := if write_len >? len source then len source else write_len in
  ({| read_offset := read_offset b;
      write_offset := size_add (write_offset b) write_len;
      storage := memcpy (storage b) (write_offset b)
                        (firstn (Z.to_nat write_len) source) |},
   write_len).

Definition copy (b : intrusive_storage) (length : Z) : list byte * Z :=
  let read_len := size_sub block_size (read_offset b) in
  let read_len := if read_len >? length then length else read_len in
  (slice (storage b) (read_offset b) read_len, read_len).

Definition read (b : intrusive_storage) (length : Z) (allow_optimise : bool)
  : intrusive_storage * (list byte * Z) :=
  let '(destination, read_len) := copy b length in
  let b1 := {| read_offset := size_add (read_offset b) read_len;
               write_offset := write_offset b;
               storage := storage b |} in
  let b2 := if (read_offset b1 =? write_offset b1) && allow_optimise
            then clear b1 else b1 in
  (b2, (destination, read_len)).

Definition skip (b : intrusive_storage) (length : Z) (allow_optimise : bool)
  : intrusive_storage * Z :=
  let skip_len := size_sub block_size (read_offset b) in
  let skip_len := if skip_len >? length then length else skip_len in
  let b1 := {| read_offset := size_add (read_offset b) skip_len;
               write_offset := write_offset b;
               storage := storage b |} in
  let b2 := if (read_offset b1 =? write_offset b1) && allow_optimise
            then clear b1 else b1 in
  (b2, skip_len).

Definition size (b : intrusive_storage) : Z :=
  size_sub (write_offset b) (read_offset b).

Definition free (b : intrusive_storage) : Z :=
  size_sub block_size (write_offset b).

Definition write_seek (b : intrusive_storage) (direction : buffer_seek)
  (offset : Z) : intrusive_storage :=
  match direction with
  | sk_absolute =>
      {| read_offset := read_offset b; write_offset := offset;
         storage := storage b |}
  | sk_backward =>
      {| read_offset := read_offset b;
         write_offset := size_sub (write_offset b) offset;
         storage := storage b |}
  | sk_forward =>
      {| read_offset := read_offset b;
         write_offset := size_add (write_offset b) offset;
         storage := storage b |}
  end.

Definition advance_write (b : intrusive_storage) (size : Z)
  : intrusive_storage * Z :=
  let remaining := free b in
  let size := if remaining <? size then remaining else size in
  ({| read_offset := read_offset b;
      write_offset := size_add (write_offset b) size;
      storage := storage b |},
   size).

(** The invariant of the data model. *)
Definition block_inv (b : intrusive_storage) : Prop :=
  0 <= read_offset b /\ read_offset b <= write_offset b
  /\ write_offset b <= block_size.

(** The array keeps its [block_size] elements. *)
Definition storage_ok (b : intrusive_storage) : Prop :=
  len (storage b) = block_size.

End Block.

End Storage.

(** ** Segmented buffers: chains of storage blocks *)

(** Modelled from the spec: the segmented Buffer, a chain of storage
    blocks (the buffer class that owns the chain is not among these
    sources).  Writes append to the tail, allocating a new block when the
    tail is full; reads drain from the head, advancing to the next block
    when the head is exhausted, and a drained head block is unlinked.  The
    blocks themselves are handled with the operations of
    [intrusive_storage]. *)
Module Segmented.

Section Chain.

Variable block_size : Z.

(** A block fresh from the allocator; what its array holds is never read. *)
Definition allocate : Storage.intrusive_storage :=
  {| Storage.read_offset := 0; Storage.write_offset := 0;
     Storage.storage := repeat Byte.x00 (Z.to_nat block_size) |}.

(** New blocks at the tail for what is left of [source]; a block of at
    least one byte takes at least one byte, so [length source] rounds are
    enough. *)
Fixpoint append_blocks (fuel : nat) (source : list byte)
  : list Storage.intrusive_storage :=
  match source, fuel with
  | [], _ => []
  | _, O => []
  | _, S fuel' =>
      let '(b, written) := Storage.write block_size allocate source in
      b :: append_blocks fuel' (skipn (Z.to_nat written) source)
  end.

Fixpoint write (blocks : list Storage.intrusive_storage) (source : list byte)
  : list Storage.intrusive_storage :=
  match blocks with
  | [] => append_blocks (length source) source
  | [tail] =>
      let '(tail', written) := Storage.write block_size tail source in
      let remaining := skipn (Z.to_nat written) source in
      tail' :: append_blocks (length remaining) remaining
  | b :: rest => b :: write rest source
  end.

Fixpoint read (blocks : list Storage.intrusive_storage) (length : Z)
  : list byte * list Storage.intrusive_storage :=
  match blocks with
  | [] => ([], [])
  | head :: rest =>
      if length <=? 0 then ([], blocks)
      else
        let '(head', (bytes, read_len)) :=
          Storage.read block_size head length false in
        if Storage.size head' =? 0
        then let '(more, rest') := read rest (length - read_len) in
             (bytes ++ more, rest')
        else (bytes, head' :: rest)
  end.

Definition size (blocks : list Storage.intrusive_storage) : Z :=
  fold_right (fun b acc => Storage.size b + acc) 0 blocks.

(** The bytes a block holds between its cursors, and the byte queue a
    chain stands for. *)
Definition readable (b : Storage.intrusive_storage) : list byte :=
  Storage.slice (Storage.storage b) (Storage.read_offset b) (Storage.size b).

Definition contents (blocks : list Storage.intrusive_storage) : list byte :=
  flat_map readable blocks.

Fixpoint full_but_last (blocks : list Storage.intrusive_storage) : Prop :=
  match blocks with
  | [] => True
  | [_] => True
  | b :: rest => Storage.write_offset b = block_size /\ full_but_last rest
  end.

(** A well-formed block, and a well-formed chain: every block but the
    tail is full. *)
Definition block_ok (b : Storage.intrusive_storage) : Prop :=
  Storage.block_inv block_size b /\ Storage.storage_ok block_size b.

Definition chain_ok (blocks : list Storage.intrusive_storage) : Prop :=
  Forall block_ok blocks /\ full_but_last blocks.

End Chain.

End Segmented.

(** ** A small state-and-exception monad for member functions *)

Definition op (S A : Type) : Type := S -> S * outcome A.

Definition ret {S A : Type} (a : A) : op S A := fun s => (s, Returned a).

Definition bind {S A B : Type} (m : op S A) (k : A -> op S B) : op S B :=
  fun s =>
    match m s with
    | (s', Returned a) => k a s'
    | (s', Thrown e) => (s', Thrown e)
    | (s', Unreachable) => (s', Unreachable)
    | (s', Aborted) => (s', Aborted)
    end.

Declare Scope op_scope.
Delimit Scope op_scope with op.
Notation "x <- m ;; k" := (bind m (fun x => k))
  (at level 100, m at next level, right associativity) : op_scope.
Notation "m ;;; k" := (bind m (fun _ => k))
  (at level 100, right associativity) : op_scope.

(** The loop [for(auto it = begin; it != end; ++it)] of the iterator
    overloads of [put] and [get]: the body runs on each element of the
    range in turn, and an exception leaves the loop. *)
Fixpoint for_each {S T : Type} (body : T -> op S unit) (range : list T)
  : op S unit :=
  match range with
  | [] => ret tt
  | x :: range' => (body x ;;; for_each body range')%op
  end.

(** The same loop when the body assigns to the element it is handed; the
    result is the range after the loop. *)
Fixpoint for_each_into {S T : Type} (body : T -> op S T) (range : list T)
  : op S (list T) :=
  match range with
  | [] => ret []
  | x :: range' =>
      (v <- body x ;; vs <- for_each_into body range' ;; ret (v :: vs))%op
  end.

(** A call that came back with a value. *)
Definition returns {S A : Type} (res : S * outcome A) : Prop :=
  exists a, snd res = Returned a.

(** [assert(condition);] *)
Definition asserting {S : Type} (condition : bool) : op S unit :=
  fun s => (s, if condition then Returned tt else Aborted).

(** ** The buffer behind a stream *)

(** Modelled from the spec: the Buffer a stream borrows.  The buffer
    classes ([buffer_read], [buffer_write] and the [byte_oriented]
    containers) are not among these sources; the Buffer contract of the
    component design is a first-in first-out byte queue: [write] appends,
    [read] and [skip] take from the front, [size] is the number of readable
    bytes and [find_first_of] scans forward from the read cursor, answering
    the offset of the match or the sentinel [npos] (here [None]). *)
Module Buffer.

Definition size (b : list byte) : Z := len b.

(** [read(dst, n)]: the bytes copied out and the buffer left behind. *)
Definition read (b : list byte) (n : Z) : list byte * list byte :=
  (firstn (Z.to_nat n) b, skipn (Z.to_nat n) b).

Definition skip (b : list byte) (n : Z) : list byte := skipn (Z.to_nat n) b.

Fixpoint find_first_of (b : list byte) (v : byte) : option Z :=
  match b with
  | [] => None
  | x :: b' =>
      if Byte.eqb x v then Some 0
      else option_map Z.succ (find_first_of b' v)
  end.

(** [write(src, n)]; a sink may reject a write by throwing, which the
    caller's policy [rejects] decides from the queue and the data.  The
    sinks of this model take a write whole or throw; a sink that takes a
    part of a write and says so in the value it returns, which the streams
    do not look at, is not among them. *)
Definition write (rejects : list byte -> list byte -> bool)
  (b : list byte) (src : list byte) : option (list byte) :=
  if rejects b src then None else Some (b ++ src).

End Buffer.

(** ** Bounded reads

    The reads that go through the bounds policy: [get(T* dest, count)] on
    elements of [sizeof(T)] bytes, [get(std::string& dest, size)],
    [skip(count)] and [operator>>(T& data)] on a POD of [sizeof(T)] bytes;
    [requested] is the size each of them hands to the policy. *)

Inductive bounded_read : Type :=
  | BGet (sizeof_T count : Z)
  | BGetString (size : Z)
  | BSkip (count : Z)
  | BPod (sizeof : nat).

Definition requested (b : bounded_read) : Z :=
  match b with
  | BGet sizeof_T count => wrap (count * sizeof_T)
  | BGetString n | BSkip n => n
  | BPod sizeof => Z.of_nat sizeof
  end.


(** ** [hexi::binary_stream<buf_type, exceptions>] *)

Module BinaryStream.

Inductive except_tag : Type := allow_throw | no_throw.

Record binary_stream : Type := mk_stream {
  buffer_ : list byte;
  total_write_ : Z;
  total_read_ : Z;
  state_ : stream_state;
  read_limit_ : Z
}.

(** [explicit binary_stream(buf_type& source, size_type read_limit = 0)] *)
Definition make (source : list byte) (read_limit : Z) : binary_stream :=
  {| buffer_ := source; total_write_ := 0; total_read_ := 0;
     state_ := ok; read_limit_ := read_limit |}.

Definition set_buffer (s : binary_stream) (b : list byte) : binary_stream :=
  {| buffer_ := b; total_write_ := total_write_ s;
     total_read_ := total_read_ s; state_ := state_ s;
     read_limit_ := read_limit_ s |}.

Definition set_total_write (s : binary_stream) (n : Z) : binary_stream :=
  {| buffer_ := buffer_ s; total_write_ := n;
     total_read_ := total_read_ s; state_ := state_ s;
     read_limit_ := read_limit_ s |}.

Definition set_total_read (s : binary_stream) (n : Z) : binary_stream :=
  {| buffer_ := buffer_ s; total_write_ := total_write_ s;
     total_read_ := n; state_ := state_ s;
     read_limit_ := read_limit_ s |}.

Definition set_state (s : binary_stream) (st : stream_state) : binary_stream :=
  {| buffer_ := buffer_ s; total_write_ := total_write_ s;
     total_read_ := total_read_ s; state_ := st;
     read_limit_ := read_limit_ s |}.

Definition state (s : binary_stream) : stream_state := state_ s.
Definition total_read (s : binary_stream) : Z := total_read_ s.
Definition total_write (s : binary_stream) : Z := total_write_ s.
Definition read_limit (s : binary_stream) : Z := read_limit_ s.
Definition size (s : binary_stream) : Z := Buffer.size (buffer_ s).
Definition good (s : binary_stream) : bool := stream_state_eqb (state_ s) ok.

Definition clear_error_state (s : binary_stream) : binary_stream :=
  set_state s ok.

Definition set_error_state (s : binary_stream) : binary_stream :=
  set_state s user_defined_err.

Section Stream.

(** The template parameter [exceptions] and the write policy of the
    buffer the stream was built on. *)
Variable exceptions : except_tag.
Variable sink_rejects : list byte -> list byte -> bool.

Definition check_read_bounds (read_size : Z) : op binary_stream unit :=
  fun s =>
    if read_size >? Buffer.size (buffer_ s) then
      let s1 := set_state s buff_limit_err in
      match exceptions with
      | allow_throw =>
          (s1, Thrown (buffer_underrun read_size (total_read_ s1)
                                       (Buffer.size (buffer_ s1))))
      | no_throw => (s1, Returned tt)
      end
    else
      let max_read_remaining := size_sub (read_limit_ s) (total_read_ s) in
      if negb (read_limit_ s =? 0) && (read_size >? max_read_remaining) then
        let s1 := set_state s read_limit_err in
        match exceptions with
        | allow_throw =>
            (s1, Thrown (stream_read_limit read_size (total_read_ s1)
                                           (read_limit_ s1)))
        | no_throw => (s1, Returned tt)
        end
      else
        (set_total_read s (size_add (total_read_ s) read_size), Returned tt).

(** What a refused read hands to the caller: the exception in throwing
    mode, the macro's [ret_var] otherwise. *)
Definition refused {A : Type} (e : exception) (ret_var : A) : outcome A :=
  match exceptions with
  | allow_throw => Thrown e
  | no_throw => Returned ret_var
  end.

(** The macro [STREAM_READ_BOUNDS_CHECK(read_size, ret_var)], followed by
    the rest of the function body. *)
Definition STREAM_READ_BOUNDS_CHECK {A : Type} (read_size : Z) (ret_var : A)
  (rest : op binary_stream A) : op binary_stream A :=
  (check_read_bounds read_size ;;;
   fun s =>
     match exceptions with
     | no_throw =>
         if negb (stream_state_eqb (state_ s) ok) then (s, Returned ret_var)
         else rest s
     | allow_throw => rest s
     end)%op.

(** [buffer_.read(dest, n)] inside a member function. *)
Definition buffer_read (n : Z) : op binary_stream (list byte) :=
  fun s =>
    let '(dest, b) := Buffer.read (buffer_ s) n in
    (set_buffer s b, Returned dest).

Definition buffer_skip (n : Z) : op binary_stream unit :=
  fun s => (set_buffer s (Buffer.skip (buffer_ s) n), Returned tt).

Definition buffer_write (src : list byte) : op binary_stream unit :=
  fun s =>
    match Buffer.write sink_rejects (buffer_ s) src with
    | Some b => (set_buffer s b, Returned tt)
    | None => (s, Thrown sink_exception)
    end.

Definition add_total_write (n : Z) : op binary_stream unit :=
  fun s => (set_total_write s (size_add (total_write_ s) n), Returned tt).

Definition add_total_read (n : Z) : op binary_stream unit :=
  fun s => (set_total_read s (size_add (total_read_ s) n), Returned tt).

(** *** Write *)

(** [operator<<(const T& data)] for a POD whose object representation is
    [data]. *)
Definition shl_pod (data : list byte) : op binary_stream unit :=
  (buffer_write data ;;; add_total_write (len data))%op.

(** [operator<<(const std::string& data)]: [data.data()] is followed by
    the terminator the standard guarantees. *)
Definition shl_string (data : list byte) : op binary_stream unit :=
  (buffer_write (data ++ [Byte.x00]) ;;;
   add_total_write (size_add (len data) 1))%op.

(** [put(const T* data, size_type count)] for one-byte [T]. *)
Definition put (data : list byte) : op binary_stream unit :=
  (buffer_write data ;;; add_total_write (len data))%op.

(** *** Read *)

(** [operator>>(std::string& dest)]; the result is the value of [dest]
    after the call. *)
Definition shr_string (dest : list byte) : op binary_stream (list byte) :=
  fun s =>
    match Buffer.find_first_of (buffer_ s) Byte.x00 with
    | None => (s, Returned [])
    | Some pos =>
        (strbuf <- buffer_read pos ;;
         add_total_read pos ;;;
         add_total_read 1 ;;;
         buffer_skip 1 ;;;
         ret strbuf)%op s
    end.

(** [operator>>(T& data)] for a POD of [sizeof(T) = |data|]. *)
Definition shr_pod (data : list byte) : op binary_stream (list byte) :=
  STREAM_READ_BOUNDS_CHECK (len data) data (buffer_read (len data)).

(** [get(std::string& dest, size_type size)] *)
Definition get_string (dest : list byte) (size : Z)
  : op binary_stream (list byte) :=
  STREAM_READ_BOUNDS_CHECK size dest (buffer_read size).

(** [get(T* dest, size_type count)] for a [T] of [sizeof_T] bytes; [dest]
    holds the bytes the destination had before the call. *)
Definition get (sizeof_T : Z) (dest : list byte) (count : Z)
  : op binary_stream (list byte) :=
  let read_size := wrap (count * sizeof_T) in
  STREAM_READ_BOUNDS_CHECK read_size dest (buffer_read read_size).

(** [skip(const size_type count)] *)
Definition skip (count : Z) : op binary_stream unit :=
  STREAM_READ_BOUNDS_CHECK count tt (buffer_skip count).

(** *** Sequences of calls

    A caller's use of a stream is a list of calls; [exec] is the stream
    a call leaves behind, whether the call returned or raised an error
    that the caller caught before going on. *)

Inductive call : Type :=
  | Bounded (b : bounded_read)
  | ShrString
  | ShlString (data : list byte)
  | Put (data : list byte)
  | ClearErrorState
  | SetErrorState.

Definition exec_bounded (b : bounded_read) : binary_stream -> binary_stream :=
  fun s =>
    match b with
    | BGet sizeof_T n => fst (get sizeof_T [] n s)
    | BGetString n => fst (get_string [] n s)
    | BSkip n => fst (skip n s)
    | BPod sizeof => fst (shr_pod (repeat Byte.x00 sizeof) s)
    end.

Definition exec (c : call) : binary_stream -> binary_stream :=
  fun s =>
    match c with
    | Bounded b => exec_bounded b s
    | ShrString => fst (shr_string [] s)
    | ShlString data => fst (shl_string data s)
    | Put data => fst (put data s)
    | ClearErrorState => clear_error_state s
    | SetErrorState => set_error_state s
    end.

Fixpoint run (cs : list call) (s : binary_stream) : binary_stream :=
  match cs with
  | [] => s
  | c :: cs' => run cs' (exec c s)
  end.

Fixpoint run_reads (bs : list bounded_read) (s : binary_stream)
  : binary_stream :=
  match bs with
  | [] => s
  | b :: bs' => run_reads bs' (exec_bounded b s)
  end.

(** Every read of the sequence asks for no more than the buffer holds
    when its turn comes. *)
Fixpoint within_buffer (bs : list bounded_read) (s : binary_stream) : Prop :=
  match bs with
  | [] => True
  | b :: bs' =>
      0 <= requested b <= Buffer.size (buffer_ s)
      /\ within_buffer bs' (exec_bounded b s)
  end.

(** The bounds policy refuses a read of [n] bytes: the buffer holds
    fewer, or fewer are left of the read limit. *)
Definition refuses (n : Z) (s : binary_stream) : Prop :=
  n > Buffer.size (buffer_ s)
  \/ (read_limit_ s <> 0 /\ n > size_sub (read_limit_ s) (total_read_ s)).

(** A bounded read on which the two instantiations of the template do
    the same: the state is [ok] when it starts, or the policy refuses it,
    or it asks for no byte. *)
Definition read_agrees (b : bounded_read) (s : binary_stream) : Prop :=
  state_ s = ok \/ refuses (requested b) s \/ requested b = 0.

(** Every bounded read of the sequence is such a read when its turn
    comes; the other calls are free. *)
Fixpoint reads_agree (cs : list call) (s : binary_stream) : Prop :=
  match cs with
  | [] => True
  | c :: cs' =>
      match c with
      | Bounded b => read_agrees b s
      | _ => True
      end
      /\ reads_agree cs' (exec c s)
  end.

End Stream.

(** *** Further member functions *)

(** [binary_stream(binary_stream&& rhs)]: the stream constructed and what
    is left of [rhs]; both refer to the buffer [rhs] was built on. *)
Definition move (rhs : binary_stream) : binary_stream * binary_stream :=
  ({| buffer_ := buffer_ rhs; total_write_ := total_write_ rhs;
      total_read_ := total_read_ rhs; state_ := state_ rhs;
      read_limit_ := read_limit_ rhs |},
   set_state (set_total_read rhs (wrap (-1))) invalid_stream).

Section Members.

Variable exceptions : except_tag.
Variable sink_rejects : list byte -> list byte -> bool.

(** [operator<<(std::string_view& data)]: the characters, then the
    terminator in a write of its own. *)
Definition shl_string_view (data : list byte) : op binary_stream unit :=
  (buffer_write sink_rejects data ;;;
   buffer_write sink_rejects [Byte.x00] ;;;
   add_total_write (size_add (len data) 1))%op.

(** [put(It begin, const It end)] over a range of [std::string]:
    [*this << *it] on each element. *)
Definition put_strings (range : list (list byte)) : op binary_stream unit :=
  for_each (shl_string sink_rejects) range.

(** [get(It begin, const It end)] over a range of [std::string]:
    [*this >> *begin] on each element. *)
Definition get_strings (range : list (list byte))
  : op binary_stream (list (list byte)) :=
  for_each_into shr_string range.

(** [view(value_type terminator)]; the result is the bytes the returned
    [std::string_view] spans. *)
Definition view (terminator : byte) : op binary_stream (list byte) :=
  fun s =>
    match Buffer.find_first_of (buffer_ s) terminator with
    | None => (s, Returned [])
    | Some pos =>
        let view := firstn (Z.to_nat pos) (buffer_ s) in
        (buffer_skip (size_add pos 1) ;;;
         add_total_read (size_add pos 1) ;;;
         ret view)%op s
    end.

(** [operator>>(std::string_view& dest)] *)
Definition shr_string_view : op binary_stream (list byte) :=
  view Byte.x00.

(** [span<out_type>(size_type count)] for an [out_type] of [sizeof_out]
    bytes; the result is the bytes the returned [std::span] covers. *)
Definition span (sizeof_out count : Z) : op binary_stream (list byte) :=
  let read_size := wrap (sizeof_out * count) in
  STREAM_READ_BOUNDS_CHECK exceptions read_size []
    (fun s =>
       let span := firstn (Z.to_nat read_size) (buffer_ s) in
       (buffer_skip read_size ;;; ret span)%op s).

End Members.

End BinaryStream.

(** ** [hexi::pmc::binary_stream_reader] and [hexi::pmc::binary_stream_writer] *)

Module Pmc.

(** Modelled from the spec: [stream_base], the virtual base of the reader
    and the writer ([hexi/pmc/stream_base.h] is not among these sources).
    It holds the error state of the shared enumeration and the
    propagation mode chosen at construction (throwing unless [no_throw]
    is passed); [clear_error_state] returns the state to [ok] and
    [set_error_state] poisons the stream with [user_defined_err]. *)
Record stream_base : Type := mk_base {
  state_ : stream_state;
  allow_throw_ : bool
}.

Record binary_stream_reader : Type := mk_reader {
  rbase : stream_base;
  rbuffer_ : list byte;
  total_read_ : Z;
  read_limit_ : Z
}.

Record binary_stream_writer : Type := mk_writer {
  wbase : stream_base;
  wbuffer_ : list byte;
  total_write_ : Z
}.

Module Reader.

(** [binary_stream_reader(buffer_read& source, std::size_t read_limit = 0)]
    and the overload taking [no_throw]. *)
Definition make (source : list byte) (throwing : bool) (read_limit : Z)
  : binary_stream_reader :=
  {| rbase := {| state_ := ok; allow_throw_ := throwing |};
     rbuffer_ := source; total_read_ := 0; read_limit_ := read_limit |}.

Definition state (r : binary_stream_reader) : stream_state :=
  state_ (rbase r).

Definition allow_throw (r : binary_stream_reader) : bool :=
  allow_throw_ (rbase r).

Definition set_state (r : binary_stream_reader) (st : stream_state)
  : binary_stream_reader :=
  {| rbase := {| state_ := st; allow_throw_ := allow_throw_ (rbase r) |};
     rbuffer_ := rbuffer_ r; total_read_ := total_read_ r;
     read_limit_ := read_limit_ r |}.

Definition set_buffer (r : binary_stream_reader) (b : list byte)
  : binary_stream_reader :=
  {| rbase := rbase r; rbuffer_ := b; total_read_ := total_read_ r;
     read_limit_ := read_limit_ r |}.

Definition set_total_read (r : binary_stream_reader) (n : Z)
  : binary_stream_reader :=
  {| rbase := rbase r; rbuffer_ := rbuffer_ r; total_read_ := n;
     read_limit_ := read_limit_ r |}.

(** The same reader built with the other constructor: only the
    propagation mode differs. *)
Definition in_mode (r : binary_stream_reader) (throwing : bool)
  : binary_stream_reader :=
  {| rbase := {| state_ := state_ (rbase r); allow_throw_ := throwing |};
     rbuffer_ := rbuffer_ r; total_read_ := total_read_ r;
     read_limit_ := read_limit_ r |}.

Definition good (r : binary_stream_reader) : bool :=
  stream_state_eqb (state r) ok.

Definition clear_error_state (r : binary_stream_reader)
  : binary_stream_reader := set_state r ok.

Definition set_error_state (r : binary_stream_reader)
  : binary_stream_reader := set_state r user_defined_err.

Definition total_read (r : binary_stream_reader) : Z := total_read_ r.
Definition read_limit (r : binary_stream_reader) : Z := read_limit_ r.
Definition size (r : binary_stream_reader) : Z := Buffer.size (rbuffer_ r).

Definition enforce_read_bounds (read_size : Z) : op binary_stream_reader unit :=
  fun r =>
    if read_size >? Buffer.size (rbuffer_ r) then
      let r1 := set_state r buff_limit_err in
      if allow_throw r1 then
        (r1, Thrown (buffer_underrun read_size (total_read_ r1)
                                     (Buffer.size (rbuffer_ r1))))
      else (r1, Returned tt)
    else if negb (read_limit_ r =? 0)
            && (read_size >? size_sub (read_limit_ r) (total_read_ r)) then
      let r1 := set_state r read_limit_err in
      if allow_throw r1 then
        (r1, Thrown (stream_read_limit read_size (total_read_ r1)
                                       (read_limit_ r1)))
      else (r1, Returned tt)
    else
      (set_total_read r (size_add (total_read_ r) read_size), Returned tt).

(** What a refused read hands to the caller: the exception in throwing
    mode, the macro's [ret_var] otherwise. *)
Definition refused {A : Type} (r : binary_stream_reader) (e : exception)
  (ret_var : A) : outcome A :=
  if allow_throw r then Thrown e else Returned ret_var.

(** The macro [STREAM_READ_BOUNDS_ENFORCE(read_size, ret_var)], followed
    by the rest of the function body. *)
Definition STREAM_READ_BOUNDS_ENFORCE {A : Type} (read_size : Z) (ret_var : A)
  (rest : op binary_stream_reader A) : op binary_stream_reader A :=
  fun r =>
    if negb (stream_state_eqb (state r) ok) then (r, Returned ret_var)
    else
      (enforce_read_bounds read_size ;;;
       fun r1 =>
         if negb (allow_throw r1) && negb (stream_state_eqb (state r1) ok)
         then (r1, Returned ret_var)
         else rest r1)%op r.

Definition buffer_read (n : Z) : op binary_stream_reader (list byte) :=
  fun r =>
    let '(dest, b) := Buffer.read (rbuffer_ r) n in
    (set_buffer r b, Returned dest).

Definition buffer_skip (n : Z) : op binary_stream_reader unit :=
  fun r => (set_buffer r (Buffer.skip (rbuffer_ r) n), Returned tt).

(** The macro [SAFE_READ(dest, read_size, ret_var)]: the bytes that reach
    [dest] are handed to the rest of the body. *)
Definition SAFE_READ {A : Type} (read_size : Z) (ret_var : A)
  (rest : list byte -> op binary_stream_reader A) : op binary_stream_reader A :=
  STREAM_READ_BOUNDS_ENFORCE read_size ret_var
    (dest <- buffer_read read_size ;; rest dest)%op.

(** [operator>>(endian_func adaptor)] with the little-endian adaptor
    around an unsigned integer of [width] bytes: the bytes are read into
    [adaptor.value], then [adaptor.from()] turns the little-endian
    representation into the value.  The result is [adaptor.value]. *)
Definition shr_le (width : nat) (value : Z) : op binary_stream_reader Z :=
  SAFE_READ (Z.of_nat width) value (fun dest => ret (le_combine dest)).

(** [operator>>(pod auto& data)] on a POD of [sizeof(data) = |data|]. *)
Definition shr_pod (data : list byte) : op binary_stream_reader (list byte) :=
  SAFE_READ (len data) data (fun dest => ret dest).

(** [T get()] for [T = std::uint8_t]: [T t{}; SAFE_READ(&t, 1, t)]. *)
Definition get_uint8 : op binary_stream_reader byte :=
  SAFE_READ 1 Byte.x00 (fun dest => ret (hd Byte.x00 dest)).

(** [get(std::string& dest, std::size_t size)] *)
Definition get_string (dest : list byte) (size : Z)
  : op binary_stream_reader (list byte) :=
  STREAM_READ_BOUNDS_ENFORCE size dest (buffer_read size).

(** [get(T* dest, std::size_t count)] for a [T] of [sizeof_T] bytes. *)
Definition get (sizeof_T : Z) (dest : list byte) (count : Z)
  : op binary_stream_reader (list byte) :=
  let read_size := wrap (count * sizeof_T) in
  SAFE_READ read_size dest (fun bytes => ret bytes).

(** [skip(std::size_t length)] *)
Definition skip (length : Z) : op binary_stream_reader unit :=
  STREAM_READ_BOUNDS_ENFORCE length tt (buffer_skip length).

(** [operator>>(prefixed<std::string> adaptor)]; the result is the
    string the adaptor refers to, after the call. *)
Definition shr_prefixed_string (dest : list byte)
  : op binary_stream_reader (list byte) :=
  (size <- shr_le 4 0 ;;
   fun r =>
     if negb (stream_state_eqb (state r) ok) then (r, Returned dest)
     else STREAM_READ_BOUNDS_ENFORCE size dest (buffer_read size) r)%op.

(** [operator>>(std::string& data)] *)
Definition shr_string (data : list byte) : op binary_stream_reader (list byte) :=
  shr_prefixed_string data.

(** [operator>>(null_terminated<std::string> adaptor)] *)
Definition shr_null_terminated_string (dest : list byte)
  : op binary_stream_reader (list byte) :=
  fun r =>
    match Buffer.find_first_of (rbuffer_ r) Byte.x00 with
    | None => (r, Returned [])
    | Some pos =>
        STREAM_READ_BOUNDS_ENFORCE (size_add pos 1) dest
          (strbuf <- buffer_read pos ;;
           buffer_skip 1 ;;;
           ret strbuf)%op r
    end.

(** The high bit of a varint byte: more bytes follow. *)
Definition continuation_bit (b : byte) : bool :=
  Z.testbit (byte.unsigned b) 7.

(** Modelled from the spec: [varint_decode<std::size_t>], which these
    sources call but do not define.  The codec reads one byte at a time
    through the bounds-checked scalar read ([get<std::uint8_t>()], which
    answers a zero byte when the read is refused), accumulates seven
    payload bits per byte, least significant group first, and stops at
    the first byte whose high bit is clear.  The loop is given fuel; a
    buffer of [n] bytes needs at most [n + 1] rounds.  The overflow
    policy of the codec is not specified: the accumulator wraps like the
    target integer. *)
Fixpoint varint_decode_loop (fuel : nat) (shift value : Z)
  (r : binary_stream_reader) : option (binary_stream_reader * outcome Z) :=
  match fuel with
  | O => None
  | S fuel' =>
      match get_uint8 r with
      | (r1, Returned b) =>
          let value :=
            Z.lor value (wrap (Z.shiftl (Z.land (byte.unsigned b) 127) shift)) in
          if continuation_bit b
          then varint_decode_loop fuel' (shift + 7) value r1
          else Some (r1, Returned value)
      | (r1, Thrown e) => Some (r1, Thrown e)
      | (r1, Unreachable) => Some (r1, Unreachable)
      | (r1, Aborted) => Some (r1, Aborted)
      end
  end.

Definition varint_decode (fuel : nat) (r : binary_stream_reader)
  : option (binary_stream_reader * outcome Z) :=
  varint_decode_loop fuel 0 0 r.

(** [operator>>(prefixed_varint<std::string> adaptor)]; [None] when the
    decoding loop is still running after [fuel] rounds. *)
Definition shr_prefixed_varint_string (fuel : nat) (dest : list byte)
  (r : binary_stream_reader)
  : option (binary_stream_reader * outcome (list byte)) :=
  match varint_decode fuel r with
  | None => None
  | Some (r1, Returned size) =>
      if negb (stream_state_eqb (state r1) ok) then Some (r1, Unreachable)
      else Some (STREAM_READ_BOUNDS_ENFORCE size dest (buffer_read size) r1)
  | Some (r1, Thrown e) => Some (r1, Thrown e)
  | Some (r1, Unreachable) => Some (r1, Unreachable)
  | Some (r1, Aborted) => Some (r1, Aborted)
  end.

(** [read_max()]; [None] is the failure of [assert(total_read_ < read_limit_)]. *)
Definition read_max (r : binary_stream_reader) : option Z :=
  if negb (read_limit_ r =? 0) then
    if total_read_ r <? read_limit_ r
    then Some (size_sub (read_limit_ r) (total_read_ r))
    else None
  else Some (Buffer.size (rbuffer_ r)).

(** [read_max()] as the specification words it: the lesser of the
    remaining buffer size and, when a read limit is set, the remaining
    read-limit budget. *)
Definition read_max_as_specified (r : binary_stream_reader) : Z :=
  if negb (read_limit_ r =? 0)
  then Z.min (Buffer.size (rbuffer_ r)) (read_limit_ r - total_read_ r)
  else Buffer.size (rbuffer_ r).

(** [read_max()] as compiled with [NDEBUG], where the assertion is gone. *)
Definition read_max_ndebug (r : binary_stream_reader) : Z :=
  if negb (read_limit_ r =? 0)
  then size_sub (read_limit_ r) (total_read_ r)
  else Buffer.size (rbuffer_ r).

(** *** Sequences of calls, as for [binary_stream] *)

Inductive call : Type :=
  | Bounded (b : bounded_read)
  | ShrLe (width : nat)
  | ShrPod (sizeof : nat)
  | GetUint8
  | ShrPrefixedString
  | ShrNullTerminatedString
  | ClearErrorState
  | SetErrorState.

Definition exec_bounded (b : bounded_read)
  : binary_stream_reader -> binary_stream_reader :=
  fun r =>
    match b with
    | BGet sizeof_T n => fst (get sizeof_T [] n r)
    | BGetString n => fst (get_string [] n r)
    | BSkip n => fst (skip n r)
    | BPod sizeof => fst (shr_pod (repeat Byte.x00 sizeof) r)
    end.

Definition exec (c : call) : binary_stream_reader -> binary_stream_reader :=
  fun r =>
    match c with
    | Bounded b => exec_bounded b r
    | ShrLe width => fst (shr_le width 0 r)
    | ShrPod sizeof => fst (shr_pod (repeat Byte.x00 sizeof) r)
    | GetUint8 => fst (get_uint8 r)
    | ShrPrefixedString => fst (shr_prefixed_string [] r)
    | ShrNullTerminatedString => fst (shr_null_terminated_string [] r)
    | ClearErrorState => clear_error_state r
    | SetErrorState => set_error_state r
    end.

Fixpoint run (cs : list call) (r : binary_stream_reader) : binary_stream_reader :=
  match cs with
  | [] => r
  | c :: cs' => run cs' (exec c r)
  end.

Fixpoint run_reads (bs : list bounded_read) (r : binary_stream_reader)
  : binary_stream_reader :=
  match bs with
  | [] => r
  | b :: bs' => run_reads bs' (exec_bounded b r)
  end.

(** Every read of the sequence asks for no more than the buffer holds
    when its turn comes. *)
Fixpoint within_buffer (bs : list bounded_read) (r : binary_stream_reader)
  : Prop :=
  match bs with
  | [] => True
  | b :: bs' =>
      0 <= requested b <= Buffer.size (rbuffer_ r)
      /\ within_buffer bs' (exec_bounded b r)
  end.

(** The calls that go through the bounds policy. *)
Definition is_read (c : call) : bool :=
  match c with
  | ClearErrorState | SetErrorState => false
  | _ => true
  end.

(** *** Further member functions *)

(** [binary_stream_reader(binary_stream_reader&& rhs)]: the reader
    constructed and what is left of [rhs]. *)
Definition move (rhs : binary_stream_reader)
  : binary_stream_reader * binary_stream_reader :=
  ({| rbase := rbase rhs; rbuffer_ := rbuffer_ rhs;
      total_read_ := total_read_ rhs; read_limit_ := read_limit_ rhs |},
   set_state (set_total_read rhs (wrap (-1))) invalid_stream).

(** [container.resize(count)] on a [std::vector] of bytes: the first
    [count] elements are kept and zero bytes are appended up to [count]. *)
Definition resize (container : list byte) (count : Z) : list byte :=
  firstn (Z.to_nat count) container
  ++ repeat Byte.x00 (Z.to_nat count - length container).

(** [read_container(container, count)] on a contiguous container of
    bytes, the [memcpy_read] branch: the container is resized, then
    [SAFE_READ(container.data(), count * sizeof(cvalue_type), void())].
    The result is the container after the call. *)
Definition read_container (container : list byte) (count : Z)
  : op binary_stream_reader (list byte) :=
  let container := resize container count in
  let bytes := wrap (count * 1) in
  SAFE_READ bytes container
    (fun dest => ret (Storage.memcpy container 0 dest)).

(** [operator>>(prefixed<T> adaptor)] for such a container. *)
Definition shr_prefixed_container (adaptor : list byte)
  : op binary_stream_reader (list byte) :=
  (count <- shr_le 4 0 ;; read_container adaptor count)%op.

(** [get(It begin, const It end)] over a range of [std::string]:
    [*this >> *begin] on each element. *)
Definition get_strings (range : list (list byte))
  : op binary_stream_reader (list (list byte)) :=
  for_each_into shr_string range.

(** [get(It begin, const It end)] over a range of PODs. *)
Definition get_pods (range : list (list byte))
  : op binary_stream_reader (list (list byte)) :=
  for_each_into shr_pod range.

End Reader.

Module Writer.

Definition make (source : list byte) (throwing : bool) : binary_stream_writer :=
  {| wbase := {| state_ := ok; allow_throw_ := throwing |};
     wbuffer_ := source; total_write_ := 0 |}.

Definition state (w : binary_stream_writer) : stream_state :=
  state_ (wbase w).

Definition allow_throw (w : binary_stream_writer) : bool :=
  allow_throw_ (wbase w).

Definition set_state (w : binary_stream_writer) (st : stream_state)
  : binary_stream_writer :=
  {| wbase := {| state_ := st; allow_throw_ := allow_throw_ (wbase w) |};
     wbuffer_ := wbuffer_ w; total_write_ := total_write_ w |}.

(** The same writer built with the other constructor. *)
Definition in_mode (w : binary_stream_writer) (throwing : bool)
  : binary_stream_writer :=
  {| wbase := {| state_ := state_ (wbase w); allow_throw_ := throwing |};
     wbuffer_ := wbuffer_ w; total_write_ := total_write_ w |}.

Definition clear_error_state (w : binary_stream_writer)
  : binary_stream_writer := set_state w ok.

Definition set_error_state (w : binary_stream_writer)
  : binary_stream_writer := set_state w user_defined_err.

Definition total_write (w : binary_stream_writer) : Z := total_write_ w.

Section Sink.

(** The write policy of the buffer the writer was built on. *)
Variable sink_rejects : list byte -> list byte -> bool.

(** [write(const void* data, const std::size_t size)] *)
Definition write (data : list byte) : op binary_stream_writer unit :=
  fun w =>
    if stream_state_eqb (state w) ok then
      match Buffer.write sink_rejects (wbuffer_ w) data with
      | Some b =>
          ({| wbase := wbase w; wbuffer_ := b;
              total_write_ := size_add (total_write_ w) (len data) |},
           Returned tt)
      | None =>
          let w1 := set_state w buff_write_err in
          if allow_throw w1 then (w1, Thrown sink_exception)
          else (w1, Returned tt)
      end
    else (w, Returned tt).

(** [write_container], on a container of bytes: the [memcpy_write]
    branch, [write(container.data(), container.size() * 1)]. *)
Definition write_container (container : list byte)
  : op binary_stream_writer unit :=
  write container.

(** [operator<<(endian_func adaptor)] with the little-endian adaptor
    around an unsigned integer of [width] bytes. *)
Definition shl_le (width : nat) (value : Z) : op binary_stream_writer unit :=
  write (le_split width value).

(** [operator<<(const T& data)] for a POD. *)
Definition shl_pod (data : list byte) : op binary_stream_writer unit :=
  write data.

(** [operator<<(prefixed<T> adaptor)] *)
Definition shl_prefixed (adaptor : list byte) : op binary_stream_writer unit :=
  let count := le_split 4 (to_uint32 (len adaptor)) in
  (write count ;;; write_container adaptor)%op.

(** [operator<<(const std::string& string)] *)
Definition shl_string (string : list byte) : op binary_stream_writer unit :=
  shl_prefixed string.

(** [adaptor->find_first_of('\0') == adaptor->npos] *)
Definition no_terminator_in (adaptor : list byte) : bool :=
  match Buffer.find_first_of adaptor Byte.x00 with
  | None => true
  | Some _ => false
  end.

(** [operator<<(null_terminated<T> adaptor)] for [std::string]: the
    assertion, then one write of the characters and the terminator that
    follows them. *)
Definition shl_null_terminated_string (adaptor : list byte)
  : op binary_stream_writer unit :=
  (asserting (no_terminator_in adaptor) ;;;
   write (adaptor ++ [Byte.x00]))%op.

(** [operator<<(raw<T> adaptor)] *)
Definition shl_raw (adaptor : list byte) : op binary_stream_writer unit :=
  write adaptor.

(** [put(const T* data, std::size_t count)] for one-byte [T]. *)
Definition put (data : list byte) : op binary_stream_writer unit :=
  write data.

Inductive call : Type :=
  | Write (data : list byte)
  | ShlLe (width : nat) (value : Z)
  | ShlPrefixed (adaptor : list byte)
  | ShlNullTerminatedString (adaptor : list byte)
  | ClearErrorState
  | SetErrorState.

Definition exec (c : call) : binary_stream_writer -> binary_stream_writer :=
  fun w =>
    match c with
    | Write data => fst (write data w)
    | ShlLe width value => fst (shl_le width value w)
    | ShlPrefixed adaptor => fst (shl_prefixed adaptor w)
    | ShlNullTerminatedString adaptor =>
        fst (shl_null_terminated_string adaptor w)
    | ClearErrorState => clear_error_state w
    | SetErrorState => set_error_state w
    end.

Fixpoint run (cs : list call) (w : binary_stream_writer)
  : binary_stream_writer :=
  match cs with
  | [] => w
  | c :: cs' => run cs' (exec c w)
  end.

Definition is_write (c : call) : bool :=
  match c with
  | ClearErrorState | SetErrorState => false
  | _ => true
  end.

(** The caller's side of the assertions: a null-terminated insertion is
    handed characters with no terminator among them.  A sequence of calls
    runs to its end only if each of its calls meets this. *)
Definition assertion_holds (c : call) : Prop :=
  match c with
  | ShlNullTerminatedString adaptor => ~ In Byte.x00 adaptor
  | _ => True
  end.

End Sink.

(** *** Further member functions *)

(** [binary_stream_writer(binary_stream_writer&& rhs)]: the writer
    constructed and what is left of [rhs]. *)
Definition move (rhs : binary_stream_writer)
  : binary_stream_writer * binary_stream_writer :=
  ({| wbase := wbase rhs; wbuffer_ := wbuffer_ rhs;
      total_write_ := total_write_ rhs |},
   set_state {| wbase := wbase rhs; wbuffer_ := wbuffer_ rhs;
                total_write_ := wrap (-1) |} invalid_stream).

Section Members.

Variable sink_rejects : list byte -> list byte -> bool.

(** [operator<<(null_terminated<T> adaptor)] for [std::string_view]: the
    assertion, then the characters, then the terminator in a write of
    its own. *)
Definition shl_null_terminated_string_view (adaptor : list byte)
  : op binary_stream_writer unit :=
  (asserting (no_terminator_in adaptor) ;;;
   write sink_rejects adaptor ;;;
   write sink_rejects [Byte.x00])%op.

(** [put(It begin, const It end)] over a range of PODs:
    [*this << *it] on each element. *)
Definition put_pods (range : list (list byte)) : op binary_stream_writer unit :=
  for_each (shl_pod sink_rejects) range.

(** [put(It begin, const It end)] over a range of [std::string]. *)
Definition put_strings (range : list (list byte))
  : op binary_stream_writer unit :=
  for_each (shl_string sink_rejects) range.

End Members.

End Writer.

End Pmc.

(** ** Concrete inputs used by the examples below *)

(** A block of capacity 4 holding two readable bytes. *)
Definition block_0_2 : Storage.intrusive_storage :=
  {| Storage.read_offset := 0; Storage.write_offset := 2;
     Storage.storage := [Byte.x61; Byte.x62; Byte.x00; Byte.x00] |}.

(** A block of capacity 4 whose two written bytes have been read. *)
Definition block_2_2 : Storage.intrusive_storage :=
  {| Storage.read_offset := 2; Storage.write_offset := 2;
     Storage.storage := [Byte.x61; Byte.x62; Byte.x00; Byte.x00] |}.

(** A two-byte buffer, and a non-throwing pmc reader over it whose read
    limit of one byte has been crossed by a two-byte read. *)
Definition two_bytes : list byte := [Byte.x61; Byte.x62].

Definition limited_reader : Pmc.binary_stream_reader :=
  Pmc.Reader.make two_bytes false 1.

Definition poisoned_reader : Pmc.binary_stream_reader :=
  Pmc.Reader.exec_bounded (BGet 1 2) limited_reader.

(** Four bytes, read under a limit of three. *)
Definition four_bytes : list byte := [Byte.x61; Byte.x62; Byte.x63; Byte.x64].


(** A throwing [binary_stream] over two bytes after the caller caught the
    underrun raised by a three-byte read, and its non-throwing twin. *)
Definition caught_stream : BinaryStream.binary_stream :=
  BinaryStream.exec_bounded BinaryStream.allow_throw (BGet 1 3)
    (BinaryStream.make two_bytes 0).

Definition failed_stream : BinaryStream.binary_stream :=
  BinaryStream.exec_bounded BinaryStream.no_throw (BGet 1 3)
    (BinaryStream.make two_bytes 0).

(** A read that fails followed by a read that fits. *)
Definition read_after_underrun : list BinaryStream.call :=
  [BinaryStream.Bounded (BGet 1 3); BinaryStream.Bounded (BGet 1 1)].

(** Calls on a [binary_stream] over two bytes: a read that is refused, a
    second one refused on the stream in its error state, and a read that
    succeeds after the state has been cleared. *)
Definition refused_twice_then_read : list BinaryStream.call :=
  [BinaryStream.Bounded (BGet 1 3); BinaryStream.Bounded (BGet 1 3);
   BinaryStream.ClearErrorState; BinaryStream.Bounded (BGet 1 1)].

(** A sink that accepts every write. *)
Definition accepting_sink : list byte -> list byte -> bool :=
  fun _ _ => false.

(** Writing a string with the fixed-length prefix into an empty buffer
    and reading it back from that buffer, with throwing streams, an
    accepting sink and no read limit. *)
Definition prefixed_round_trip (s : list byte) : outcome (list byte) :=
  let w := fst (Pmc.Writer.shl_prefixed accepting_sink s
                  (Pmc.Writer.make [] true)) in
  snd (Pmc.Reader.shr_prefixed_string []
         (Pmc.Reader.make (Pmc.wbuffer_ w) true 0)).

(** A string of [2^32] bytes. *)
Definition four_gib_string : list byte := repeat Byte.x00 (Z.to_nat (2 ^ 32)).

(** The bytes of ["hi"], a terminator, then the bytes of ["yo"]. *)
Definition hi : list byte := [Byte.x68; Byte.x69].
Definition yo : list byte := [Byte.x79; Byte.x6f].
Definition hi_yo : list byte := hi ++ Byte.x00 :: yo.

(** A varint cut off after its first byte. *)
Definition truncated_varint : list byte := [Byte.x80].

(** A throwing pmc reader with a read limit of ten over two bytes. *)
Definition reader_limit_ten : Pmc.binary_stream_reader :=
  Pmc.Reader.make two_bytes true 10.

(** Eleven bytes, for a chain of blocks of capacity four. *)
Definition eleven_bytes : list byte :=
  [Byte.x61; Byte.x62; Byte.x63; Byte.x64; Byte.x65; Byte.x66; Byte.x67;
   Byte.x68; Byte.x69; Byte.x6a; Byte.x6b].

(** ** Inputs and predicates of the further properties *)

(** A block of capacity 4 that was filled and then read to the end. *)
Definition block_4_4 : Storage.intrusive_storage :=
  {| Storage.read_offset := 4; Storage.write_offset := 4;
     Storage.storage := four_bytes |}.

(** The sizes a caller passes are [std::size_t] values. *)
Definition reader_arguments_in_range (c : Pmc.Reader.call) : Prop :=
  match c with
  | Pmc.Reader.Bounded b => is_size_t (requested b)
  | _ => True
  end.


(** What a pmc reader over [source] with read limit [L] has consumed:
    the first [total_read] bytes of the source, and no more than the
    limit allows. *)
Definition reader_consumed (source : list byte) (L : Z)
  (r : Pmc.binary_stream_reader) : Prop :=
  Pmc.read_limit_ r = L
  /\ 0 <= Pmc.total_read_ r <= len source
  /\ Pmc.rbuffer_ r = skipn (Z.to_nat (Pmc.total_read_ r)) source
  /\ (L <> 0 -> Pmc.total_read_ r <= L).

(** The rest of a member function, after the bounds policy allowed [n]
    bytes: it takes exactly these bytes from the buffer and leaves the
    counters alone. *)
Definition takes (n : Z) {A : Type} (rest : op Pmc.binary_stream_reader A)
  : Prop :=
  forall r : Pmc.binary_stream_reader,
    0 <= n <= len (Pmc.rbuffer_ r) ->
    Pmc.total_read_ (fst (rest r)) = Pmc.total_read_ r
    /\ Pmc.read_limit_ (fst (rest r)) = Pmc.read_limit_ r
    /\ Pmc.rbase (fst (rest r)) = Pmc.rbase r
    /\ Pmc.rbuffer_ (fst (rest r)) = skipn (Z.to_nat n) (Pmc.rbuffer_ r).

(** The bytes a call hands to the sink when the state of the writer is
    [ok], and the bytes a sequence of calls is to leave in a sink that
    takes every write: a write counts while the state is [ok],
    [set_error_state] stops the writes and [clear_error_state] lets them
    through again.  This is the reference the writer is compared with. *)
Definition bytes_of_call (c : Pmc.Writer.call) : list byte :=
  match c with
  | Pmc.Writer.Write data => data
  | Pmc.Writer.ShlLe width value => le_split width value
  | Pmc.Writer.ShlPrefixed adaptor =>
      le_split 4 (to_uint32 (len adaptor)) ++ adaptor
  | Pmc.Writer.ShlNullTerminatedString adaptor => adaptor ++ [Byte.x00]
  | Pmc.Writer.ClearErrorState | Pmc.Writer.SetErrorState => []
  end.

Fixpoint bytes_expected (cs : list Pmc.Writer.call) (good : bool)
  : list byte :=
  match cs with
  | [] => []
  | Pmc.Writer.ClearErrorState :: cs' => bytes_expected cs' true
  | Pmc.Writer.SetErrorState :: cs' => bytes_expected cs' false
  | c :: cs' =>
      (if good then bytes_of_call c else []) ++ bytes_expected cs' good
  end.

(** Writes, a poisoned stretch in which nothing may be written, and a
    write after the state was cleared. *)
Definition writes_around_an_error : list Pmc.Writer.call :=
  [Pmc.Writer.ShlPrefixed hi; Pmc.Writer.SetErrorState;
   Pmc.Writer.Write two_bytes; Pmc.Writer.ClearErrorState;
   Pmc.Writer.ShlNullTerminatedString yo].

(** Calls on a pmc reader, mixing reads with error handling. *)
Definition refused_then_read : list Pmc.Reader.call :=
  [Pmc.Reader.Bounded (BGet 1 3); Pmc.Reader.ClearErrorState;
   Pmc.Reader.ShrLe 1].

(** A sink of fixed capacity: it rejects the write that would overflow it. *)
Definition sink_of_capacity (capacity : Z) : list byte -> list byte -> bool :=
  fun b d => len b + len d >? capacity.

(** The frames of a range of strings written with the fixed-length
    prefix, and of a range written with terminators. *)
Definition prefixed_frames (range : list (list byte)) : list byte :=
  flat_map (fun s => le_split 4 (len s) ++ s) range.

Definition terminated_frames (range : list (list byte)) : list byte :=
  flat_map (fun s => s ++ [Byte.x00]) range.



(** A member function of a non-throwing pmc reader comes back with a
    value, on a reader that is still non-throwing; likewise for a writer. *)
Definition reader_never_throws {A : Type}
  (m : op Pmc.binary_stream_reader A) : Prop :=
  forall r : Pmc.binary_stream_reader,
    Pmc.Reader.allow_throw r = false ->
    returns (m r) /\ Pmc.Reader.allow_throw (fst (m r)) = false.

Definition writer_never_throws {A : Type}
  (m : op Pmc.binary_stream_writer A) : Prop :=
  forall w : Pmc.binary_stream_writer,
    Pmc.Writer.allow_throw w = false ->
    returns (m w) /\ Pmc.Writer.allow_throw (fst (m w)) = false.





(** ** Proof automation *)

(** Case analysis on every condition a member function tests. *)
Ltac split_conditions :=
  repeat match goal with
         | |- context [if ?c then _ else _] => destruct c eqn:?
         | |- context [match ?x with Some _ => _ | None => _ end] =>
             destruct x eqn:?
         end.

(** * Properties *)

(** ** [std::size_t] arithmetic *)

Lemma size_t_modulus_pos : 0 < size_t_modulus.
Proof. reflexivity. Qed.

Lemma wrap_small (z : Z) : is_size_t z -> wrap z = z.
Proof. intros H. apply Z.mod_small. exact H. Qed.

Lemma wrap_range (z : Z) : is_size_t (wrap z).
Proof. apply Z.mod_pos_bound. reflexivity. Qed.

Lemma size_add_small (a b : Z) : is_size_t (a + b) -> size_add a b = a + b.
Proof. apply wrap_small. Qed.

Lemma size_sub_small (a b : Z) : is_size_t (a - b) -> size_sub a b = a - b.
Proof. apply wrap_small. Qed.

Lemma len_nonneg (s : list byte) : 0 <= len s.
Proof. unfold len. lia. Qed.

Lemma len_app (s t : list byte) : len (s ++ t) = len s + len t.
Proof. unfold len. rewrite length_app. lia. Qed.

Lemma len_repeat (x : byte) (n : nat) : len (repeat x n) = Z.of_nat n.
Proof. unfold len. rewrite repeat_length. reflexivity. Qed.

#[local] Hint Resolve len_nonneg : core.

(** ** Storage blocks *)

Section StorageFacts.

Import Storage.

Variable N : Z.
Hypothesis N_size_t : is_size_t N.

Lemma size_of_block (b : intrusive_storage) :
  block_inv N b -> size b = write_offset b - read_offset b.
Proof.
  intros (H0 & H1 & H2). unfold size. apply size_sub_small.
  unfold is_size_t in *. lia.
Qed.

Lemma free_of_block (b : intrusive_storage) :
  block_inv N b -> free N b = N - write_offset b.
Proof.
  intros (H0 & H1 & H2). unfold free. apply size_sub_small.
  unfold is_size_t in *. lia.
Qed.

Lemma write_keeps_inv (b : intrusive_storage) (source : list byte) :
  block_inv N b -> block_inv N (fst (write N b source)).
Proof.
  intros Hb. pose proof (free_of_block b Hb) as Hf. unfold free in Hf.
  destruct Hb as (H0 & H1 & H2). pose proof (len_nonneg source).
  unfold write, block_inv. cbn [fst read_offset write_offset].
  rewrite Hf. unfold is_size_t in *.
  destruct (N - write_offset b >? len source) eqn:E;
    rewrite size_add_small; unfold is_size_t; lia.
Qed.

Lemma write_returns (b : intrusive_storage) (source : list byte) :
  block_inv N b -> snd (write N b source) = Z.min (free N b) (len source).
Proof.
  intros Hb. unfold write. cbn [snd]. fold (free N b).
  destruct (free N b >? len source) eqn:E; lia.
Qed.

Lemma advance_write_keeps_inv (b : intrusive_storage) (n : Z) :
  block_inv N b -> 0 <= n -> block_inv N (fst (advance_write N b n)).
Proof.
  intros Hb Hn. pose proof (free_of_block b Hb) as Hf.
  destruct Hb as (H0 & H1 & H2).
  unfold advance_write, block_inv. cbn [fst read_offset write_offset].
  rewrite Hf. unfold is_size_t in *.
  destruct (N - write_offset b <? n) eqn:E;
    rewrite size_add_small; unfold is_size_t; lia.
Qed.

Lemma clear_keeps_inv (b : intrusive_storage) : block_inv N (clear b).
Proof. unfold block_inv, clear, is_size_t in *. cbn. lia. Qed.

Lemma read_keeps_inv (b : intrusive_storage) (n : Z) (allow_optimise : bool) :
  block_inv N b -> 0 <= n <= size b ->
  block_inv N (fst (read N b n allow_optimise)).
Proof.
  intros Hb Hn. rewrite (size_of_block b Hb) in Hn.
  destruct Hb as (H0 & H1 & H2). unfold is_size_t in *.
  unfold read, copy. cbn [fst].
  rewrite (size_sub_small N (read_offset b)) by (unfold is_size_t; lia).
  cbn [read_offset write_offset].
  destruct (N - read_offset b >? n) eqn:E.
  - rewrite size_add_small by (unfold is_size_t; lia).
    destruct ((read_offset b + n =? write_offset b) && allow_optimise);
      unfold block_inv, clear; cbn; lia.
  - rewrite size_add_small by (unfold is_size_t; lia).
    destruct ((read_offset b + (N - read_offset b) =? write_offset b)
              && allow_optimise);
      unfold block_inv, clear; cbn; lia.
Qed.

Lemma skip_keeps_inv (b : intrusive_storage) (n : Z) (allow_optimise : bool) :
  block_inv N b -> 0 <= n <= size b ->
  block_inv N (fst (skip N b n allow_optimise)).
Proof.
  intros Hb Hn. rewrite (size_of_block b Hb) in Hn.
  destruct Hb as (H0 & H1 & H2). unfold is_size_t in *.
  unfold skip. cbn [fst].
  rewrite (size_sub_small N (read_offset b)) by (unfold is_size_t; lia).
  cbn [read_offset write_offset].
  destruct (N - read_offset b >? n) eqn:E.
  - rewrite size_add_small by (unfold is_size_t; lia).
    destruct ((read_offset b + n =? write_offset b) && allow_optimise);
      unfold block_inv, clear; cbn; lia.
  - rewrite size_add_small by (unfold is_size_t; lia).
    destruct ((read_offset b + (N - read_offset b) =? write_offset b)
              && allow_optimise);
      unfold block_inv, clear; cbn; lia.
Qed.

Lemma write_seek_keeps_inv (b : intrusive_storage) (direction : buffer_seek)
  (offset : Z) :
  block_inv N b ->
  match direction with
  | sk_absolute => read_offset b <= offset <= N
  | sk_backward => 0 <= offset <= size b
  | sk_forward => 0 <= offset <= free N b
  end ->
  block_inv N (write_seek b direction offset).
Proof.
  intros Hb Ho. pose proof (size_of_block b Hb) as Hs.
  pose proof (free_of_block b Hb) as Hf.
  destruct Hb as (H0 & H1 & H2). unfold is_size_t in *.
  destruct direction; unfold write_seek, block_inv;
    cbn [read_offset write_offset].
  - lia.
  - rewrite size_sub_small by (unfold is_size_t; lia). lia.
  - rewrite size_add_small by (unfold is_size_t; lia). lia.
Qed.

End StorageFacts.

(** ** The state enumeration *)

Lemma stream_state_eqb_eq (a b : stream_state) :
  stream_state_eqb a b = true <-> a = b.
Proof. destruct a, b; cbn; split; intros H; congruence. Qed.

Lemma stream_state_eqb_refl (a : stream_state) : stream_state_eqb a a = true.
Proof. destruct a; reflexivity. Qed.

Lemma stream_state_eqb_neq (a b : stream_state) :
  a <> b -> stream_state_eqb a b = false.
Proof.
  intros H. destruct (stream_state_eqb a b) eqn:E; [|reflexivity].
  apply stream_state_eqb_eq in E. contradiction.
Qed.

(** ** The bounds policy of [binary_stream] *)

Section BinaryStreamBounds.

Import BinaryStream.

Variable ex : except_tag.

Lemma check_read_bounds_underrun (n : Z) (s : binary_stream) :
  n > size s ->
  check_read_bounds ex n s
  = (set_state s buff_limit_err,
     refused ex (buffer_underrun n (total_read_ s) (size s)) tt).
Proof.
  intros H. unfold check_read_bounds, size in *.
  replace (n >? Buffer.size (buffer_ s)) with true by lia.
  unfold refused. destruct ex; reflexivity.
Qed.

Lemma check_read_bounds_limit (n : Z) (s : binary_stream) :
  n <= size s -> read_limit_ s <> 0 ->
  n > size_sub (read_limit_ s) (total_read_ s) ->
  check_read_bounds ex n s
  = (set_state s read_limit_err,
     refused ex (stream_read_limit n (total_read_ s) (read_limit_ s)) tt).
Proof.
  intros H HL Hn. unfold check_read_bounds, size in *.
  replace (n >? Buffer.size (buffer_ s)) with false by lia.
  replace (read_limit_ s =? 0) with false by lia.
  replace (n >? size_sub (read_limit_ s) (total_read_ s)) with true by lia.
  unfold refused. destruct ex; reflexivity.
Qed.

Lemma check_read_bounds_pass (n : Z) (s : binary_stream) :
  n <= size s ->
  read_limit_ s = 0 \/ n <= size_sub (read_limit_ s) (total_read_ s) ->
  check_read_bounds ex n s
  = (set_total_read s (size_add (total_read_ s) n), Returned tt).
Proof.
  intros H HL. unfold check_read_bounds, size in *.
  replace (n >? Buffer.size (buffer_ s)) with false by lia.
  destruct HL as [HL | HL].
  - rewrite HL. reflexivity.
  - replace (n >? size_sub (read_limit_ s) (total_read_ s)) with false by lia.
    rewrite andb_false_r. reflexivity.
Qed.

Lemma bounds_check_underrun {A : Type} (n : Z) (ret_var : A)
  (rest : op binary_stream A) (s : binary_stream) :
  n > size s ->
  STREAM_READ_BOUNDS_CHECK ex n ret_var rest s
  = (set_state s buff_limit_err,
     refused ex (buffer_underrun n (total_read_ s) (size s)) ret_var).
Proof.
  intros H. unfold STREAM_READ_BOUNDS_CHECK, bind.
  rewrite check_read_bounds_underrun by assumption.
  unfold refused. destruct ex; reflexivity.
Qed.



End BinaryStreamBounds.

(** ** The bounds policy of the pmc reader *)

Section PmcReaderBounds.

Import Pmc Pmc.Reader.

Lemma enforce_read_bounds_underrun (n : Z) (r : binary_stream_reader) :
  n > size r ->
  enforce_read_bounds n r
  = (set_state r buff_limit_err,
     refused r (buffer_underrun n (total_read_ r) (size r)) tt).
Proof.
  intros H. unfold enforce_read_bounds, size in *.
  replace (n >? Buffer.size (rbuffer_ r)) with true by lia.
  unfold refused, allow_throw. cbn. destruct (allow_throw_ (rbase r)); reflexivity.
Qed.

Lemma enforce_read_bounds_limit (n : Z) (r : binary_stream_reader) :
  n <= size r -> read_limit_ r <> 0 ->
  n > size_sub (read_limit_ r) (total_read_ r) ->
  enforce_read_bounds n r
  = (set_state r read_limit_err,
     refused r (stream_read_limit n (total_read_ r) (read_limit_ r)) tt).
Proof.
  intros H HL Hn. unfold enforce_read_bounds, size in *.
  replace (n >? Buffer.size (rbuffer_ r)) with false by lia.
  replace (read_limit_ r =? 0) with false by lia.
  replace (n >? size_sub (read_limit_ r) (total_read_ r)) with true by lia.
  unfold refused, allow_throw. cbn. destruct (allow_throw_ (rbase r)); reflexivity.
Qed.

Lemma enforce_read_bounds_pass (n : Z) (r : binary_stream_reader) :
  n <= size r ->
  read_limit_ r = 0 \/ n <= size_sub (read_limit_ r) (total_read_ r) ->
  enforce_read_bounds n r
  = (set_total_read r (size_add (total_read_ r) n), Returned tt).
Proof.
  intros H HL. unfold enforce_read_bounds, size in *.
  replace (n >? Buffer.size (rbuffer_ r)) with false by lia.
  destruct HL as [HL | HL].
  - rewrite HL. reflexivity.
  - replace (n >? size_sub (read_limit_ r) (total_read_ r)) with false by lia.
    rewrite andb_false_r. reflexivity.
Qed.

(** A poisoned reader returns at the first line of the macro. *)
Lemma bounds_enforce_poisoned {A : Type} (n : Z) (ret_var : A)
  (rest : op binary_stream_reader A) (r : binary_stream_reader) :
  state r <> ok ->
  STREAM_READ_BOUNDS_ENFORCE n ret_var rest r = (r, Returned ret_var).
Proof.
  intros H. unfold STREAM_READ_BOUNDS_ENFORCE.
  rewrite stream_state_eqb_neq by assumption. reflexivity.
Qed.

Lemma bounds_enforce_underrun {A : Type} (n : Z) (ret_var : A)
  (rest : op binary_stream_reader A) (r : binary_stream_reader) :
  state r = ok -> n > size r ->
  STREAM_READ_BOUNDS_ENFORCE n ret_var rest r
  = (set_state r buff_limit_err,
     refused r (buffer_underrun n (total_read_ r) (size r)) ret_var).
Proof.
  intros Hs H. unfold STREAM_READ_BOUNDS_ENFORCE, bind.
  rewrite Hs. cbn [stream_state_eqb negb].
  rewrite enforce_read_bounds_underrun by assumption.
  unfold refused, allow_throw. cbn.
  destruct (allow_throw_ (rbase r)); reflexivity.
Qed.

Lemma bounds_enforce_limit {A : Type} (n : Z) (ret_var : A)
  (rest : op binary_stream_reader A) (r : binary_stream_reader) :
  state r = ok -> n <= size r -> read_limit_ r <> 0 ->
  n > size_sub (read_limit_ r) (total_read_ r) ->
  STREAM_READ_BOUNDS_ENFORCE n ret_var rest r
  = (set_state r read_limit_err,
     refused r (stream_read_limit n (total_read_ r) (read_limit_ r)) ret_var).
Proof.
  intros Hs H HL Hn. unfold STREAM_READ_BOUNDS_ENFORCE, bind.
  rewrite Hs. cbn [stream_state_eqb negb].
  rewrite enforce_read_bounds_limit by assumption.
  unfold refused, allow_throw. cbn.
  destruct (allow_throw_ (rbase r)); reflexivity.
Qed.

Lemma bounds_enforce_pass {A : Type} (n : Z) (ret_var : A)
  (rest : op binary_stream_reader A) (r : binary_stream_reader) :
  state r = ok -> n <= size r ->
  read_limit_ r = 0 \/ n <= size_sub (read_limit_ r) (total_read_ r) ->
  STREAM_READ_BOUNDS_ENFORCE n ret_var rest r
  = rest (set_total_read r (size_add (total_read_ r) n)).
Proof.
  intros Hs H HL. unfold STREAM_READ_BOUNDS_ENFORCE, bind.
  rewrite Hs. cbn [stream_state_eqb negb].
  rewrite enforce_read_bounds_pass by assumption.
  unfold state, allow_throw in *. cbn [set_total_read rbase].
  rewrite Hs. cbn. rewrite andb_false_r. reflexivity.
Qed.

End PmcReaderBounds.

(** ** Bounded reads, one at a time and in sequence *)


Lemma skipn_skipn_Z (a b : Z) (l : list byte) :
  0 <= a -> 0 <= b ->
  skipn (Z.to_nat b) (skipn (Z.to_nat a) l) = skipn (Z.to_nat (a + b)) l.
Proof.
  intros Ha Hb. rewrite skipn_skipn. f_equal. lia.
Qed.

Lemma len_skipn (n : Z) (l : list byte) :
  0 <= n <= len l -> len (skipn (Z.to_nat n) l) = len l - n.
Proof. unfold len. intros H. rewrite length_skipn. lia. Qed.

Section BinaryStreamReads.

Import BinaryStream.

Variable ex : except_tag.

Lemma exec_bounded_underrun (b : bounded_read) (s : binary_stream) :
  is_size_t (requested b) -> requested b > size s ->
  exec_bounded ex b s = set_state s buff_limit_err.
Proof.
  intros Hr H.
  destruct b; cbn [exec_bounded requested] in *;
    unfold get, get_string, skip, shr_pod;
    rewrite ?len_repeat;
    rewrite bounds_check_underrun by assumption; reflexivity.
Qed.





End BinaryStreamReads.

Section PmcReaderReads.

Import Pmc Pmc.Reader.

Lemma rexec_bounded_poisoned (b : bounded_read) (r : binary_stream_reader) :
  state r <> ok -> exec_bounded b r = r.
Proof.
  intros H.
  destruct b; cbn [exec_bounded];
    unfold get, get_string, skip, shr_pod, SAFE_READ;
    rewrite bounds_enforce_poisoned by assumption; reflexivity.
Qed.

Lemma rexec_bounded_underrun (b : bounded_read) (r : binary_stream_reader) :
  state r = ok -> is_size_t (requested b) -> requested b > size r ->
  exec_bounded b r = set_state r buff_limit_err.
Proof.
  intros Hs Hr H.
  destruct b; cbn [exec_bounded requested] in *;
    unfold get, get_string, skip, shr_pod, SAFE_READ;
    rewrite ?len_repeat;
    rewrite bounds_enforce_underrun by assumption; reflexivity.
Qed.






End PmcReaderReads.

(** ** Reads larger than the buffer *)

(** C1, as amended.  A bounded read of more bytes than the buffer holds
    sets the state to [buff_limit_err] (the buffer underrun), takes
    nothing from the buffer and leaves [total_read] alone, in both
    propagation modes; the caller gets the exception in throwing mode and
    the default result otherwise.  This holds for [binary_stream] in every
    state and for the pmc reader whose state is [ok]; a pmc reader that is
    already in an error state returns at once and keeps that state, its
    buffer and its counter.  The bounds functions themselves,
    [check_read_bounds] and [enforce_read_bounds], set [buff_limit_err]
    whatever the state they are called in. *)
Theorem oversized_read_sets_buffer_underrun (n : Z) :
  (forall (ex : BinaryStream.except_tag) (s : BinaryStream.binary_stream)
          (A : Type) (ret_var : A) (rest : op BinaryStream.binary_stream A),
      n > BinaryStream.size s ->
      let res := BinaryStream.STREAM_READ_BOUNDS_CHECK ex n ret_var rest s in
      BinaryStream.state (fst res) = buff_limit_err
      /\ BinaryStream.buffer_ (fst res) = BinaryStream.buffer_ s
      /\ BinaryStream.total_read (fst res) = BinaryStream.total_read s
      /\ snd res
         = BinaryStream.refused ex
             (buffer_underrun n (BinaryStream.total_read s) (BinaryStream.size s))
             ret_var)
  /\ (forall (r : Pmc.binary_stream_reader)
             (A : Type) (ret_var : A) (rest : op Pmc.binary_stream_reader A),
         Pmc.Reader.state r = ok -> n > Pmc.Reader.size r ->
         let res := Pmc.Reader.STREAM_READ_BOUNDS_ENFORCE n ret_var rest r in
         Pmc.Reader.state (fst res) = buff_limit_err
         /\ Pmc.rbuffer_ (fst res) = Pmc.rbuffer_ r
         /\ Pmc.Reader.total_read (fst res) = Pmc.Reader.total_read r
         /\ snd res
            = Pmc.Reader.refused r
                (buffer_underrun n (Pmc.Reader.total_read r) (Pmc.Reader.size r))
                ret_var)
  /\ (forall (r : Pmc.binary_stream_reader)
             (A : Type) (ret_var : A) (rest : op Pmc.binary_stream_reader A),
         Pmc.Reader.state r <> ok ->
         Pmc.Reader.STREAM_READ_BOUNDS_ENFORCE n ret_var rest r
         = (r, Returned ret_var))
  /\ (forall (b : bounded_read), requested b = n -> is_size_t n ->
         (forall ex s, n > BinaryStream.size s ->
            BinaryStream.exec_bounded ex b s
            = BinaryStream.set_state s buff_limit_err)
         /\ (forall r, Pmc.Reader.state r = ok -> n > Pmc.Reader.size r ->
               Pmc.Reader.exec_bounded b r
               = Pmc.Reader.set_state r buff_limit_err))
  /\ (forall (ex : BinaryStream.except_tag) (s : BinaryStream.binary_stream),
         n > BinaryStream.size s ->
         BinaryStream.check_read_bounds ex n s
         = (BinaryStream.set_state s buff_limit_err,
            BinaryStream.refused ex
              (buffer_underrun n (BinaryStream.total_read s)
                 (BinaryStream.size s)) tt))
  /\ (forall r : Pmc.binary_stream_reader,
         n > Pmc.Reader.size r ->
         Pmc.Reader.enforce_read_bounds n r
         = (Pmc.Reader.set_state r buff_limit_err,
            Pmc.Reader.refused r
              (buffer_underrun n (Pmc.Reader.total_read r)
                 (Pmc.Reader.size r)) tt)).
Proof.
  split; [|split; [|split; [|split; [|split]]]].
  - intros ex s A ret_var rest H.
    rewrite bounds_check_underrun by assumption. cbn. auto.
  - intros r A ret_var rest Hs H.
    rewrite bounds_enforce_underrun by assumption. cbn. auto.
  - intros r A ret_var rest H. apply bounds_enforce_poisoned. assumption.
  - intros b Hb Hn. split.
    + intros ex s H. subst n. apply exec_bounded_underrun; assumption.
    + intros r Hs H. subst n. apply rexec_bounded_underrun; assumption.
  - intros ex s H. apply check_read_bounds_underrun. assumption.
  - intros r H. apply enforce_read_bounds_underrun. assumption.
Qed.

Lemma oversized_read_sets_buffer_underrun_witness :
  (3 > BinaryStream.size (BinaryStream.make two_bytes 0)
   /\ BinaryStream.state
        (fst (BinaryStream.skip BinaryStream.no_throw 3
                (BinaryStream.make two_bytes 0))) = buff_limit_err)
  /\ (Pmc.Reader.state (Pmc.Reader.make two_bytes true 0) = ok
      /\ 3 > Pmc.Reader.size (Pmc.Reader.make two_bytes true 0)
      /\ Pmc.Reader.get_string [] 3 (Pmc.Reader.make two_bytes true 0)
         = (Pmc.Reader.set_state (Pmc.Reader.make two_bytes true 0) buff_limit_err,
            Thrown (buffer_underrun 3 0 2))).
Proof.
  split.
  - assert (H : 3 > BinaryStream.size (BinaryStream.make two_bytes 0))
      by (vm_compute; reflexivity).
    split; [exact H|].
    exact (proj1 (proj1 (oversized_read_sets_buffer_underrun 3)
                    BinaryStream.no_throw (BinaryStream.make two_bytes 0)
                    unit tt _ H)).
  - assert (Hs : Pmc.Reader.state (Pmc.Reader.make two_bytes true 0) = ok)
      by reflexivity.
    assert (H : 3 > Pmc.Reader.size (Pmc.Reader.make two_bytes true 0))
      by (vm_compute; reflexivity).
    split; [exact Hs|]. split; [exact H|].
    pose proof (proj1 (proj2 (oversized_read_sets_buffer_underrun 3))
                  (Pmc.Reader.make two_bytes true 0) (list byte) []
                  (Pmc.Reader.buffer_read 3) Hs H) as (H1 & H2 & H3 & H4).
    apply injective_projections; [reflexivity | exact H4].
Defined.

(** C1 as stated fails on a pmc reader that is already in an error state:
    the reader whose one-byte read limit was crossed keeps
    [read_limit_err] when it is then asked for three bytes of a two-byte
    buffer. *)
Lemma poisoned_reader_keeps_read_limit_err :
  Pmc.Reader.state poisoned_reader = read_limit_err
  /\ 3 > Pmc.Reader.size poisoned_reader
  /\ Pmc.Reader.state (Pmc.Reader.exec_bounded (BGet 1 3) poisoned_reader)
     <> buff_limit_err.
Proof.
  split; [reflexivity|]. split; [vm_compute; reflexivity|].
  vm_compute. discriminate.
Qed.

(** ** The read limit *)



(** ** Streams in an error state *)

(** The assertion of the null-terminated insertions holds for
    characters with no terminator among them, and fails otherwise. *)
Lemma no_terminator_asserted (s : list byte) :
  ~ In Byte.x00 s -> Pmc.Writer.no_terminator_in s = true.
Proof.
  unfold Pmc.Writer.no_terminator_in.
  induction s as [|x s IH]; intros H; cbn [Buffer.find_first_of].
  - reflexivity.
  - destruct (Byte.eqb x Byte.x00) eqn:E.
    + apply Byte.byte_dec_bl in E. exfalso. apply H. left. exact E.
    + destruct (Buffer.find_first_of s Byte.x00) eqn:F.
      * exfalso. assert (Hs : ~ In Byte.x00 s)
          by (intros Hin; apply H; right; exact Hin).
        specialize (IH Hs). discriminate IH.
      * reflexivity.
Qed.

Lemma terminator_refuted (s : list byte) :
  In Byte.x00 s -> Pmc.Writer.no_terminator_in s = false.
Proof.
  unfold Pmc.Writer.no_terminator_in.
  induction s as [|x s IH]; intros H; cbn [Buffer.find_first_of].
  - destruct H.
  - destruct (Byte.eqb x Byte.x00) eqn:E; [reflexivity|].
    destruct H as [H | H].
    + subst x. vm_compute in E. discriminate E.
    + specialize (IH H).
      destruct (Buffer.find_first_of s Byte.x00); [reflexivity | discriminate IH].
Qed.

Lemma shl_null_terminated_string_asserted
  (sink_rejects : list byte -> list byte -> bool) (s : list byte)
  (w : Pmc.binary_stream_writer) :
  ~ In Byte.x00 s ->
  Pmc.Writer.shl_null_terminated_string sink_rejects s w
  = Pmc.Writer.write sink_rejects (s ++ [Byte.x00]) w.
Proof.
  intros H. unfold Pmc.Writer.shl_null_terminated_string, bind, asserting.
  rewrite (no_terminator_asserted s H). reflexivity.
Qed.

Lemma shl_null_terminated_string_view_asserted
  (sink_rejects : list byte -> list byte -> bool) (s : list byte)
  (w : Pmc.binary_stream_writer) :
  ~ In Byte.x00 s ->
  Pmc.Writer.shl_null_terminated_string_view sink_rejects s w
  = (Pmc.Writer.write sink_rejects s ;;;
     Pmc.Writer.write sink_rejects [Byte.x00])%op w.
Proof.
  intros H.
  unfold Pmc.Writer.shl_null_terminated_string_view, asserting.
  unfold bind at 1. rewrite (no_terminator_asserted s H). reflexivity.
Qed.

Section PoisonedPmcStreams.

Import Pmc.

Lemma reader_exec_poisoned (c : Reader.call) (r : binary_stream_reader) :
  Reader.state r <> ok -> Reader.is_read c = true -> Reader.exec c r = r.
Proof.
  intros H Hc. destruct c; cbn [Reader.exec Reader.is_read] in *;
    try discriminate.
  - apply rexec_bounded_poisoned. assumption.
  - unfold Reader.shr_le, Reader.SAFE_READ.
    rewrite bounds_enforce_poisoned by assumption. reflexivity.
  - unfold Reader.shr_pod, Reader.SAFE_READ.
    rewrite bounds_enforce_poisoned by assumption. reflexivity.
  - unfold Reader.get_uint8, Reader.SAFE_READ.
    rewrite bounds_enforce_poisoned by assumption. reflexivity.
  - unfold Reader.shr_prefixed_string, Reader.shr_le, Reader.SAFE_READ, bind.
    rewrite bounds_enforce_poisoned by assumption.
    rewrite stream_state_eqb_neq by assumption. reflexivity.
  - unfold Reader.shr_null_terminated_string.
    destruct (Buffer.find_first_of (rbuffer_ r) Byte.x00); [|reflexivity].
    rewrite bounds_enforce_poisoned by assumption. reflexivity.
Qed.

Lemma reader_run_poisoned (cs : list Reader.call) (r : binary_stream_reader) :
  Reader.state r <> ok -> forallb Reader.is_read cs = true ->
  Reader.run cs r = r.
Proof.
  intros H. induction cs as [|c cs IH]; intros Hcs; cbn in *; [reflexivity|].
  apply andb_prop in Hcs. destruct Hcs as [Hc Hcs].
  rewrite reader_exec_poisoned by assumption. auto.
Qed.

Variable sink_rejects : list byte -> list byte -> bool.

Lemma write_poisoned (data : list byte) (w : binary_stream_writer) :
  Writer.state w <> ok ->
  Writer.write sink_rejects data w = (w, Returned tt).
Proof.
  intros H. unfold Writer.write.
  rewrite stream_state_eqb_neq by assumption. reflexivity.
Qed.

Lemma writer_exec_poisoned (c : Writer.call) (w : binary_stream_writer) :
  Writer.state w <> ok -> Writer.is_write c = true ->
  Writer.exec sink_rejects c w = w.
Proof.
  intros H Hc. destruct c; cbn [Writer.exec Writer.is_write] in *;
    try discriminate;
    unfold Writer.shl_le, Writer.shl_prefixed, Writer.write_container,
      Writer.shl_null_terminated_string, bind, asserting;
    try match goal with
        | |- context [Writer.no_terminator_in ?a] =>
            destruct (Writer.no_terminator_in a)
        end;
    rewrite ?write_poisoned by assumption; reflexivity.
Qed.

Lemma writer_run_poisoned (cs : list Writer.call) (w : binary_stream_writer) :
  Writer.state w <> ok -> forallb Writer.is_write cs = true ->
  Writer.run sink_rejects cs w = w.
Proof.
  intros H. induction cs as [|c cs IH]; intros Hcs; cbn in *; [reflexivity|].
  apply andb_prop in Hcs. destruct Hcs as [Hc Hcs].
  rewrite writer_exec_poisoned by assumption. auto.
Qed.

End PoisonedPmcStreams.

Lemma check_read_bounds_keeps_poison (ex : BinaryStream.except_tag) (n : Z)
  (s : BinaryStream.binary_stream) :
  BinaryStream.state_ s <> ok ->
  let res := BinaryStream.check_read_bounds ex n s in
  BinaryStream.state_ (fst res) <> ok
  /\ BinaryStream.buffer_ (fst res) = BinaryStream.buffer_ s
  /\ BinaryStream.total_write_ (fst res) = BinaryStream.total_write_ s.
Proof.
  intros H. unfold BinaryStream.check_read_bounds.
  destruct (n >? Buffer.size (BinaryStream.buffer_ s)).
  - destruct ex; cbn; repeat split; discriminate.
  - destruct (negb (BinaryStream.read_limit_ s =? 0)
              && (n >? size_sub (BinaryStream.read_limit_ s)
                                (BinaryStream.total_read_ s))).
    + destruct ex; cbn; repeat split; discriminate.
    + cbn. repeat split. assumption.
Qed.

(** C3, as amended.  Once the state of a pmc reader or writer is not
    [ok], every bounded read (the varint-prefixed extraction apart) and
    every write (a null-terminated insertion being handed characters
    with no terminator among them, as its assertion demands) is a no-op
    in both propagation modes: the call returns
    its default result (the untouched destination, a zero byte, or the
    cleared string of a terminator search that found nothing), the buffer
    and the counters stay as they are, whatever the number of such calls,
    until [clear_error_state] puts the state back to [ok].  For the
    non-throwing [binary_stream] a bounded read on a stream in an error
    state returns the default result, takes no byte from the buffer and
    stays in an error state.  The throwing [binary_stream] and the writes
    of [binary_stream] are not gated on the state. *)
Theorem poisoned_stream_calls_are_no_ops :
  (forall r : Pmc.binary_stream_reader, Pmc.Reader.state r <> ok ->
      (forall (A : Type) (n : Z) (ret_var : A)
              (rest : op Pmc.binary_stream_reader A),
          Pmc.Reader.STREAM_READ_BOUNDS_ENFORCE n ret_var rest r
          = (r, Returned ret_var))
      /\ (forall sizeof_T dest n,
             Pmc.Reader.get sizeof_T dest n r = (r, Returned dest))
      /\ (forall dest n, Pmc.Reader.get_string dest n r = (r, Returned dest))
      /\ (forall n, Pmc.Reader.skip n r = (r, Returned tt))
      /\ (forall width value,
             Pmc.Reader.shr_le width value r = (r, Returned value))
      /\ (forall data, Pmc.Reader.shr_pod data r = (r, Returned data))
      /\ Pmc.Reader.get_uint8 r = (r, Returned Byte.x00)
      /\ (forall dest,
             Pmc.Reader.shr_prefixed_string dest r = (r, Returned dest))
      /\ (forall dest,
             Pmc.Reader.shr_null_terminated_string dest r = (r, Returned dest)
             \/ Pmc.Reader.shr_null_terminated_string dest r = (r, Returned []))
      /\ (forall cs, forallb Pmc.Reader.is_read cs = true ->
                     Pmc.Reader.run cs r = r)
      /\ Pmc.Reader.state (Pmc.Reader.clear_error_state r) = ok)
  /\ (forall (sink_rejects : list byte -> list byte -> bool)
             (w : Pmc.binary_stream_writer),
         Pmc.Writer.state w <> ok ->
         (forall data,
             Pmc.Writer.write sink_rejects data w = (w, Returned tt))
         /\ (forall width value,
                Pmc.Writer.shl_le sink_rejects width value w = (w, Returned tt))
         /\ (forall s,
                Pmc.Writer.shl_prefixed sink_rejects s w = (w, Returned tt))
         /\ (forall s, ~ In Byte.x00 s ->
                Pmc.Writer.shl_null_terminated_string sink_rejects s w
                = (w, Returned tt)
                /\ Pmc.Writer.shl_null_terminated_string_view sink_rejects s w
                   = (w, Returned tt))
         /\ (forall cs, forallb Pmc.Writer.is_write cs = true ->
                        Forall Pmc.Writer.assertion_holds cs ->
                        Pmc.Writer.run sink_rejects cs w = w)
         /\ Pmc.Writer.state (Pmc.Writer.clear_error_state w) = ok)
  /\ (forall (s : BinaryStream.binary_stream), BinaryStream.state s <> ok ->
         forall (A : Type) (n : Z) (ret_var : A)
                (rest : op BinaryStream.binary_stream A),
           let res := BinaryStream.STREAM_READ_BOUNDS_CHECK
                        BinaryStream.no_throw n ret_var rest s in
           snd res = Returned ret_var
           /\ BinaryStream.buffer_ (fst res) = BinaryStream.buffer_ s
           /\ BinaryStream.total_write (fst res) = BinaryStream.total_write s
           /\ BinaryStream.state (fst res) <> ok).
Proof.
  split; [|split].
  - intros r H.
    assert (HM : forall (A : Type) (n : Z) (ret_var : A)
                        (rest : op Pmc.binary_stream_reader A),
               Pmc.Reader.STREAM_READ_BOUNDS_ENFORCE n ret_var rest r
               = (r, Returned ret_var))
      by (intros; apply bounds_enforce_poisoned; assumption).
    repeat split.
    + exact HM.
    + intros. apply HM.
    + intros. apply HM.
    + intros. apply HM.
    + intros. apply HM.
    + intros. apply HM.
    + apply HM.
    + intros dest. unfold Pmc.Reader.shr_prefixed_string, bind.
      unfold Pmc.Reader.shr_le, Pmc.Reader.SAFE_READ. rewrite HM.
      rewrite stream_state_eqb_neq by assumption. reflexivity.
    + intros dest. unfold Pmc.Reader.shr_null_terminated_string.
      destruct (Buffer.find_first_of (Pmc.rbuffer_ r) Byte.x00).
      * left. apply HM.
      * right. reflexivity.
    + intros cs Hcs. apply reader_run_poisoned; assumption.
  - intros rej w H.
    assert (HW : forall data,
               Pmc.Writer.write rej data w = (w, Returned tt))
      by (intros; apply write_poisoned; assumption).
    repeat split.
    + exact HW.
    + intros. apply HW.
    + intros s. unfold Pmc.Writer.shl_prefixed, Pmc.Writer.write_container, bind.
      rewrite HW. apply HW.
    + rewrite shl_null_terminated_string_asserted by assumption. apply HW.
    + rewrite shl_null_terminated_string_view_asserted by assumption.
      unfold bind. rewrite HW. apply HW.
    + intros cs Hcs _. apply writer_run_poisoned; assumption.
  - intros s H A n ret_var rest.
    unfold BinaryStream.STREAM_READ_BOUNDS_CHECK, bind.
    pose proof (check_read_bounds_keeps_poison BinaryStream.no_throw n s H)
      as (Hst & Hbuf & Htw).
    destruct (BinaryStream.check_read_bounds BinaryStream.no_throw n s)
      as [s1 o] eqn:E.
    assert (Ho : o = Returned tt).
    { unfold BinaryStream.check_read_bounds in E.
      repeat match type of E with
             | context [if ?c then _ else _] => destruct c
             end; inversion E; reflexivity. }
    subst o. cbn [fst snd] in *.
    rewrite (stream_state_eqb_neq _ _ Hst). cbn. auto.
Qed.

Lemma poisoned_stream_calls_are_no_ops_witness :
  Pmc.Reader.state poisoned_reader <> ok
  /\ Pmc.Reader.skip 1 poisoned_reader = (poisoned_reader, Returned tt)
  /\ Pmc.Reader.get_uint8 poisoned_reader = (poisoned_reader, Returned Byte.x00).
Proof.
  assert (H : Pmc.Reader.state poisoned_reader <> ok)
    by (vm_compute; discriminate).
  split; [exact H|].
  destruct (proj1 poisoned_stream_calls_are_no_ops poisoned_reader H)
    as (_ & _ & _ & Hskip & _ & _ & Hget & _).
  split; [apply Hskip | exact Hget].
Defined.

(** C3 as stated fails on [binary_stream] in throwing mode, where the
    macro does not look at the state: after the caller has caught the
    underrun of a three-byte read, a one-byte read delivers the first
    byte of the buffer, consumes it and counts it, with the state still
    [buff_limit_err]. *)
Lemma throwing_binary_stream_reads_after_error :
  BinaryStream.state caught_stream = buff_limit_err
  /\ BinaryStream.buffer_ caught_stream = two_bytes
  /\ BinaryStream.total_read caught_stream = 0
  /\ exists s',
       BinaryStream.get BinaryStream.allow_throw 1 [] 1 caught_stream
       = (s', Returned [Byte.x61])
       /\ BinaryStream.buffer_ s' = [Byte.x62]
       /\ BinaryStream.total_read s' = 1
       /\ BinaryStream.state s' = buff_limit_err.
Proof.
  repeat split. eexists. repeat split.
Qed.

(** In non-throwing mode the refused read of a [binary_stream] in an error
    state is still counted: [check_read_bounds] runs before the state is
    looked at. *)
Example failed_binary_stream_counts_refused_read :
  BinaryStream.state failed_stream = buff_limit_err
  /\ BinaryStream.get BinaryStream.no_throw 1 [] 1 failed_stream
     = (BinaryStream.set_total_read failed_stream 1, Returned []).
Proof. split; reflexivity. Qed.

(** The writes of [binary_stream] do not look at the state either. *)
Example failed_binary_stream_still_writes :
  BinaryStream.buffer_
    (fst (BinaryStream.put (fun _ _ => false) [Byte.x63] failed_stream))
  = two_bytes ++ [Byte.x63].
Proof. reflexivity. Qed.

(** ** Throwing and non-throwing streams side by side *)

Section ModesOfPmcStreams.

Import Pmc.

Lemma reader_exec_in_mode (c : Reader.call) (r : binary_stream_reader)
  (throwing : bool) :
  Reader.exec c (Reader.in_mode r throwing)
  = Reader.in_mode (Reader.exec c r) throwing.
Proof.
  destruct r as [[st thr] buf tr lim].
  destruct c as [[sz n|n|n|k]|width|sizeof| | | | |];
    cbn [Reader.exec Reader.exec_bounded];
    unfold Reader.get, Reader.get_string, Reader.skip, Reader.shr_le,
      Reader.shr_pod, Reader.get_uint8, Reader.shr_prefixed_string,
      Reader.shr_null_terminated_string, Reader.shr_le, Reader.SAFE_READ,
      Reader.STREAM_READ_BOUNDS_ENFORCE, Reader.enforce_read_bounds, bind, ret,
      Reader.buffer_read, Reader.buffer_skip, Reader.in_mode,
      Reader.clear_error_state, Reader.set_error_state, Reader.set_state,
      Reader.set_total_read, Reader.set_buffer, Reader.state,
      Reader.allow_throw, Buffer.read;
    cbn [rbase rbuffer_ total_read_ read_limit_ state_ allow_throw_ fst snd];
    destruct st; cbn [stream_state_eqb negb andb];
    try reflexivity;
    destruct thr, throwing;
    split_conditions;
    cbn [rbase rbuffer_ total_read_ read_limit_ state_ allow_throw_ fst snd
         stream_state_eqb negb andb] in *;
    try reflexivity; try congruence.
Qed.

Lemma reader_run_in_mode (cs : list Reader.call) (throwing : bool) :
  forall r : binary_stream_reader,
    Reader.run cs (Reader.in_mode r throwing)
    = Reader.in_mode (Reader.run cs r) throwing.
Proof.
  induction cs as [|c cs IH]; intros r; cbn [Reader.run]; [reflexivity|].
  rewrite reader_exec_in_mode. apply IH.
Qed.

Variable sink_rejects : list byte -> list byte -> bool.

Lemma writer_exec_in_mode (c : Writer.call) (w : binary_stream_writer)
  (throwing : bool) :
  Writer.exec sink_rejects c (Writer.in_mode w throwing)
  = Writer.in_mode (Writer.exec sink_rejects c w) throwing.
Proof.
  destruct w as [[st thr] buf tw].
  destruct c; cbn [Writer.exec];
    unfold Writer.shl_le, Writer.shl_prefixed, Writer.write_container,
      Writer.shl_null_terminated_string, Writer.write, bind, asserting,
      Writer.in_mode,
      Writer.clear_error_state, Writer.set_error_state, Writer.set_state,
      Writer.state, Writer.allow_throw, Buffer.write;
    cbn [wbase wbuffer_ total_write_ state_ allow_throw_ fst snd];
    destruct st; cbn [stream_state_eqb negb andb];
    try reflexivity;
    destruct thr, throwing;
    split_conditions;
    cbn [wbase wbuffer_ total_write_ state_ allow_throw_ fst snd
         stream_state_eqb negb andb] in *;
    try reflexivity; try congruence.
Qed.

Lemma writer_run_in_mode (cs : list Writer.call) (throwing : bool) :
  forall w : binary_stream_writer,
    Writer.run sink_rejects cs (Writer.in_mode w throwing)
    = Writer.in_mode (Writer.run sink_rejects cs w) throwing.
Proof.
  induction cs as [|c cs IH]; intros w; cbn [Writer.run]; [reflexivity|].
  rewrite writer_exec_in_mode. apply IH.
Qed.

End ModesOfPmcStreams.

Section ModesOfBinaryStream.

Import BinaryStream.

Variable sink_rejects : list byte -> list byte -> bool.

(** The two instantiations of the template do the same to a stream whose
    state is [ok]. *)
Lemma exec_from_ok (c : call) (s : binary_stream) :
  state_ s = ok ->
  exec allow_throw sink_rejects c s = exec no_throw sink_rejects c s.
Proof.
  intros Hs. destruct s as [buf tw tr st lim]. cbn in Hs. subst st.
  destruct c as [[sz n|n|n|k]| | | | |];
    cbn [exec exec_bounded]; try reflexivity;
    unfold get, get_string, skip, shr_pod, STREAM_READ_BOUNDS_CHECK,
      check_read_bounds, bind, buffer_read, buffer_skip, set_state,
      set_total_read, set_buffer, Buffer.read;
    cbn [buffer_ total_write_ total_read_ state_ read_limit_ fst snd];
    split_conditions;
    cbn [buffer_ total_write_ total_read_ state_ read_limit_ fst snd
         stream_state_eqb negb andb] in *;
    try reflexivity; try congruence.
Qed.

(** What a bounded read leaves behind, told from its bounds check. *)
Lemma exec_bounded_unfold (ex : except_tag) (b : bounded_read)
  (s : binary_stream) :
  exec_bounded ex b s
  = let s1 := fst (check_read_bounds ex (requested b) s) in
    let taken := set_buffer s1 (Buffer.skip (buffer_ s1) (requested b)) in
    match snd (check_read_bounds ex (requested b) s) with
    | Returned _ =>
        match ex with
        | no_throw =>
            if negb (stream_state_eqb (state_ s1) ok) then s1 else taken
        | allow_throw => taken
        end
    | _ => s1
    end.
Proof.
  destruct b as [sz n | n | n | k]; cbn [exec_bounded requested];
    unfold get, get_string, skip, shr_pod, STREAM_READ_BOUNDS_CHECK, bind;
    rewrite ?len_repeat;
    match goal with
    | |- context [check_read_bounds ex ?n s] =>
        destruct (check_read_bounds ex n s) as [s1 [[] | e | |]]
    end;
    cbn [fst snd]; try reflexivity;
    destruct ex; try reflexivity;
    destruct (negb (stream_state_eqb (state_ s1) ok)); reflexivity.
Qed.

Lemma exec_bounded_agrees (b : bounded_read) (s : binary_stream) :
  read_agrees b s ->
  exec_bounded allow_throw b s = exec_bounded no_throw b s.
Proof.
  intros [Hok | [Href | Hzero]].
  - apply (exec_from_ok (Bounded b) s Hok).
  - rewrite !exec_bounded_unfold. cbv zeta.
    destruct (Z_gt_le_dec (requested b) (size s)) as [Hu | Hfit].
    + rewrite !check_read_bounds_underrun by exact Hu. reflexivity.
    + destruct Href as [Hu | [HL Hx]]; [unfold size in Hfit; lia|].
      rewrite !check_read_bounds_limit by assumption. reflexivity.
  - rewrite !exec_bounded_unfold. cbv zeta. rewrite Hzero.
    assert (Hfit : 0 <= size s) by apply len_nonneg.
    assert (Hlim : read_limit_ s = 0
                   \/ 0 <= size_sub (read_limit_ s) (total_read_ s)).
    { right. unfold size_sub. pose proof (wrap_range (read_limit_ s - total_read_ s)) as H.
      unfold is_size_t in H. lia. }
    rewrite !check_read_bounds_pass by assumption.
    destruct s as [buf tw tr st lim]. cbn.
    destruct (negb (stream_state_eqb st ok)); reflexivity.
Qed.

(** The condition is the weakest for one read: a read of at least one
    byte that the policy lets through on a stream in an error state takes
    its bytes in throwing mode and none in non-throwing mode. *)
Lemma exec_bounded_agreement (b : bounded_read) (s : binary_stream) :
  0 <= requested b ->
  exec_bounded allow_throw b s = exec_bounded no_throw b s ->
  read_agrees b s.
Proof.
  intros Hn H. unfold read_agrees, refuses.
  destruct (stream_state_eqb (state_ s) ok) eqn:Hst;
    [left; apply stream_state_eqb_eq; exact Hst|].
  right.
  destruct (Z_gt_le_dec (requested b) (size s)) as [Hu | Hfit];
    [left; left; exact Hu|].
  destruct (Z.eq_dec (requested b) 0) as [Hz | Hnz]; [right; exact Hz|].
  left. right.
  destruct (Z.eq_dec (read_limit_ s) 0) as [HL | HL].
  - exfalso.
    rewrite !exec_bounded_unfold in H. cbv zeta in H.
    rewrite !check_read_bounds_pass in H by (assumption || (left; exact HL)).
    cbn [fst snd set_total_read state_ buffer_] in H. rewrite Hst in H.
    cbn [negb] in H. apply (f_equal buffer_) in H.
    cbn [buffer_ set_buffer set_total_read] in H.
    apply (f_equal len) in H. unfold Buffer.skip in H.
    unfold size, Buffer.size in Hfit.
    rewrite len_skipn in H by lia. lia.
  - split; [exact HL|].
    destruct (Z_gt_le_dec (requested b)
                (size_sub (read_limit_ s) (total_read_ s))) as [Hx | Hin];
      [exact Hx|].
    exfalso.
    rewrite !exec_bounded_unfold in H. cbv zeta in H.
    rewrite !check_read_bounds_pass in H by (assumption || (right; exact Hin)).
    cbn [fst snd set_total_read state_ buffer_] in H. rewrite Hst in H.
    cbn [negb] in H. apply (f_equal buffer_) in H.
    cbn [buffer_ set_buffer set_total_read] in H.
    apply (f_equal len) in H. unfold Buffer.skip in H.
    unfold size, Buffer.size in Hfit.
    rewrite len_skipn in H by lia. lia.
Qed.

Lemma exec_agrees (c : call) (s : binary_stream) :
  match c with
  | Bounded b => read_agrees b s
  | _ => True
  end ->
  exec allow_throw sink_rejects c s = exec no_throw sink_rejects c s.
Proof.
  destruct c as [b | | | | |]; intros H; try reflexivity.
  cbn [exec]. apply exec_bounded_agrees. exact H.
Qed.

Lemma run_agrees (cs : list call) :
  forall s : binary_stream,
    reads_agree no_throw sink_rejects cs s ->
    run allow_throw sink_rejects cs s = run no_throw sink_rejects cs s.
Proof.
  induction cs as [|c cs IH]; intros s H; cbn [run reads_agree] in *.
  - reflexivity.
  - destruct H as [Hc H]. rewrite (exec_agrees c s Hc). apply IH, H.
Qed.

End ModesOfBinaryStream.

(** C4, as amended.  On the pmc reader and the pmc writer, running a
    sequence of calls in throwing mode (the caller catching each error and
    going on) and running it in non-throwing mode end in the same
    [state()], with the same buffer contents, hence the same number of
    bytes consumed or produced, and the same counter.  The calls are, on
    the reader, [get], [skip], the extraction of an integer, a POD, one
    byte, a length-prefixed string and a null-terminated string, and on
    the writer [write], the insertion of an integer, of a length-prefixed
    and of a null-terminated string (handed characters without a
    terminator, as its assertion demands), each with [clear_error_state]
    and [set_error_state]; the varint-prefixed extraction is not among
    them.  On [binary_stream] the two modes end in the same stream for
    every sequence of bounded reads, string extractions, string and [put]
    writes and error-state calls in which each bounded read starts on a
    stream whose state is [ok], or is refused by the bounds policy, or
    asks for no byte; for one bounded read this condition is also
    necessary: a read of at least one byte that the policy lets through
    on a stream in an error state takes its bytes in throwing mode and
    none in non-throwing mode. *)
Theorem propagation_modes_agree :
  (forall (buf : list byte) (L : Z) (cs : list Pmc.Reader.call),
      let thrown := Pmc.Reader.run cs (Pmc.Reader.make buf true L) in
      let silent := Pmc.Reader.run cs (Pmc.Reader.make buf false L) in
      Pmc.Reader.state thrown = Pmc.Reader.state silent
      /\ Pmc.rbuffer_ thrown = Pmc.rbuffer_ silent
      /\ len buf - len (Pmc.rbuffer_ thrown) = len buf - len (Pmc.rbuffer_ silent)
      /\ Pmc.Reader.total_read thrown = Pmc.Reader.total_read silent)
  /\ (forall (sink_rejects : list byte -> list byte -> bool)
             (buf : list byte) (cs : list Pmc.Writer.call),
         Forall Pmc.Writer.assertion_holds cs ->
         let thrown := Pmc.Writer.run sink_rejects cs (Pmc.Writer.make buf true) in
         let silent := Pmc.Writer.run sink_rejects cs (Pmc.Writer.make buf false) in
         Pmc.Writer.state thrown = Pmc.Writer.state silent
         /\ Pmc.wbuffer_ thrown = Pmc.wbuffer_ silent
         /\ Pmc.Writer.total_write thrown = Pmc.Writer.total_write silent)
  /\ (forall (sink_rejects : list byte -> list byte -> bool)
             (cs : list BinaryStream.call) (s : BinaryStream.binary_stream),
         BinaryStream.reads_agree BinaryStream.no_throw sink_rejects cs s ->
         BinaryStream.run BinaryStream.allow_throw sink_rejects cs s
         = BinaryStream.run BinaryStream.no_throw sink_rejects cs s)
  /\ (forall (b : bounded_read) (s : BinaryStream.binary_stream),
         0 <= requested b ->
         (BinaryStream.exec_bounded BinaryStream.allow_throw b s
          = BinaryStream.exec_bounded BinaryStream.no_throw b s
          <-> BinaryStream.read_agrees b s)).
Proof.
  split; [|split; [|split]].
  - intros buf L cs.
    pose proof (reader_run_in_mode cs true (Pmc.Reader.make buf false L)) as H.
    change (Pmc.Reader.in_mode (Pmc.Reader.make buf false L) true)
      with (Pmc.Reader.make buf true L) in H.
    cbv zeta. rewrite H. repeat split.
  - intros rej buf cs _.
    pose proof (writer_run_in_mode rej cs true (Pmc.Writer.make buf false)) as H.
    change (Pmc.Writer.in_mode (Pmc.Writer.make buf false) true)
      with (Pmc.Writer.make buf true) in H.
    cbv zeta. rewrite H. repeat split.
  - intros rej cs s H. apply run_agrees. exact H.
  - intros b s Hn. split.
    + apply exec_bounded_agreement. exact Hn.
    + apply (exec_bounded_agrees accepting_sink).
Qed.

Lemma propagation_modes_agree_witness :
  BinaryStream.run BinaryStream.allow_throw accepting_sink
    refused_twice_then_read (BinaryStream.make two_bytes 0)
  = BinaryStream.run BinaryStream.no_throw accepting_sink
      refused_twice_then_read (BinaryStream.make two_bytes 0).
Proof.
  apply (proj1 (proj2 (proj2 propagation_modes_agree))).
  unfold refused_twice_then_read. cbn [BinaryStream.reads_agree].
  split; [left; reflexivity|].
  split; [right; left; left; vm_compute; reflexivity|].
  split; [exact I|].
  split; [left; reflexivity | exact I].
Defined.

(** C4 as stated fails on [binary_stream]: after a three-byte read of a
    two-byte buffer has failed, a one-byte read consumes a byte in
    throwing mode and none in non-throwing mode. *)
Lemma binary_stream_modes_consume_differently :
  BinaryStream.state
    (BinaryStream.run BinaryStream.allow_throw accepting_sink
       read_after_underrun (BinaryStream.make two_bytes 0))
  = BinaryStream.state
      (BinaryStream.run BinaryStream.no_throw accepting_sink
         read_after_underrun (BinaryStream.make two_bytes 0))
  /\ len two_bytes
     - len (BinaryStream.buffer_
              (BinaryStream.run BinaryStream.allow_throw accepting_sink
                 read_after_underrun (BinaryStream.make two_bytes 0))) = 1
  /\ len two_bytes
     - len (BinaryStream.buffer_
              (BinaryStream.run BinaryStream.no_throw accepting_sink
                 read_after_underrun (BinaryStream.make two_bytes 0))) = 0.
Proof. repeat split. Qed.

(** ** Strings with a fixed-length prefix *)

Lemma firstn_length_app (a b : list byte) : firstn (length a) (a ++ b) = a.
Proof. induction a as [|x a IH]; cbn; [reflexivity | now rewrite IH]. Qed.

Lemma skipn_length_app (a b : list byte) : skipn (length a) (a ++ b) = b.
Proof. induction a as [|x a IH]; cbn; [reflexivity | exact IH]. Qed.

Lemma le_combine_le_split_4 (n : Z) :
  0 <= n < 2 ^ 32 -> le_combine (le_split 4 n) = n.
Proof.
  intros H. rewrite le_combine_split.
  change (Z.of_nat 4 * 8) with 32. apply Z.mod_small. exact H.
Qed.

(** The cast to 32 bits keeps the four low-order bytes. *)
Lemma le_split_4_to_uint32 (n : Z) : le_split 4 (to_uint32 n) = le_split 4 n.
Proof.
  apply le_combine_inj.
  - rewrite !length_le_split. reflexivity.
  - rewrite !le_combine_split. unfold to_uint32.
    change (Z.of_nat 4 * 8) with 32. apply Z.mod_mod. lia.
Qed.

Section PrefixedStrings.

Import Pmc.

(** Writing: the prefix, then the payload. *)
Lemma shl_prefixed_accepted (rej : list byte -> list byte -> bool)
  (s : list byte) (w : binary_stream_writer) :
  (forall b d, rej b d = false) -> Writer.state w = ok ->
  Writer.shl_prefixed rej s w
  = ({| wbase := wbase w;
        wbuffer_ := (wbuffer_ w ++ le_split 4 (to_uint32 (len s))) ++ s;
        total_write_ := size_add (size_add (total_write_ w) 4) (len s) |},
     Returned tt).
Proof.
  intros Hrej Hs.
  unfold Writer.shl_prefixed, Writer.write_container, Writer.write, bind,
    Buffer.write, Writer.state in *.
  rewrite Hs. cbn [stream_state_eqb]. rewrite Hrej.
  cbn [wbase wbuffer_ total_write_]. rewrite Hs. cbn [stream_state_eqb].
  rewrite Hrej. reflexivity.
Qed.

(** Reading: a count of [n] in front of at least [n] bytes hands out the
    first [n] of them. *)
Lemma shr_prefixed_string_reads (throwing : bool) (L n : Z)
  (payload dest : list byte) :
  is_size_t L -> 0 <= n < 2 ^ 32 -> n <= len payload ->
  is_size_t (4 + len payload) ->
  L = 0 \/ 4 + n <= L ->
  Reader.shr_prefixed_string dest
    (Reader.make (le_split 4 n ++ payload) throwing L)
  = ({| rbase := {| state_ := ok; allow_throw_ := throwing |};
        rbuffer_ := skipn (Z.to_nat n) payload;
        total_read_ := 4 + n;
        read_limit_ := L |},
     Returned (firstn (Z.to_nat n) payload)).
Proof.
  intros HL Hn Hlen Hsz Hlim. unfold is_size_t in *.
  assert (H232 : 2 ^ 32 < size_t_modulus) by reflexivity.
  unfold Reader.shr_prefixed_string, Reader.shr_le, Reader.SAFE_READ.
  unfold bind at 1.
  rewrite bounds_enforce_pass.
  - unfold bind at 1. unfold Reader.buffer_read at 1, Buffer.read.
    cbn [Reader.make Reader.set_total_read rbuffer_ rbase total_read_
         read_limit_].
    change (Z.to_nat (Z.of_nat 4)) with (length (le_split 4 n)).
    rewrite firstn_length_app, skipn_length_app.
    unfold ret. cbn [Reader.set_buffer rbase rbuffer_ total_read_ read_limit_
                     Reader.state state_ stream_state_eqb negb].
    rewrite le_combine_le_split_4 by assumption.
    rewrite bounds_enforce_pass.
    + unfold Reader.buffer_read, Buffer.read.
      cbn [Reader.set_total_read Reader.set_buffer rbase rbuffer_ total_read_
           read_limit_].
      change (size_add 0 (Z.of_nat 4)) with 4.
      rewrite (size_add_small 4 n) by (unfold is_size_t; lia).
      reflexivity.
    + reflexivity.
    + unfold Reader.size, Buffer.size. cbn [rbuffer_ Reader.set_buffer]. lia.
    + cbn [read_limit_ total_read_ Reader.set_buffer Reader.set_total_read
           Reader.make].
      destruct Hlim as [Hlim | Hlim]; [left; exact Hlim | right].
      change (size_add 0 (Z.of_nat 4)) with 4.
      rewrite size_sub_small by (unfold is_size_t; lia). lia.
  - reflexivity.
  - unfold Reader.size, Buffer.size. cbn [Reader.make rbuffer_].
    rewrite len_app. unfold len at 1. rewrite length_le_split.
    pose proof (len_nonneg payload). lia.
  - cbn [Reader.make read_limit_ total_read_].
    destruct Hlim as [Hlim | Hlim]; [left; exact Hlim | right].
    rewrite size_sub_small by (unfold is_size_t; lia). lia.
Qed.

End PrefixedStrings.

(** ** Segmented buffers *)

Lemma firstn_skipn_middle (st data : list byte) (ro wo : nat) :
  (ro <= wo)%nat -> (wo + length data <= length st)%nat ->
  firstn (wo + length data - ro)
    (skipn ro (firstn wo st ++ data ++ skipn (wo + length data) st))
  = firstn (wo - ro) (skipn ro st) ++ data.
Proof.
  intros Hro Hwo.
  assert (Hlen : length (firstn wo st) = wo)
    by (rewrite length_firstn; lia).
  rewrite skipn_app, Hlen.
  replace (ro - wo)%nat with 0%nat by lia. cbn [skipn].
  rewrite firstn_app, length_skipn, Hlen.
  replace (wo + length data - ro - (wo - ro))%nat with (length data) by lia.
  rewrite firstn_app, Nat.sub_diag. cbn [firstn]. rewrite app_nil_r.
  rewrite firstn_all.
  rewrite (firstn_all2 (n := (wo + length data - ro)%nat));
    [|rewrite length_skipn, Hlen; lia].
  f_equal. rewrite firstn_skipn_comm. f_equal. f_equal. lia.
Qed.

Section SegmentedFacts.

Variable N : Z.
Hypothesis N_size_t : is_size_t N.

Lemma len_readable (b : Storage.intrusive_storage) :
  Segmented.block_ok N b -> len (Segmented.readable b) = Storage.size b.
Proof.
  intros [Hb Hst]. rewrite (size_of_block N N_size_t b Hb).
  unfold Segmented.readable, Storage.slice.
  rewrite (size_of_block N N_size_t b Hb).
  destruct Hb as (H0 & H1 & H2). unfold Storage.storage_ok, len in *.
  rewrite length_firstn, length_skipn. lia.
Qed.

(** What a write does to the bytes of a block. *)
Lemma block_write (b : Storage.intrusive_storage) (source : list byte) :
  Segmented.block_ok N b ->
  let k := Z.min (N - Storage.write_offset b) (len source) in
  snd (Storage.write N b source) = k
  /\ Segmented.block_ok N (fst (Storage.write N b source))
  /\ Storage.read_offset (fst (Storage.write N b source)) = Storage.read_offset b
  /\ Storage.write_offset (fst (Storage.write N b source))
     = Storage.write_offset b + k
  /\ Segmented.readable (fst (Storage.write N b source))
     = Segmented.readable b ++ firstn (Z.to_nat k) source.
Proof.
  intros [Hb Hst] k. pose proof (len_nonneg source) as Hsrc.
  pose proof (write_keeps_inv N N_size_t b source Hb) as Hinv.
  pose proof (free_of_block N N_size_t b Hb) as Hfree. unfold Storage.free in Hfree.
  pose proof (size_of_block N N_size_t b Hb) as Hsize.
  destruct Hb as (H0 & H1 & H2). unfold is_size_t in N_size_t.
  assert (Hk : (if N - Storage.write_offset b >? len source
                then len source else N - Storage.write_offset b) = k)
    by (unfold k; destruct (N - Storage.write_offset b >? len source) eqn:E; lia).
  assert (Hlenk : length (firstn (Z.to_nat k) source) = Z.to_nat k)
    by (rewrite length_firstn; unfold len in *; lia).
  assert (Hw : Storage.write N b source
               = ({| Storage.read_offset := Storage.read_offset b;
                     Storage.write_offset := Storage.write_offset b + k;
                     Storage.storage :=
                       Storage.memcpy (Storage.storage b) (Storage.write_offset b)
                         (firstn (Z.to_nat k) source) |}, k)).
  { unfold Storage.write. rewrite Hfree, Hk.
    rewrite size_add_small by (unfold is_size_t; lia). reflexivity. }
  rewrite Hw in *. cbn [fst snd] in *.
  assert (Hst' : Storage.storage_ok N
                   {| Storage.read_offset := Storage.read_offset b;
                      Storage.write_offset := Storage.write_offset b + k;
                      Storage.storage :=
                        Storage.memcpy (Storage.storage b)
                          (Storage.write_offset b)
                          (firstn (Z.to_nat k) source) |}).
  { unfold Storage.storage_ok, Storage.memcpy, len in *.
    cbn [Storage.storage]. rewrite !length_app, length_firstn, length_skipn, Hlenk.
    lia. }
  repeat split; try assumption; try apply Hinv.
  unfold Segmented.readable, Storage.slice, Storage.size.
  cbn [Storage.storage Storage.read_offset Storage.write_offset].
  rewrite !size_sub_small by (unfold is_size_t; lia).
  unfold Storage.memcpy. rewrite Hlenk.
  replace (Z.to_nat (Storage.write_offset b + k - Storage.read_offset b))
    with (Z.to_nat (Storage.write_offset b)
          + length (firstn (Z.to_nat k) source)
          - Z.to_nat (Storage.read_offset b))%nat by lia.
  replace (Z.to_nat (Storage.write_offset b) + Z.to_nat k)%nat
    with (Z.to_nat (Storage.write_offset b)
          + length (firstn (Z.to_nat k) source))%nat by lia.
  rewrite firstn_skipn_middle.
  - f_equal. f_equal. lia.
  - lia.
  - unfold Storage.storage_ok, len in Hst. lia.
Qed.

(** What a read of at most the readable bytes does to a block. *)
Lemma block_read_within (b : Storage.intrusive_storage) (n : Z) :
  Segmented.block_ok N b -> 0 <= n <= Storage.size b ->
  Storage.read N b n false
  = ({| Storage.read_offset := Storage.read_offset b + n;
        Storage.write_offset := Storage.write_offset b;
        Storage.storage := Storage.storage b |},
     (firstn (Z.to_nat n) (Segmented.readable b), n))
  /\ Segmented.readable
       {| Storage.read_offset := Storage.read_offset b + n;
          Storage.write_offset := Storage.write_offset b;
          Storage.storage := Storage.storage b |}
     = skipn (Z.to_nat n) (Segmented.readable b).
Proof.
  intros [Hb Hst] Hn. pose proof (size_of_block N N_size_t b Hb) as Hsize.
  rewrite Hsize in Hn.
  destruct Hb as (H0 & H1 & H2). unfold is_size_t in N_size_t.
  split.
  - unfold Storage.read, Storage.copy.
    rewrite (size_sub_small N) by (unfold is_size_t; lia).
    replace (if N - Storage.read_offset b >? n then n
             else N - Storage.read_offset b) with n
      by (destruct (N - Storage.read_offset b >? n) eqn:E; lia).
    rewrite size_add_small by (unfold is_size_t; lia).
    rewrite andb_false_r. f_equal. f_equal.
    unfold Segmented.readable, Storage.slice. rewrite Hsize.
    rewrite firstn_firstn. f_equal. lia.
  - unfold Segmented.readable, Storage.slice, Storage.size.
    cbn [Storage.storage Storage.read_offset Storage.write_offset].
    rewrite !size_sub_small by (unfold is_size_t; lia).
    rewrite skipn_firstn_comm, skipn_skipn. f_equal; [lia|]. f_equal. lia.
Qed.

(** A read of at least the readable bytes drains a full block. *)
Lemma block_read_drain (b : Storage.intrusive_storage) (n : Z) :
  Segmented.block_ok N b -> Storage.write_offset b = N -> Storage.size b <= n ->
  Storage.read N b n false
  = ({| Storage.read_offset := N;
        Storage.write_offset := N;
        Storage.storage := Storage.storage b |},
     (Segmented.readable b, Storage.size b)).
Proof.
  intros [Hb Hst] Hfull Hn. pose proof (size_of_block N N_size_t b Hb) as Hsize.
  rewrite Hsize in *.
  destruct Hb as (H0 & H1 & H2). unfold is_size_t in N_size_t.
  unfold Storage.read, Storage.copy.
  rewrite (size_sub_small N) by (unfold is_size_t; lia).
  replace (if N - Storage.read_offset b >? n then n
           else N - Storage.read_offset b) with (N - Storage.read_offset b)
    by (destruct (N - Storage.read_offset b >? n) eqn:E; lia).
  rewrite size_add_small by (unfold is_size_t; lia).
  rewrite andb_false_r. rewrite Hfull. f_equal; [f_equal; lia|].
  unfold Segmented.readable, Storage.slice. rewrite Hsize, Hfull. reflexivity.
Qed.

End SegmentedFacts.

Lemma contents_cons (b : Storage.intrusive_storage)
  (rest : list Storage.intrusive_storage) :
  Segmented.contents (b :: rest)
  = Segmented.readable b ++ Segmented.contents rest.
Proof. reflexivity. Qed.

Section ChainFacts.

Variable N : Z.
Hypothesis N_size_t : is_size_t N.
Hypothesis N_pos : 0 < N.

Lemma allocate_ok : Segmented.block_ok N (Segmented.allocate N).
Proof.
  unfold Segmented.block_ok, Storage.block_inv, Storage.storage_ok, Segmented.allocate.
  cbn. rewrite len_repeat. unfold is_size_t in *. lia.
Qed.

Lemma readable_allocate : Segmented.readable (Segmented.allocate N) = [].
Proof. reflexivity. Qed.

Lemma chain_ok_cons (b : Storage.intrusive_storage)
  (rest : list Storage.intrusive_storage) :
  Segmented.block_ok N b -> (rest <> [] -> Storage.write_offset b = N) ->
  Segmented.chain_ok N rest -> Segmented.chain_ok N (b :: rest).
Proof.
  intros Hb Hfull [Hall Hrest]. split.
  - constructor; assumption.
  - destruct rest as [|c rest]; [exact I|].
    split; [apply Hfull; discriminate | exact Hrest].
Qed.

Lemma chain_ok_tail (b : Storage.intrusive_storage)
  (rest : list Storage.intrusive_storage) :
  Segmented.chain_ok N (b :: rest) ->
  Segmented.block_ok N b /\ (rest <> [] -> Storage.write_offset b = N)
  /\ Segmented.chain_ok N rest.
Proof.
  intros [Hall Hfull]. inversion Hall as [|? ? Hb Hrest]; subst.
  split; [exact Hb|]. destruct rest as [|c rest].
  - split; [intros H; contradiction|]. split; [constructor | exact I].
  - destruct Hfull as [Hf Hrest']. split; [intros _; exact Hf|].
    split; assumption.
Qed.

(** New blocks hold exactly the bytes they were allocated for. *)
Lemma append_blocks_holds (fuel : nat) :
  forall source : list byte,
    (length source <= fuel)%nat ->
    Segmented.contents (Segmented.append_blocks N fuel source) = source
    /\ Segmented.chain_ok N (Segmented.append_blocks N fuel source)
    /\ (source = [] -> Segmented.append_blocks N fuel source = []).
Proof.
  induction fuel as [|fuel IH]; intros source Hfuel.
  - destruct source; [|cbn in Hfuel; lia].
    cbn. split; [|split]; [reflexivity | split; constructor | reflexivity].
  - destruct source as [|x source'].
    + cbn. split; [|split]; [reflexivity | split; constructor | reflexivity].
    + remember (x :: source') as source eqn:Esrc.
      assert (Hne : source <> []) by (subst; discriminate).
      assert (Hstep : Segmented.append_blocks N (S fuel) source
                      = let '(b, written) :=
                          Storage.write N (Segmented.allocate N) source in
                        b :: Segmented.append_blocks N fuel
                               (skipn (Z.to_nat written) source))
        by (subst; reflexivity).
      rewrite Hstep. clear Hstep Esrc x source'.
      destruct (block_write N N_size_t (Segmented.allocate N) source allocate_ok)
        as (Hk & Hok & Hro & Hwo & Hread).
      destruct (Storage.write N (Segmented.allocate N) source) as [b k] eqn:Ew.
      cbn [fst snd] in *. cbn [Storage.write_offset Segmented.allocate] in Hk, Hwo.
      rewrite Z.sub_0_r in Hk. rewrite Z.sub_0_r, Z.add_0_l in Hwo.
      assert (Hsrc : 0 < len source).
      { unfold len. destruct source; [contradiction|]. cbn [length]. lia. }
      assert (Hkpos : 0 < k <= len source) by lia.
      destruct (IH (skipn (Z.to_nat k) source)) as (Hc & Hchain & Hnil).
      { rewrite length_skipn. unfold len in *. lia. }
      split; [|split].
      * rewrite contents_cons, Hc, Hread, readable_allocate. cbn [app].
        rewrite Z.sub_0_r. rewrite Hk. apply firstn_skipn.
      * apply chain_ok_cons; [exact Hok | | exact Hchain].
        intros Hrest. rewrite Hwo, <- Hk.
        destruct (Z.eq_dec k N) as [E | E]; [exact E|]. exfalso.
        apply Hrest. apply Hnil. apply skipn_all2. unfold len in *. lia.
      * intros E. contradiction.
Qed.

(** Writing appends to the byte queue the chain stands for. *)
Lemma segmented_write_appends (blocks : list Storage.intrusive_storage)
  (source : list byte) :
  Segmented.chain_ok N blocks ->
  Segmented.contents (Segmented.write N blocks source)
  = Segmented.contents blocks ++ source
  /\ Segmented.chain_ok N (Segmented.write N blocks source).
Proof.
  induction blocks as [|b rest IH]; intros Hok.
  - cbn [Segmented.write Segmented.contents flat_map app].
    destruct (append_blocks_holds (length source) source (le_n _)) as (H1 & H2 & _).
    split; assumption.
  - destruct (chain_ok_tail b rest Hok) as (Hb & Hfull & Hrest).
    destruct rest as [|c rest].
    + cbn [Segmented.write].
      destruct (block_write N N_size_t b source Hb)
        as (Hk & Hok' & Hro & Hwo & Hread).
      destruct (Storage.write N b source) as [b' k] eqn:Ew.
      cbn [fst snd] in *.
      pose proof (len_nonneg source) as Hsrc.
      destruct Hb as [(H0 & H1 & H2) Hst].
      destruct (append_blocks_holds
                  (length (skipn (Z.to_nat k) source))
                  (skipn (Z.to_nat k) source) (le_n _)) as (Hc & Hchain & Hnil).
      split.
      * rewrite !contents_cons, Hc, Hread, <- Hk. cbn [Segmented.contents flat_map].
        rewrite app_nil_r, <- app_assoc, firstn_skipn. reflexivity.
      * apply chain_ok_cons; [exact Hok' | | exact Hchain].
        intros Hne. rewrite Hwo, <- Hk.
        destruct (Z.eq_dec k (N - Storage.write_offset b)) as [E | E]; [lia|].
        exfalso. apply Hne. apply Hnil. apply skipn_all2. unfold len in *. lia.
    + assert (Hw : Segmented.write N (b :: c :: rest) source
                   = b :: Segmented.write N (c :: rest) source) by reflexivity.
      rewrite Hw. destruct (IH Hrest) as [Hc Hchain]. split.
      * rewrite (contents_cons b), Hc, (contents_cons b), app_assoc.
        reflexivity.
      * apply chain_ok_cons; [exact Hb | | exact Hchain].
        intros _. apply Hfull. discriminate.
Qed.

Lemma segmented_size (blocks : list Storage.intrusive_storage) :
  Segmented.chain_ok N blocks ->
  Segmented.size blocks = len (Segmented.contents blocks).
Proof.
  induction blocks as [|b rest IH]; intros Hok; [reflexivity|].
  destruct (chain_ok_tail b rest Hok) as (Hb & _ & Hrest).
  rewrite contents_cons, len_app, (len_readable N N_size_t b Hb).
  cbn [Segmented.size fold_right]. fold (Segmented.size rest).
  rewrite (IH Hrest). reflexivity.
Qed.

(** Reading takes from the front of the byte queue, across blocks. *)
Lemma segmented_read_takes (blocks : list Storage.intrusive_storage) :
  forall n : Z,
    Segmented.chain_ok N blocks -> 0 <= n <= Segmented.size blocks ->
    fst (Segmented.read N blocks n)
    = firstn (Z.to_nat n) (Segmented.contents blocks)
    /\ Segmented.contents (snd (Segmented.read N blocks n))
       = skipn (Z.to_nat n) (Segmented.contents blocks)
    /\ Segmented.chain_ok N (snd (Segmented.read N blocks n)).
Proof.
  induction blocks as [|b rest IH]; intros n Hok Hn.
  - cbn in *. rewrite firstn_nil, skipn_nil.
    split; [reflexivity | split; [reflexivity | exact Hok]].
  - destruct (chain_ok_tail b rest Hok) as (Hb & Hfull & Hrest).
    pose proof (len_readable N N_size_t b Hb) as Hlen.
    pose proof (segmented_size rest Hrest) as Hsz.
    cbn [Segmented.size fold_right] in Hn. fold (Segmented.size rest) in Hn.
    cbn [Segmented.read].
    destruct (n <=? 0) eqn:En.
    + replace n with 0 by lia. cbn.
      split; [reflexivity | split; [reflexivity | exact Hok]].
    + assert (0 <= Storage.size b).
      { rewrite <- Hlen. apply len_nonneg. }
      destruct (Z_le_gt_dec n (Storage.size b)) as [Hle | Hgt].
      * destruct (block_read_within N N_size_t b n Hb (conj (proj1 Hn) Hle))
          as [Hread Hrd'].
        rewrite Hread.
        set (b' := {| Storage.read_offset := Storage.read_offset b + n;
                      Storage.write_offset := Storage.write_offset b;
                      Storage.storage := Storage.storage b |}) in *.
        assert (Hb' : Segmented.block_ok N b').
        { destruct Hb as [(H0 & H1 & H2) Hst].
          pose proof (size_of_block N N_size_t b (conj H0 (conj H1 H2))) as Hs.
          split; [|exact Hst]. unfold Storage.block_inv, b'. cbn. lia. }
        assert (Hsize' : Storage.size b' = Storage.size b - n).
        { rewrite <- (len_readable N N_size_t b' Hb'), Hrd'.
          rewrite len_skipn by lia. lia. }
        rewrite contents_cons.
        destruct (Storage.size b' =? 0) eqn:Ez.
        -- assert (En' : n = Storage.size b) by lia.
           replace (n - n) with 0 by lia.
           assert (Hr0 : Segmented.read N rest 0 = ([], rest))
             by (destruct rest; reflexivity).
           rewrite Hr0. cbn [fst snd]. rewrite app_nil_r.
           assert (Hnn : Z.to_nat n = length (Segmented.readable b))
             by (unfold len in Hlen; lia).
           rewrite Hnn, firstn_all, firstn_length_app, skipn_length_app.
           split; [reflexivity | split; [reflexivity | exact Hrest]].
        -- cbn [fst snd]. rewrite contents_cons.
           assert (Hnn : (Z.to_nat n <= length (Segmented.readable b))%nat)
             by (unfold len in Hlen; lia).
           rewrite firstn_app, skipn_app.
           replace (Z.to_nat n - length (Segmented.readable b))%nat
             with 0%nat by lia.
           cbn [firstn skipn]. rewrite app_nil_r, Hrd'.
           split; [reflexivity | split; [reflexivity|]].
           apply chain_ok_cons; [exact Hb' | | exact Hrest].
           intros Hne. apply (Hfull Hne).
      * assert (Hne : rest <> []).
        { intros E. subst rest. cbn in Hn. lia. }
        pose proof (Hfull Hne) as Hf.
        rewrite (block_read_drain N N_size_t b n Hb Hf) by lia.
        assert (Hz : Storage.size {| Storage.read_offset := N;
                                     Storage.write_offset := N;
                                     Storage.storage := Storage.storage b |} = 0).
        { unfold Storage.size. cbn. unfold size_sub, wrap.
          rewrite Z.sub_diag. reflexivity. }
        rewrite Hz. cbn [Z.eqb].
        destruct (IH (n - Storage.size b) Hrest) as (Hfst & Hsnd & Hchain);
          [lia|].
        destruct (Segmented.read N rest (n - Storage.size b)) as [more rest'].
        cbn [fst snd] in *. rewrite contents_cons.
        assert (Hnn : (length (Segmented.readable b) <= Z.to_nat n)%nat)
          by (unfold len in Hlen; lia).
        rewrite firstn_app, skipn_app.
        rewrite (firstn_all2 (n := Z.to_nat n)) by exact Hnn.
        rewrite (skipn_all2 (n := Z.to_nat n)) by exact Hnn.
        replace (Z.to_nat n - length (Segmented.readable b))%nat
          with (Z.to_nat (n - Storage.size b))
          by (unfold len in Hlen; lia).
        cbn [app]. rewrite Hfst, Hsnd.
        split; [reflexivity | split; [reflexivity | exact Hchain]].
Qed.

End ChainFacts.

(** C5, as amended.  For every string [s] of fewer than [2^32] bytes (the
    empty string, a one-byte string and strings longer than a storage
    block among them), writing [s] with the fixed-length prefix into an
    empty buffer puts the four little-endian bytes of [s.size()] and then
    the bytes of [s] into it, and reading a prefixed string back from that
    buffer yields exactly [s], leaves the buffer empty and the reader in
    state [ok], in both propagation modes, provided the sink accepts the
    writes and the read limit, if any, allows the [4 + s.size()] bytes.
    A segmented buffer of any block capacity [N >= 1] carries the two
    writes and the two reads as the byte queue does, whatever the number
    of blocks the string spans. *)
Theorem prefixed_string_round_trip
  (s dest : list byte) (sink_rejects : list byte -> list byte -> bool)
  (wthrowing rthrowing : bool) (L : Z) :
  len s < 2 ^ 32 ->
  (forall b d, sink_rejects b d = false) ->
  is_size_t L -> L = 0 \/ 4 + len s <= L ->
  Pmc.Writer.shl_prefixed sink_rejects s (Pmc.Writer.make [] wthrowing)
  = ({| Pmc.wbase := {| Pmc.state_ := ok; Pmc.allow_throw_ := wthrowing |};
        Pmc.wbuffer_ := le_split 4 (len s) ++ s;
        Pmc.total_write_ := 4 + len s |},
     Returned tt)
  /\ Pmc.Reader.shr_prefixed_string dest
       (Pmc.Reader.make (le_split 4 (len s) ++ s) rthrowing L)
     = ({| Pmc.rbase := {| Pmc.state_ := ok; Pmc.allow_throw_ := rthrowing |};
           Pmc.rbuffer_ := [];
           Pmc.total_read_ := 4 + len s;
           Pmc.read_limit_ := L |},
        Returned s)
  /\ prefixed_round_trip s = Returned s
  /\ (forall N : Z, is_size_t N -> 0 < N ->
        let chain :=
          Segmented.write N (Segmented.write N [] (le_split 4 (len s))) s in
        let after_count := snd (Segmented.read N chain 4) in
        Segmented.contents chain = le_split 4 (len s) ++ s
        /\ fst (Segmented.read N chain 4) = le_split 4 (len s)
        /\ fst (Segmented.read N after_count (len s)) = s
        /\ Segmented.contents (snd (Segmented.read N after_count (len s))) = []).
Proof.
  intros Hs Hrej HL Hlim. pose proof (len_nonneg s) as H0.
  assert (H232 : 2 ^ 32 + 4 < size_t_modulus) by reflexivity.
  assert (Hu : to_uint32 (len s) = len s)
    by (apply Z.mod_small; lia).
  assert (Hfirst : firstn (Z.to_nat (len s)) s = s)
    by (unfold len; rewrite Nat2Z.id; apply firstn_all).
  assert (Hskip : skipn (Z.to_nat (len s)) s = [])
    by (unfold len; rewrite Nat2Z.id; apply skipn_all).
  assert (Hw : forall rej thr, (forall b d, rej b d = false) ->
             Pmc.Writer.shl_prefixed rej s (Pmc.Writer.make [] thr)
             = ({| Pmc.wbase := {| Pmc.state_ := ok; Pmc.allow_throw_ := thr |};
                   Pmc.wbuffer_ := le_split 4 (len s) ++ s;
                   Pmc.total_write_ := 4 + len s |},
                Returned tt)).
  { intros rej thr Hr. rewrite shl_prefixed_accepted by (assumption || reflexivity).
    cbn [Pmc.Writer.make Pmc.wbase Pmc.wbuffer_ Pmc.total_write_ app].
    rewrite Hu. change (size_add 0 4) with 4.
    rewrite size_add_small by (unfold is_size_t; lia). reflexivity. }
  assert (Hr : forall thr L' d, is_size_t L' -> L' = 0 \/ 4 + len s <= L' ->
             Pmc.Reader.shr_prefixed_string d
               (Pmc.Reader.make (le_split 4 (len s) ++ s) thr L')
             = ({| Pmc.rbase := {| Pmc.state_ := ok; Pmc.allow_throw_ := thr |};
                   Pmc.rbuffer_ := [];
                   Pmc.total_read_ := 4 + len s;
                   Pmc.read_limit_ := L' |},
                Returned s)).
  { intros thr L' d HL' Hlim'.
    rewrite shr_prefixed_string_reads;
      unfold is_size_t in *; try lia; try assumption.
    rewrite Hfirst, Hskip. reflexivity. }
  split; [|split; [|split]].
  - apply Hw. assumption.
  - apply Hr; assumption.
  - unfold prefixed_round_trip.
    rewrite (Hw accepting_sink true) by reflexivity.
    cbn [fst Pmc.wbuffer_].
    rewrite (Hr true 0 []); [reflexivity | | left; reflexivity].
    unfold is_size_t. split; [lia | reflexivity].
  - intros N HN Hpos chain after_count.
    assert (Hnil : Segmented.chain_ok N []) by (split; constructor).
    destruct (segmented_write_appends N HN Hpos [] (le_split 4 (len s)) Hnil)
      as [Hc1 Hok1].
    destruct (segmented_write_appends N HN Hpos _ s Hok1) as [Hc2 Hok2].
    fold chain in Hc2, Hok2. rewrite Hc1 in Hc2.
    cbn [Segmented.contents flat_map app] in Hc2.
    assert (Hsize : Segmented.size chain = 4 + len s).
    { rewrite (segmented_size N HN chain Hok2), Hc2, len_app.
      unfold len at 1. rewrite length_le_split. lia. }
    destruct (segmented_read_takes N HN chain 4 Hok2) as (Hf1 & Hs1 & Hok3);
      [lia|].
    fold after_count in Hs1, Hok3.
    rewrite Hc2 in Hf1, Hs1.
    change (Z.to_nat 4) with (length (le_split 4 (len s))) in Hf1, Hs1.
    rewrite firstn_length_app in Hf1. rewrite skipn_length_app in Hs1.
    destruct (segmented_read_takes N HN after_count (len s) Hok3)
      as (Hf2 & Hs2 & _).
    { rewrite (segmented_size N HN after_count Hok3), Hs1. lia. }
    rewrite Hs1, Hfirst in Hf2. rewrite Hs1, Hskip in Hs2.
    repeat split; assumption.
Qed.

(** Eleven bytes written to a chain of capacity four lie in three blocks
    and come back in one read. *)
Example eleven_bytes_across_three_blocks :
  map Storage.write_offset (Segmented.write 4 [] eleven_bytes) = [4; 4; 3]
  /\ Segmented.read 4 (Segmented.write 4 [] eleven_bytes) 11
     = (eleven_bytes, []).
Proof. split; reflexivity. Qed.

Lemma prefixed_string_round_trip_witness :
  len two_bytes < 2 ^ 32
  /\ Pmc.Reader.shr_prefixed_string []
       (Pmc.Reader.make (le_split 4 (len two_bytes) ++ two_bytes) false 6)
     = ({| Pmc.rbase := {| Pmc.state_ := ok; Pmc.allow_throw_ := false |};
           Pmc.rbuffer_ := [];
           Pmc.total_read_ := 4 + len two_bytes;
           Pmc.read_limit_ := 6 |},
        Returned two_bytes).
Proof.
  assert (H1 : len two_bytes < 2 ^ 32) by reflexivity.
  assert (H2 : forall b d : list byte, accepting_sink b d = false)
    by reflexivity.
  assert (H3 : is_size_t 6) by (unfold is_size_t, size_t_modulus; lia).
  assert (H4 : 6 = 0 \/ 4 + len two_bytes <= 6)
    by (right; vm_compute; discriminate).
  split; [exact H1|].
  exact (proj1 (proj2 (prefixed_string_round_trip two_bytes [] accepting_sink
                         true false 6 H1 H2 H3 H4))).
Defined.

(** The count is cast to 32 bits before it is written, so a string whose
    size is a multiple of [2^32] goes out with a prefix of zero and comes
    back empty. *)
Lemma round_trip_of_four_gib (s : list byte) :
  len s = 2 ^ 32 -> prefixed_round_trip s = Returned [].
Proof.
  intros H. unfold prefixed_round_trip.
  rewrite shl_prefixed_accepted by reflexivity.
  cbn [fst Pmc.wbuffer_ Pmc.Writer.make app]. rewrite H.
  change (to_uint32 (2 ^ 32)) with 0.
  rewrite shr_prefixed_string_reads.
  - reflexivity.
  - unfold is_size_t. split; [lia | reflexivity].
  - lia.
  - lia.
  - rewrite H. unfold is_size_t. split; [lia | reflexivity].
  - left. reflexivity.
Qed.

Lemma len_four_gib_string : len four_gib_string = 2 ^ 32.
Proof.
  unfold four_gib_string, len. rewrite repeat_length.
  apply Z2Nat.id. apply Z.pow_nonneg. lia.
Qed.

Lemma Returned_inj {A : Type} (x y : A) : Returned x = Returned y -> x = y.
Proof. intros H. inversion H. reflexivity. Qed.

(** C5 as stated fails for a string of [2^32] bytes. *)
Lemma four_gib_string_does_not_round_trip :
  prefixed_round_trip four_gib_string <> Returned four_gib_string.
Proof.
  rewrite (round_trip_of_four_gib four_gib_string len_four_gib_string).
  intros H. apply Returned_inj in H.
  apply (f_equal len) in H. rewrite len_four_gib_string in H.
  change (len []) with 0 in H. lia.
Qed.

(** ** The invariant of a storage block *)

(** C6, as amended.  On a block of capacity [N] that satisfies
    [0 <= read_offset <= write_offset <= N], the readable size is
    [write_offset - read_offset] and the free space is [N - write_offset];
    [write], [advance_write] and [clear] keep the invariant for every
    argument ([copy] does not change the block); [read] and [skip] keep
    it when the length asked for is at most the readable size; and
    [write_seek] keeps it when the offset it is given stays in range: an
    absolute offset between [read_offset] and [N], a backward offset of at
    most the readable size, a forward offset of at most the free space. *)
Theorem storage_operations_keep_invariant
  (N : Z) (b : Storage.intrusive_storage) :
  is_size_t N -> Storage.block_inv N b ->
  Storage.size b = Storage.write_offset b - Storage.read_offset b
  /\ Storage.free N b = N - Storage.write_offset b
  /\ (forall source, Storage.block_inv N (fst (Storage.write N b source)))
  /\ (forall n, 0 <= n ->
        Storage.block_inv N (fst (Storage.advance_write N b n)))
  /\ Storage.block_inv N (Storage.clear b)
  /\ (forall n allow_optimise, 0 <= n <= Storage.size b ->
        Storage.block_inv N (fst (Storage.read N b n allow_optimise)))
  /\ (forall n allow_optimise, 0 <= n <= Storage.size b ->
        Storage.block_inv N (fst (Storage.skip N b n allow_optimise)))
  /\ (forall offset, Storage.read_offset b <= offset <= N ->
        Storage.block_inv N (Storage.write_seek b sk_absolute offset))
  /\ (forall offset, 0 <= offset <= Storage.size b ->
        Storage.block_inv N (Storage.write_seek b sk_backward offset))
  /\ (forall offset, 0 <= offset <= Storage.free N b ->
        Storage.block_inv N (Storage.write_seek b sk_forward offset)).
Proof.
  intros HN Hb.
  split; [apply (size_of_block N); assumption|].
  split; [apply free_of_block; assumption|].
  split; [intros; apply write_keeps_inv; assumption|].
  split; [intros; apply advance_write_keeps_inv; assumption|].
  split; [apply clear_keeps_inv; assumption|].
  split; [intros; apply read_keeps_inv; assumption|].
  split; [intros; apply skip_keeps_inv; assumption|].
  split; [intros; apply (write_seek_keeps_inv N HN b sk_absolute); assumption|].
  split; intros.
  - apply (write_seek_keeps_inv N HN b sk_backward); assumption.
  - apply (write_seek_keeps_inv N HN b sk_forward); assumption.
Qed.

Lemma storage_operations_keep_invariant_witness :
  Storage.block_inv 4 block_0_2
  /\ Storage.size block_0_2 = 2
  /\ Storage.block_inv 4 (fst (Storage.read 4 block_0_2 2 true))
  /\ Storage.block_inv 4 (fst (Storage.write 4 block_0_2 four_bytes)).
Proof.
  assert (HN : is_size_t 4) by (unfold is_size_t, size_t_modulus; lia).
  assert (Hb : Storage.block_inv 4 block_0_2)
    by (unfold Storage.block_inv; cbn; lia).
  destruct (storage_operations_keep_invariant 4 block_0_2 HN Hb)
    as (Hsize & _ & Hwrite & _ & _ & Hread & _).
  split; [exact Hb|]. split; [exact Hsize|]. split.
  - apply Hread. rewrite Hsize. cbn. lia.
  - apply Hwrite.
Defined.

(** C6 as stated fails for [write_seek], which stores or adds the offset
    it is given without a check: seeking to the absolute offset 9 in a
    block of capacity 4 leaves [write_offset] beyond the capacity, and
    seeking one byte backward on a drained block leaves it behind
    [read_offset]. *)
Lemma write_seek_leaves_the_invariant :
  Storage.block_inv 4 block_0_2
  /\ ~ Storage.block_inv 4 (Storage.write_seek block_0_2 sk_absolute 9)
  /\ Storage.block_inv 4 block_2_2
  /\ ~ Storage.block_inv 4 (Storage.write_seek block_2_2 sk_backward 1).
Proof.
  unfold Storage.block_inv. cbn. repeat split; try lia.
Qed.

(** [read] and [skip] cap the length at [block_size - read_offset], not at
    the readable size: asking a block that holds two readable bytes for
    three moves [read_offset] past [write_offset]. *)
Example read_beyond_written_bytes :
  Storage.block_inv 4 block_0_2
  /\ snd (Storage.read 4 block_0_2 3 false) = ([Byte.x61; Byte.x62; Byte.x00], 3)
  /\ ~ Storage.block_inv 4 (fst (Storage.read 4 block_0_2 3 false))
  /\ ~ Storage.block_inv 4 (fst (Storage.skip 4 block_0_2 3 false)).
Proof.
  unfold Storage.block_inv. cbn. repeat split; try lia.
Qed.

(** ** Null-terminated strings *)

Lemma find_first_of_absent (b : list byte) (v : byte) :
  ~ In v b -> Buffer.find_first_of b v = None.
Proof.
  induction b as [|x b IH]; intros H; cbn [Buffer.find_first_of].
  - reflexivity.
  - destruct (Byte.eqb x v) eqn:E.
    + apply Byte.byte_dec_bl in E. exfalso. apply H. left. exact E.
    + rewrite IH; [reflexivity|]. intros Hin. apply H. right. exact Hin.
Qed.

Lemma find_first_of_present (pre post : list byte) (v : byte) :
  ~ In v pre -> Buffer.find_first_of (pre ++ v :: post) v = Some (len pre).
Proof.
  induction pre as [|x pre IH]; intros H; cbn [Buffer.find_first_of app].
  - rewrite (Byte.byte_dec_lb eq_refl). reflexivity.
  - destruct (Byte.eqb x v) eqn:E.
    + apply Byte.byte_dec_bl in E. exfalso. apply H. left. exact E.
    + rewrite IH by (intros Hin; apply H; right; exact Hin).
      cbn [option_map]. f_equal. unfold len. cbn [length]. lia.
Qed.

(** A match lies inside the buffer, and nothing before it matches. *)
Lemma find_first_of_found (b : list byte) (v : byte) (pos : Z) :
  Buffer.find_first_of b v = Some pos ->
  exists pre post, b = pre ++ v :: post /\ ~ In v pre /\ pos = len pre.
Proof.
  revert pos. induction b as [|x b IH]; intros pos H;
    cbn [Buffer.find_first_of] in H; [discriminate|].
  destruct (Byte.eqb x v) eqn:E.
  - apply Byte.byte_dec_bl in E. subst x. inversion H; subst pos.
    exists [], b. repeat split. intros [].
  - destruct (Buffer.find_first_of b v) as [p|]; [|discriminate].
    destruct (IH p eq_refl) as (pre & post & Hb & Hpre & Hp).
    cbn [option_map] in H. inversion H; subst pos. subst b.
    exists (x :: pre), post. repeat split.
    + intros [Hx | Hin]; [|exact (Hpre Hin)].
      subst x. rewrite (Byte.byte_dec_lb eq_refl) in E. discriminate.
    + unfold len in *. cbn [length]. lia.
Qed.

Lemma firstn_len_app (a b : list byte) : firstn (Z.to_nat (len a)) (a ++ b) = a.
Proof. unfold len. rewrite Nat2Z.id. apply firstn_length_app. Qed.

Lemma skipn_len_app (a b : list byte) : skipn (Z.to_nat (len a)) (a ++ b) = b.
Proof. unfold len. rewrite Nat2Z.id. apply skipn_length_app. Qed.

(** C7, as amended.  The extraction of a null-terminated string looks
    for the first zero byte with [find_first_of].  When the readable data
    holds none, the result is the empty string and the stream is left as
    it was: no error state is set and nothing is raised.  When the data is
    [pre], a zero byte, then [post], with no zero byte in [pre], the
    result is exactly [pre], the buffer is left with [post], and
    [total_read] has grown by the size of [pre] plus one for the
    terminator: on [binary_stream] whatever the state and the limit, on
    the pmc reader when its state is [ok] and the read limit, if any,
    allows [pre] and the terminator. *)
Theorem null_terminated_string_extraction (pre post dest : list byte) :
  ~ In Byte.x00 pre ->
  is_size_t (len pre + 1) ->
  (forall s : BinaryStream.binary_stream,
      BinaryStream.buffer_ s = pre ++ Byte.x00 :: post ->
      BinaryStream.shr_string dest s
      = (BinaryStream.set_buffer
           (BinaryStream.set_total_read s
              (size_add (size_add (BinaryStream.total_read_ s) (len pre)) 1))
           post,
         Returned pre))
  /\ (forall r : Pmc.binary_stream_reader,
         Pmc.rbuffer_ r = pre ++ Byte.x00 :: post ->
         Pmc.Reader.state r = ok ->
         Pmc.read_limit_ r = 0
         \/ len pre + 1 <= size_sub (Pmc.read_limit_ r) (Pmc.total_read_ r) ->
         Pmc.Reader.shr_null_terminated_string dest r
         = (Pmc.Reader.set_buffer
              (Pmc.Reader.set_total_read r
                 (size_add (Pmc.total_read_ r) (len pre + 1)))
              post,
            Returned pre))
  /\ (forall s : BinaryStream.binary_stream,
         ~ In Byte.x00 (BinaryStream.buffer_ s) ->
         BinaryStream.shr_string dest s = (s, Returned []))
  /\ (forall r : Pmc.binary_stream_reader,
         ~ In Byte.x00 (Pmc.rbuffer_ r) ->
         Pmc.Reader.shr_null_terminated_string dest r = (r, Returned [])).
Proof.
  intros Hpre Hsz. split; [|split; [|split]].
  - intros s Hb. unfold BinaryStream.shr_string.
    rewrite Hb, find_first_of_present by assumption.
    unfold bind, BinaryStream.buffer_read, BinaryStream.add_total_read,
      BinaryStream.buffer_skip, ret, Buffer.read, Buffer.skip.
    rewrite Hb, firstn_len_app, skipn_len_app. reflexivity.
  - intros r Hb Hs Hlim. unfold Pmc.Reader.shr_null_terminated_string.
    rewrite Hb, find_first_of_present by assumption.
    rewrite (size_add_small (len pre) 1) by assumption.
    rewrite bounds_enforce_pass; try assumption.
    + unfold bind, Pmc.Reader.buffer_read, Pmc.Reader.buffer_skip, ret,
        Buffer.read, Buffer.skip.
      cbn [Pmc.rbuffer_ Pmc.Reader.set_total_read Pmc.Reader.set_buffer].
      rewrite Hb, firstn_len_app, skipn_len_app. reflexivity.
    + unfold Pmc.Reader.size, Buffer.size. rewrite Hb, len_app.
      unfold len. cbn [length]. lia.
  - intros s Hno. unfold BinaryStream.shr_string.
    rewrite find_first_of_absent by assumption. reflexivity.
  - intros r Hno. unfold Pmc.Reader.shr_null_terminated_string.
    rewrite find_first_of_absent by assumption. reflexivity.
Qed.

Lemma null_terminated_string_extraction_witness :
  ~ In Byte.x00 hi
  /\ Pmc.Reader.shr_null_terminated_string []
       (Pmc.Reader.make hi_yo true 0)
     = (Pmc.Reader.set_buffer
          (Pmc.Reader.set_total_read (Pmc.Reader.make hi_yo true 0)
             (size_add 0 (len hi + 1)))
          yo,
        Returned hi).
Proof.
  assert (H1 : ~ In Byte.x00 hi) by (cbn; intuition discriminate).
  assert (H2 : is_size_t (len hi + 1))
    by (unfold is_size_t, size_t_modulus; cbn; lia).
  split; [exact H1|].
  apply (proj1 (proj2 (null_terminated_string_extraction hi yo [] H1 H2))).
  - reflexivity.
  - reflexivity.
  - left. reflexivity.
Defined.

(** C7 as stated fails where it promises a buffer underrun: on a buffer
    without a zero byte the extraction returns normally with the empty
    string, in throwing mode too, and the state stays [ok]. *)
Lemma missing_terminator_sets_no_error :
  Buffer.find_first_of two_bytes Byte.x00 = None
  /\ Pmc.Reader.shr_null_terminated_string [] (Pmc.Reader.make two_bytes true 0)
     = (Pmc.Reader.make two_bytes true 0, Returned [])
  /\ Pmc.Reader.state (Pmc.Reader.make two_bytes true 0) = ok
  /\ BinaryStream.shr_string [] (BinaryStream.make two_bytes 0)
     = (BinaryStream.make two_bytes 0, Returned []).
Proof. repeat split. Qed.

(** ** A varint prefix that is cut short *)

Section TruncatedVarint.

Import Pmc.

Lemma get_uint8_poisoned (r : binary_stream_reader) :
  Reader.state r <> ok -> Reader.get_uint8 r = (r, Returned Byte.x00).
Proof.
  intros H. unfold Reader.get_uint8, Reader.SAFE_READ.
  apply bounds_enforce_poisoned. exact H.
Qed.

Lemma get_uint8_refused (r : binary_stream_reader) :
  Reader.state r = ok -> Reader.allow_throw r = false ->
  rbuffer_ r = []
  \/ (read_limit_ r <> 0 /\ 1 > size_sub (read_limit_ r) (total_read_ r)) ->
  exists st,
    Reader.get_uint8 r = (Reader.set_state r st, Returned Byte.x00)
    /\ (st = buff_limit_err \/ st = read_limit_err).
Proof.
  intros Hs Hthrow Hcase. unfold Reader.get_uint8, Reader.SAFE_READ.
  destruct (Z_gt_le_dec 1 (Reader.size r)) as [Hsz | Hsz].
  - exists buff_limit_err. split; [|left; reflexivity].
    rewrite bounds_enforce_underrun by assumption.
    unfold Reader.refused. rewrite Hthrow. reflexivity.
  - destruct Hcase as [Hnil | [HL Hn]].
    + exfalso. unfold Reader.size, Buffer.size in Hsz. rewrite Hnil in Hsz.
      cbn in Hsz. lia.
    + exists read_limit_err. split; [|right; reflexivity].
      rewrite bounds_enforce_limit by assumption.
      unfold Reader.refused. rewrite Hthrow. reflexivity.
Qed.

Lemma get_uint8_delivers (r : binary_stream_reader) (b : byte)
  (rest : list byte) :
  Reader.state r = ok -> rbuffer_ r = b :: rest ->
  read_limit_ r = 0 \/ 1 <= size_sub (read_limit_ r) (total_read_ r) ->
  Reader.get_uint8 r
  = (Reader.set_buffer
       (Reader.set_total_read r (size_add (total_read_ r) 1)) rest,
     Returned b).
Proof.
  intros Hs Hb Hlim. unfold Reader.get_uint8, Reader.SAFE_READ.
  rewrite bounds_enforce_pass; try assumption.
  - unfold bind, Reader.buffer_read, Buffer.read, ret.
    cbn [rbuffer_ Reader.set_total_read]. rewrite Hb. reflexivity.
  - unfold Reader.size, Buffer.size. rewrite Hb. unfold len. cbn [length]. lia.
Qed.

(** On a non-throwing reader whose buffer holds only bytes with the
    continuation bit set, the decoding loop ends by a refused read: it
    returns normally, with the stream in an error state. *)
Lemma varint_decode_loop_truncated (buf : list byte) :
  Forall (fun b => Reader.continuation_bit b = true) buf ->
  forall (fuel : nat) (shift value : Z) (r : binary_stream_reader),
    rbuffer_ r = buf -> Reader.allow_throw r = false ->
    (length buf < fuel)%nat ->
    exists r' v,
      Reader.varint_decode_loop fuel shift value r = Some (r', Returned v)
      /\ Reader.state r' <> ok
      /\ (Reader.state r = ok ->
          Reader.state r' = buff_limit_err \/ Reader.state r' = read_limit_err).
Proof.
  induction 1 as [|b rest Hb Hrest IH];
    intros fuel shift value r Hbuf Hthrow Hfuel;
    (destruct fuel as [|fuel]; [cbn in Hfuel; lia|]);
    cbn [Reader.varint_decode_loop];
    destruct (stream_state_eqb (Reader.state r) ok) eqn:Hs.
  - apply stream_state_eqb_eq in Hs.
    destruct (get_uint8_refused r Hs Hthrow (or_introl Hbuf))
      as (st & Hget & Hst).
    rewrite Hget. cbn. eexists _, _. split; [reflexivity|].
    split; [destruct Hst; subst st; discriminate | intros _; exact Hst].
  - assert (Hne : Reader.state r <> ok)
      by (intros E; rewrite E in Hs; discriminate).
    rewrite get_uint8_poisoned by assumption. cbn.
    eexists _, _. split; [reflexivity|]. split; [exact Hne | tauto].
  - apply stream_state_eqb_eq in Hs.
    destruct (Z.eq_dec (read_limit_ r) 0) as [HL | HL];
      [|destruct (Z_le_gt_dec 1 (size_sub (read_limit_ r) (total_read_ r)))
         as [Hle | Hgt]].
    + rewrite (get_uint8_delivers r b rest) by (assumption || (left; assumption)).
      rewrite Hb.
      destruct (IH fuel (shift + 7)
                  (Z.lor value
                     (wrap (Z.shiftl (Z.land (byte.unsigned b) 127) shift)))
                  (Reader.set_buffer
                     (Reader.set_total_read r (size_add (total_read_ r) 1))
                     rest))
        as (r' & v & Hrun & Hbad & Hkind);
        [reflexivity | exact Hthrow | cbn in Hfuel; lia |].
      exists r', v. split; [exact Hrun|]. split; [exact Hbad|].
      intros _. apply Hkind. exact Hs.
    + rewrite (get_uint8_delivers r b rest) by (assumption || (right; assumption)).
      rewrite Hb.
      destruct (IH fuel (shift + 7)
                  (Z.lor value
                     (wrap (Z.shiftl (Z.land (byte.unsigned b) 127) shift)))
                  (Reader.set_buffer
                     (Reader.set_total_read r (size_add (total_read_ r) 1))
                     rest))
        as (r' & v & Hrun & Hbad & Hkind);
        [reflexivity | exact Hthrow | cbn in Hfuel; lia |].
      exists r', v. split; [exact Hrun|]. split; [exact Hbad|].
      intros _. apply Hkind. exact Hs.
    + destruct (get_uint8_refused r Hs Hthrow (or_intror (conj HL Hgt)))
        as (st & Hget & Hst).
      rewrite Hget. cbn. eexists _, _. split; [reflexivity|].
      split; [destruct Hst; subst st; discriminate | intros _; exact Hst].
  - assert (Hne : Reader.state r <> ok)
      by (intros E; rewrite E in Hs; discriminate).
    rewrite get_uint8_poisoned by assumption. cbn.
    eexists _, _. split; [reflexivity|]. split; [exact Hne | tauto].
Qed.

End TruncatedVarint.

(** C8: what the code does.  On a non-throwing pmc reader whose buffer
    holds a truncated varint (every byte present has its continuation bit
    set), the decoding of the length comes back normally once a read has
    been refused, with the state [buff_limit_err] or [read_limit_err], and
    the extraction of the varint-prefixed string then runs into
    [std::unreachable()]: it does not end as a normal return. *)
Theorem truncated_varint_reaches_unreachable
  (buf dest : list byte) (L : Z) (fuel : nat) :
  Forall (fun b => Pmc.Reader.continuation_bit b = true) buf ->
  (length buf < fuel)%nat ->
  exists r',
    Pmc.Reader.shr_prefixed_varint_string fuel dest
      (Pmc.Reader.make buf false L)
    = Some (r', Unreachable)
    /\ (Pmc.Reader.state r' = buff_limit_err
        \/ Pmc.Reader.state r' = read_limit_err).
Proof.
  intros Hbuf Hfuel.
  destruct (varint_decode_loop_truncated buf Hbuf fuel 0 0
              (Pmc.Reader.make buf false L) eq_refl eq_refl Hfuel)
    as (r' & v & Hrun & Hbad & Hkind).
  exists r'. split; [|apply Hkind; reflexivity].
  unfold Pmc.Reader.shr_prefixed_varint_string, Pmc.Reader.varint_decode.
  rewrite Hrun. rewrite (stream_state_eqb_neq _ _ Hbad). reflexivity.
Qed.

Lemma truncated_varint_reaches_unreachable_witness :
  Forall (fun b => Pmc.Reader.continuation_bit b = true) truncated_varint
  /\ exists r',
       Pmc.Reader.shr_prefixed_varint_string 2 []
         (Pmc.Reader.make truncated_varint false 0)
       = Some (r', Unreachable)
       /\ (Pmc.Reader.state r' = buff_limit_err
           \/ Pmc.Reader.state r' = read_limit_err).
Proof.
  assert (H1 : Forall (fun b => Pmc.Reader.continuation_bit b = true)
                 truncated_varint)
    by (repeat constructor).
  assert (H2 : (length truncated_varint < 2)%nat) by (cbn; lia).
  split; [exact H1|].
  exact (truncated_varint_reaches_unreachable truncated_varint [] 0 2 H1 H2).
Defined.

(** The same on the failing inputs themselves: the one-byte buffer [0x80]
    and the empty buffer. *)
Example truncated_varint_runs :
  Pmc.Reader.shr_prefixed_varint_string 2 []
    (Pmc.Reader.make truncated_varint false 0)
  = Some (Pmc.Reader.set_state
            (Pmc.Reader.set_buffer
               (Pmc.Reader.set_total_read
                  (Pmc.Reader.make truncated_varint false 0) 1)
               [])
            buff_limit_err,
          Unreachable)
  /\ Pmc.Reader.shr_prefixed_varint_string 1 []
       (Pmc.Reader.make [] false 0)
     = Some (Pmc.Reader.set_state (Pmc.Reader.make [] false 0) buff_limit_err,
             Unreachable).
Proof. split; reflexivity. Qed.

(** A reader that is already in an error state runs into the same
    branch, in either mode: the decoding reads nothing and returns. *)
Example poisoned_reader_reaches_unreachable :
  Pmc.Reader.shr_prefixed_varint_string 1 [] poisoned_reader
  = Some (poisoned_reader, Unreachable)
  /\ Pmc.Reader.shr_prefixed_varint_string 1 []
       (Pmc.Reader.in_mode poisoned_reader true)
     = Some (Pmc.Reader.in_mode poisoned_reader true, Unreachable).
Proof. split; reflexivity. Qed.

(** In throwing mode the refused read raises and the branch is not
    reached. *)
Example truncated_varint_throws :
  Pmc.Reader.shr_prefixed_varint_string 2 []
    (Pmc.Reader.make truncated_varint true 0)
  = Some (Pmc.Reader.set_state
            (Pmc.Reader.set_buffer
               (Pmc.Reader.set_total_read
                  (Pmc.Reader.make truncated_varint true 0) 1)
               [])
            buff_limit_err,
          Thrown (buffer_underrun 1 1 0)).
Proof. reflexivity. Qed.

(** ** [read_max] *)

(** With a read limit set, [read_max] answers the remaining budget and
    does not look at the buffer. *)
Lemma read_max_with_limit (r : Pmc.binary_stream_reader) :
  Pmc.read_limit_ r <> 0 -> is_size_t (Pmc.read_limit_ r) ->
  0 <= Pmc.total_read_ r < Pmc.read_limit_ r ->
  Pmc.Reader.read_max r = Some (Pmc.read_limit_ r - Pmc.total_read_ r).
Proof.
  intros HL Hsz Htr. unfold Pmc.Reader.read_max.
  replace (Pmc.read_limit_ r =? 0) with false by lia.
  replace (Pmc.total_read_ r <? Pmc.read_limit_ r) with true by lia.
  cbn [negb]. rewrite size_sub_small; [reflexivity|].
  unfold is_size_t in *. lia.
Qed.

(** Without a read limit it answers the size of the buffer, as specified. *)
Lemma read_max_without_limit (r : Pmc.binary_stream_reader) :
  Pmc.read_limit_ r = 0 ->
  Pmc.Reader.read_max r = Some (Pmc.Reader.read_max_as_specified r).
Proof.
  intros HL. unfold Pmc.Reader.read_max, Pmc.Reader.read_max_as_specified.
  rewrite HL. reflexivity.
Qed.

(** The two agree under a limit exactly when the buffer holds at least
    the remaining budget. *)
Lemma read_max_agrees_iff (r : Pmc.binary_stream_reader) :
  Pmc.read_limit_ r <> 0 -> is_size_t (Pmc.read_limit_ r) ->
  0 <= Pmc.total_read_ r < Pmc.read_limit_ r ->
  (Pmc.Reader.read_max r = Some (Pmc.Reader.read_max_as_specified r)
   <-> Pmc.read_limit_ r - Pmc.total_read_ r <= Pmc.Reader.size r).
Proof.
  intros HL Hsz Htr. rewrite read_max_with_limit by assumption.
  unfold Pmc.Reader.read_max_as_specified, Pmc.Reader.size.
  replace (Pmc.read_limit_ r =? 0) with false by lia. cbn [negb].
  split.
  - intros H. inversion H. lia.
  - intros H. f_equal. lia.
Qed.

(** C9: what the code does.  A reader with a read limit of ten over a
    buffer of two bytes answers [read_max() = 10]: the remaining budget,
    not the lesser of it and the two bytes the buffer holds, although a
    read of ten bytes would be refused as an underrun. *)
Theorem read_max_exceeds_buffer_size :
  Pmc.Reader.size reader_limit_ten = 2
  /\ Pmc.Reader.read_max reader_limit_ten = Some 10
  /\ Pmc.Reader.read_max_ndebug reader_limit_ten = 10
  /\ Pmc.Reader.read_max_as_specified reader_limit_ten = 2
  /\ Pmc.Reader.state (fst (Pmc.Reader.skip 10 reader_limit_ten))
     = buff_limit_err.
Proof. repeat split. Qed.

(** ** The two default encodings of a string *)

Lemma app_length_neq (a b c d : list byte) :
  (length a + length b <> length c + length d)%nat -> a ++ b <> c ++ d.
Proof.
  intros H E. apply H. rewrite <- !length_app. f_equal. exact E.
Qed.

(** C10, as amended.  For every string [s], over a sink that accepts the
    writes, the plain insertion operator of [binary_stream] writes the
    bytes of [s] followed by one zero byte, [s.size() + 1] bytes and no
    length prefix, and adds [s.size() + 1] to [total_write] (a
    [std::size_t], so modulo [2^64]); the plain insertion operator of a
    pmc writer in state [ok] writes the four low-order little-endian bytes
    of [s.size()], which are the length when [s.size() < 2^32], and then
    the [s.size()] bytes of [s]; the two byte sequences differ. *)
Theorem default_string_encodings_differ (s : list byte)
  (sink_rejects : list byte -> list byte -> bool) :
  (forall b d, sink_rejects b d = false) ->
  (forall t : BinaryStream.binary_stream,
      BinaryStream.shl_string sink_rejects s t
      = (BinaryStream.set_total_write
           (BinaryStream.set_buffer t
              (BinaryStream.buffer_ t ++ (s ++ [Byte.x00])))
           (size_add (BinaryStream.total_write_ t) (size_add (len s) 1)),
         Returned tt)
      /\ (is_size_t (BinaryStream.total_write_ t + (len s + 1)) ->
          BinaryStream.total_write
            (fst (BinaryStream.shl_string sink_rejects s t))
          = BinaryStream.total_write t + (len s + 1)))
  /\ (forall w : Pmc.binary_stream_writer,
         Pmc.Writer.state w = ok ->
         Pmc.Writer.shl_string sink_rejects s w
         = ({| Pmc.wbase := Pmc.wbase w;
               Pmc.wbuffer_ := (Pmc.wbuffer_ w ++ le_split 4 (len s)) ++ s;
               Pmc.total_write_ :=
                 size_add (size_add (Pmc.total_write_ w) 4) (len s) |},
            Returned tt))
  /\ len (s ++ [Byte.x00]) = len s + 1
  /\ len (le_split 4 (len s) ++ s) = 4 + len s
  /\ le_combine (le_split 4 (len s)) = len s mod 2 ^ 32
  /\ (len s < 2 ^ 32 -> le_combine (le_split 4 (len s)) = len s)
  /\ s ++ [Byte.x00] <> le_split 4 (len s) ++ s.
Proof.
  intros Hrej. pose proof (len_nonneg s) as H0.
  split; [|split; [|split; [|split; [|split; [|split]]]]].
  - intros t.
    assert (E : BinaryStream.shl_string sink_rejects s t
                = (BinaryStream.set_total_write
                     (BinaryStream.set_buffer t
                        (BinaryStream.buffer_ t ++ (s ++ [Byte.x00])))
                     (size_add (BinaryStream.total_write_ t)
                        (size_add (len s) 1)),
                   Returned tt)).
    { unfold BinaryStream.shl_string, bind, BinaryStream.buffer_write,
        BinaryStream.add_total_write, Buffer.write.
      rewrite Hrej. reflexivity. }
    split; [exact E|].
    intros Hsz. rewrite E. cbn [fst BinaryStream.total_write
                                 BinaryStream.set_total_write
                                 BinaryStream.total_write_].
    unfold size_add, wrap.
    rewrite Zplus_mod_idemp_r. apply Z.mod_small. exact Hsz.
  - intros w Hs. unfold Pmc.Writer.shl_string.
    rewrite shl_prefixed_accepted by assumption.
    rewrite le_split_4_to_uint32. reflexivity.
  - rewrite len_app. reflexivity.
  - rewrite len_app. unfold len at 1. rewrite length_le_split. lia.
  - rewrite le_combine_split. reflexivity.
  - intros Hlt. apply le_combine_le_split_4. lia.
  - apply app_length_neq. rewrite length_le_split. cbn [length]. lia.
Qed.

Lemma default_string_encodings_differ_witness :
  BinaryStream.buffer_
    (fst (BinaryStream.shl_string accepting_sink hi (BinaryStream.make [] 0)))
  = hi ++ [Byte.x00]
  /\ Pmc.wbuffer_
       (fst (Pmc.Writer.shl_string accepting_sink hi (Pmc.Writer.make [] true)))
     = le_split 4 2 ++ hi.
Proof.
  assert (H : forall b d : list byte, accepting_sink b d = false)
    by reflexivity.
  destruct (default_string_encodings_differ hi accepting_sink H)
    as (HB & HP & _).
  split.
  - rewrite (proj1 (HB (BinaryStream.make [] 0))). reflexivity.
  - rewrite (HP (Pmc.Writer.make [] true) eq_refl). reflexivity.
Defined.

(** C10 as stated fails where the amended statement has its conditions:
    a pmc writer in an error state writes nothing, over a sink that
    rejects the write the [binary_stream] writes and counts nothing, and a
    string of [2^32] bytes goes out of the pmc writer behind a prefix of
    zero. *)
Lemma string_insertions_without_the_encoding :
  Pmc.Writer.shl_string accepting_sink hi
    (Pmc.Writer.set_error_state (Pmc.Writer.make [] true))
  = (Pmc.Writer.set_error_state (Pmc.Writer.make [] true), Returned tt)
  /\ BinaryStream.shl_string (sink_of_capacity 2) hi (BinaryStream.make [] 0)
     = (BinaryStream.make [] 0, Thrown sink_exception)
  /\ Pmc.wbuffer_
       (fst (Pmc.Writer.shl_string accepting_sink four_gib_string
               (Pmc.Writer.make [] true)))
     = [Byte.x00; Byte.x00; Byte.x00; Byte.x00] ++ four_gib_string
  /\ le_combine [Byte.x00; Byte.x00; Byte.x00; Byte.x00]
     <> len four_gib_string.
Proof.
  split; [reflexivity|]. split; [reflexivity|]. split.
  - unfold Pmc.Writer.shl_string.
    rewrite shl_prefixed_accepted by reflexivity.
    cbn [fst Pmc.wbuffer_ Pmc.Writer.make app].
    rewrite len_four_gib_string.
    change (to_uint32 (2 ^ 32)) with 0. reflexivity.
  - rewrite len_four_gib_string. vm_compute. discriminate.
Qed.

(** * Further properties *)

(** ** Storage blocks as byte queues *)

Section BlockQueue.

Import Storage.

Variable N : Z.
Hypothesis N_size_t : is_size_t N.

(** What [copy] hands out when asked for all the readable bytes. *)
Lemma copy_all (b : intrusive_storage) :
  block_inv N b ->
  copy N b (size b) = (Segmented.readable b, size b).
Proof.
  intros Hb. pose proof (size_of_block N N_size_t b Hb) as Hs.
  destruct Hb as (H0 & H1 & H2). unfold is_size_t in *.
  unfold copy, Segmented.readable.
  rewrite (size_sub_small N (read_offset b)) by (unfold is_size_t; lia).
  destruct (Z.gtb_spec (N - read_offset b) (size b)) as [E|E]; [reflexivity|].
  replace (N - read_offset b) with (size b) by lia. reflexivity.
Qed.

Lemma write_nothing (b : intrusive_storage) (source : list byte) :
  block_inv N b -> write_offset b = N \/ source = [] ->
  write N b source = (b, 0).
Proof.
  intros (H0 & H1 & H2) Hc. unfold is_size_t in *.
  assert (Hk : (if size_sub N (write_offset b) >? len source
                then len source else size_sub N (write_offset b)) = 0).
  { rewrite (size_sub_small N (write_offset b)) by (unfold is_size_t; lia).
    pose proof (len_nonneg source).
    destruct Hc as [Hc | Hc].
    - rewrite Hc, Z.sub_diag.
      destruct (Z.gtb_spec 0 (len source)) as [E|E]; [lia|reflexivity].
    - subst source. change (len []) with 0.
      destruct (Z.gtb_spec (N - write_offset b) 0) as [E|E]; [reflexivity|lia]. }
  unfold write. rewrite Hk. f_equal.
  destruct b as [ro wo st]. cbn [read_offset write_offset storage] in *.
  f_equal.
  - rewrite size_add_small by (unfold is_size_t; lia). lia.
  - unfold memcpy. cbn [firstn Z.to_nat length app].
    rewrite Nat.add_0_r. apply firstn_skipn.
Qed.

End BlockQueue.

(** X1.  Writing to a storage block copies as many bytes of the source
    as the free space allows and returns that number; the readable
    bytes grow by exactly the bytes copied, appended after the ones
    that were readable before, and the free space shrinks by as much. *)
Theorem storage_write_appends
  (N : Z) (b : Storage.intrusive_storage) (source : list byte) :
  is_size_t N -> Storage.block_inv N b -> Storage.storage_ok N b ->
  let b' := fst (Storage.write N b source) in
  let written := snd (Storage.write N b source) in
  written = Z.min (Storage.free N b) (len source)
  /\ Storage.size b' = Storage.size b + written
  /\ Storage.free N b' = Storage.free N b - written
  /\ Storage.read_offset b' = Storage.read_offset b
  /\ fst (Storage.copy N b' (Storage.size b'))
     = fst (Storage.copy N b (Storage.size b))
       ++ firstn (Z.to_nat written) source.
Proof.
  intros HN Hb Hst. cbv zeta.
  pose proof (block_write N HN b source (conj Hb Hst)) as Hw. cbv zeta in Hw.
  destruct Hw as (Hk & (Hb' & Hst') & Hro & Hwo & Hrd).
  pose proof (free_of_block N HN b Hb) as Hf.
  pose proof (free_of_block N HN _ Hb') as Hf'.
  pose proof (size_of_block N HN b Hb) as Hs.
  pose proof (size_of_block N HN _ Hb') as Hs'.
  rewrite (copy_all N HN _ Hb'), (copy_all N HN b Hb). cbn [fst].
  rewrite Hf', Hs', Hf, Hs, Hro, Hwo, Hk.
  repeat split; try lia. exact Hrd.
Qed.

Lemma storage_write_appends_witness :
  Storage.size (fst (Storage.write 4 block_0_2 four_bytes)) = 2 + 2
  /\ fst (Storage.copy 4 (fst (Storage.write 4 block_0_2 four_bytes)) 4)
     = [Byte.x61; Byte.x62] ++ [Byte.x61; Byte.x62].
Proof.
  pose proof (storage_write_appends 4 block_0_2 four_bytes) as H.
  cbv zeta in H.
  destruct H as (_ & Hs & _ & _ & Hc).
  - unfold is_size_t. vm_compute. split; [discriminate | reflexivity].
  - unfold Storage.block_inv. cbn. lia.
  - reflexivity.
  - split; [exact Hs | exact Hc].
Defined.

Section BlockDrain.

Import Storage.

Variable N : Z.
Hypothesis N_size_t : is_size_t N.

(** Reading everything that is readable, with or without the
    optimisation that rewinds an emptied block. *)
Lemma read_all (b : intrusive_storage) (allow_optimise : bool) :
  Segmented.block_ok N b ->
  read N b (size b) allow_optimise
  = ((if allow_optimise then clear b
      else {| read_offset := write_offset b;
              write_offset := write_offset b;
              storage := storage b |}),
     (Segmented.readable b, size b)).
Proof.
  intros (Hb & Hst).
  pose proof (size_of_block N N_size_t b Hb) as Hs.
  unfold read. rewrite (copy_all N N_size_t b Hb).
  destruct Hb as (H0 & H1 & H2). unfold is_size_t in *.
  cbn [read_offset write_offset].
  rewrite size_add_small by (unfold is_size_t; lia).
  replace (read_offset b + size b) with (write_offset b) by lia.
  rewrite Z.eqb_refl. cbn [andb].
  destruct allow_optimise; reflexivity.
Qed.

Lemma skip_all (b : intrusive_storage) :
  block_inv N b -> skip N b (size b) true = (clear b, size b).
Proof.
  intros Hb. pose proof (size_of_block N N_size_t b Hb) as Hs.
  destruct Hb as (H0 & H1 & H2). unfold is_size_t in *.
  unfold skip.
  rewrite (size_sub_small N (read_offset b)) by (unfold is_size_t; lia).
  assert (Hk : (if N - read_offset b >? size b then size b
                else N - read_offset b) = size b).
  { destruct (Z.gtb_spec (N - read_offset b) (size b)); lia. }
  rewrite Hk. cbn [read_offset write_offset].
  rewrite size_add_small by (unfold is_size_t; lia).
  replace (read_offset b + size b) with (write_offset b) by lia.
  rewrite Z.eqb_refl. reflexivity.
Qed.

End BlockDrain.

(** X2.  A storage block is a first-in first-out queue: after a write
    that fits in the free space, reading all the readable bytes hands
    back the bytes that were readable before followed by the bytes
    written, and leaves the block empty. *)
Theorem storage_write_then_read
  (N : Z) (b : Storage.intrusive_storage) (source : list byte)
  (allow_optimise : bool) :
  is_size_t N -> Storage.block_inv N b -> Storage.storage_ok N b ->
  len source <= Storage.free N b ->
  let b1 := fst (Storage.write N b source) in
  let res := Storage.read N b1 (Storage.size b1) allow_optimise in
  snd (Storage.write N b source) = len source
  /\ snd res = (fst (Storage.copy N b (Storage.size b)) ++ source,
                Storage.size b + len source)
  /\ Storage.size (fst res) = 0.
Proof.
  intros HN Hb Hst Hfit. cbv zeta.
  pose proof (block_write N HN b source (conj Hb Hst)) as Hw. cbv zeta in Hw.
  destruct Hw as (Hk & Hok' & Hro & Hwo & Hrd).
  pose proof (free_of_block N HN b Hb) as Hf.
  pose proof (len_nonneg source) as Hl.
  assert (Hmin : Z.min (N - Storage.write_offset b) (len source) = len source)
    by lia.
  rewrite Hmin in *.
  rewrite (read_all N HN _ allow_optimise Hok').
  rewrite (copy_all N HN b Hb). cbn [fst snd].
  rewrite Hrd, firstn_all2 by (unfold len in *; lia).
  pose proof (size_of_block N HN b Hb) as Hs.
  pose proof (size_of_block N HN _ (proj1 Hok')) as Hs'.
  rewrite Hs', Hro, Hwo, Hs.
  split; [exact Hk|]. split; [f_equal; lia|].
  destruct allow_optimise; unfold Storage.size, Storage.clear;
    cbn [Storage.read_offset Storage.write_offset];
    unfold size_sub, wrap; rewrite Z.sub_diag; reflexivity.
Qed.

Lemma storage_write_then_read_witness :
  snd (Storage.read 4 (fst (Storage.write 4 block_2_2 two_bytes))
         (Storage.size (fst (Storage.write 4 block_2_2 two_bytes))) true)
  = (two_bytes, 2).
Proof.
  pose proof (storage_write_then_read 4 block_2_2 two_bytes true) as H.
  cbv zeta in H.
  destruct H as (_ & Hr & _).
  - unfold is_size_t. vm_compute. split; [discriminate | reflexivity].
  - unfold Storage.block_inv. cbn. lia.
  - reflexivity.
  - vm_compute. discriminate.
  - exact Hr.
Defined.

(** X3.  Draining a storage block with [allow_optimise] rewinds both
    cursors, so the whole capacity is free again; without it a read or a
    skip never gives space back to the writer. *)
Theorem storage_drain_reclaims (N : Z) (b : Storage.intrusive_storage) :
  is_size_t N -> Storage.block_inv N b -> Storage.storage_ok N b ->
  fst (Storage.read N b (Storage.size b) true) = Storage.clear b
  /\ fst (Storage.skip N b (Storage.size b) true) = Storage.clear b
  /\ Storage.free N (Storage.clear b) = N
  /\ Storage.size (Storage.clear b) = 0
  /\ (forall n, Storage.free N (fst (Storage.read N b n false))
                = Storage.free N b)
  /\ (forall n, Storage.free N (fst (Storage.skip N b n false))
                = Storage.free N b).
Proof.
  intros HN Hb Hst.
  rewrite (read_all N HN b true (conj Hb Hst)), (skip_all N HN b Hb).
  cbn [fst].
  split; [reflexivity|]. split; [reflexivity|].
  split; [|split; [|split]].
  - unfold Storage.free, Storage.clear, size_sub.
    cbn [Storage.write_offset].
    rewrite Z.sub_0_r. apply wrap_small. exact HN.
  - reflexivity.
  - intros n. unfold Storage.read, Storage.copy. cbn [fst andb].
    rewrite andb_false_r. reflexivity.
  - intros n. unfold Storage.skip. cbn [fst]. rewrite andb_false_r.
    reflexivity.
Qed.

Lemma storage_drain_reclaims_witness :
  fst (Storage.read 4 block_0_2 (Storage.size block_0_2) true)
  = Storage.clear block_0_2
  /\ Storage.free 4 (Storage.clear block_0_2) = 4.
Proof.
  pose proof (storage_drain_reclaims 4 block_0_2) as H.
  destruct H as (Hr & _ & Hf & _).
  - unfold is_size_t. vm_compute. split; [discriminate | reflexivity].
  - unfold Storage.block_inv. cbn. lia.
  - reflexivity.
  - split; [exact Hr | exact Hf].
Defined.

(** X4.  A full storage block takes nothing: [write] and [advance_write]
    return 0 and leave the block as it was, as does a write of an empty
    source; a block whose read cursor has reached the capacity hands out
    nothing, whatever length is asked for. *)
Theorem storage_full_block_transfers_nothing
  (N : Z) (b : Storage.intrusive_storage) :
  is_size_t N -> Storage.block_inv N b ->
  (forall source, Storage.write_offset b = N \/ source = [] ->
     Storage.write N b source = (b, 0))
  /\ (Storage.write_offset b = N ->
      forall n, 0 <= n -> Storage.advance_write N b n = (b, 0))
  /\ (Storage.read_offset b = N ->
      forall n allow_optimise, 0 <= n ->
        snd (Storage.read N b n allow_optimise) = ([], 0)
        /\ snd (Storage.skip N b n allow_optimise) = 0).
Proof.
  intros HN Hb. split; [|split].
  - intros source Hc. apply (write_nothing N HN b source Hb Hc).
  - intros Hfull n Hn. destruct Hb as (H0 & H1 & H2).
    unfold Storage.advance_write, Storage.free, size_sub.
    rewrite Hfull, Z.sub_diag. change (wrap 0) with 0.
    assert (Hk : (if 0 <? n then 0 else n) = 0).
    { destruct (Z.ltb_spec 0 n); lia. }
    rewrite Hk. destruct b as [ro wo st].
    cbn [Storage.read_offset Storage.write_offset Storage.storage] in *.
    subst wo. rewrite size_add_small by (rewrite Z.add_0_r; exact HN).
    rewrite Z.add_0_r. reflexivity.
  - intros Hend n allow_optimise Hn.
    unfold Storage.read, Storage.skip, Storage.copy, size_sub.
    rewrite Hend, Z.sub_diag. change (wrap 0) with 0.
    assert (Hk : (if 0 >? n then n else 0) = 0).
    { destruct (Z.gtb_spec 0 n); lia. }
    rewrite Hk. split; reflexivity.
Qed.

Lemma storage_full_block_transfers_nothing_witness :
  Storage.write 4 block_4_4 two_bytes = (block_4_4, 0)
  /\ snd (Storage.read 4 block_4_4 1 false) = ([], 0).
Proof.
  pose proof (storage_full_block_transfers_nothing 4 block_4_4) as H.
  destruct H as (Hw & _ & Hr).
  - unfold is_size_t. vm_compute. split; [discriminate | reflexivity].
  - unfold Storage.block_inv. cbn. lia.
  - split.
    + apply Hw. left. reflexivity.
    + apply (Hr eq_refl 1 false). lia.
Defined.

(** X5.  The two ways of moving a cursor agree: [skip] leaves the block
    as [read] does and returns the number of bytes [read] and [copy]
    hand out, and [advance_write] moves the write cursor as far as a
    [write] of that many bytes does. *)
Theorem storage_cursor_moves_agree
  (N : Z) (b : Storage.intrusive_storage) (n : Z) (allow_optimise : bool)
  (source : list byte) :
  Storage.read N b n allow_optimise
  = (fst (Storage.skip N b n allow_optimise),
     (fst (Storage.copy N b n), snd (Storage.skip N b n allow_optimise)))
  /\ snd (Storage.copy N b n) = snd (Storage.skip N b n allow_optimise)
  /\ snd (Storage.advance_write N b (len source))
     = snd (Storage.write N b source)
  /\ Storage.write_offset (fst (Storage.advance_write N b (len source)))
     = Storage.write_offset (fst (Storage.write N b source))
  /\ Storage.read_offset (fst (Storage.advance_write N b (len source)))
     = Storage.read_offset (fst (Storage.write N b source)).
Proof.
  assert (Hsame :
    (if Storage.free N b <? len source then Storage.free N b else len source)
    = (if size_sub N (Storage.write_offset b) >? len source
       then len source else size_sub N (Storage.write_offset b))).
  { unfold Storage.free.
    destruct (Z.ltb_spec (size_sub N (Storage.write_offset b)) (len source));
      destruct (Z.gtb_spec (size_sub N (Storage.write_offset b)) (len source));
      lia. }
  unfold Storage.read, Storage.skip, Storage.copy, Storage.advance_write,
    Storage.write.
  cbn [fst snd Storage.read_offset Storage.write_offset].
  rewrite Hsame. repeat split.
Qed.

(** X6.  Relative write seeks undo each other: seeking forward and then
    backward by the same offset, or backward and then forward, restores
    the block, also when the offset in between wraps around. *)
Theorem storage_write_seek_inverse
  (b : Storage.intrusive_storage) (offset : Z) :
  is_size_t (Storage.write_offset b) ->
  Storage.write_seek (Storage.write_seek b sk_forward offset)
    sk_backward offset = b
  /\ Storage.write_seek (Storage.write_seek b sk_backward offset)
       sk_forward offset = b
  /\ Storage.write_seek (Storage.write_seek b sk_absolute offset)
       sk_absolute (Storage.write_offset b) = b.
Proof.
  intros Hwo. destruct b as [ro wo st].
  unfold Storage.write_seek, size_add, size_sub, wrap.
  cbn [Storage.read_offset Storage.write_offset Storage.storage] in *.
  rewrite Zminus_mod_idemp_l, Zplus_mod_idemp_l.
  replace (wo + offset - offset) with wo by lia.
  replace (wo - offset + offset) with wo by lia.
  rewrite (Z.mod_small wo) by exact Hwo.
  repeat split.
Qed.

Lemma storage_write_seek_inverse_witness :
  Storage.write_seek (Storage.write_seek block_0_2 sk_backward 3)
    sk_forward 3 = block_0_2.
Proof.
  pose proof (storage_write_seek_inverse block_0_2 3) as H.
  destruct H as (_ & H & _).
  - unfold is_size_t. vm_compute. split; [discriminate | reflexivity].
  - exact H.
Defined.

(** ** What a pmc reader consumes *)

Section ReaderConsumption.

Import Pmc Pmc.Reader.

(** The three ways the bounds policy can answer on a reader in state [ok]. *)
Lemma bounds_enforce_cases {A : Type} (n : Z) (ret_var : A)
  (rest : op binary_stream_reader A) (r : binary_stream_reader) :
  state r = ok ->
  (exists st e,
      STREAM_READ_BOUNDS_ENFORCE n ret_var rest r
      = (set_state r st, refused r e ret_var)
      /\ (st = buff_limit_err \/ st = read_limit_err)
      /\ (n > size r
          \/ (read_limit_ r <> 0
              /\ n > size_sub (read_limit_ r) (total_read_ r))))
  \/ (n <= size r
      /\ (read_limit_ r = 0 \/ n <= size_sub (read_limit_ r) (total_read_ r))
      /\ STREAM_READ_BOUNDS_ENFORCE n ret_var rest r
         = rest (set_total_read r (size_add (total_read_ r) n))).
Proof.
  intros Hs.
  destruct (Z_gt_le_dec n (size r)) as [Hu | Hfit].
  - left. exists buff_limit_err. eexists. split; [|split].
    + apply bounds_enforce_underrun; assumption.
    + left. reflexivity.
    + left. exact Hu.
  - destruct (Z.eq_dec (read_limit_ r) 0) as [HL | HL].
    + right. split; [exact Hfit|]. split; [left; exact HL|].
      apply bounds_enforce_pass; [assumption | assumption | left; exact HL].
    + destruct (Z_gt_le_dec n (size_sub (read_limit_ r) (total_read_ r)))
        as [Hx | Hin].
      * left. exists read_limit_err. eexists. split; [|split].
        -- apply bounds_enforce_limit; assumption.
        -- right. reflexivity.
        -- right. split; assumption.
      * right. split; [exact Hfit|]. split; [right; exact Hin|].
        apply bounds_enforce_pass; [assumption | assumption | right; exact Hin].
Qed.

Variable source : list byte.
Variable L : Z.
Hypothesis source_size_t : is_size_t (len source).
Hypothesis L_size_t : is_size_t L.

Lemma set_state_consumed (r : binary_stream_reader) (st : stream_state) :
  reader_consumed source L r -> reader_consumed source L (set_state r st).
Proof. intros H. exact H. Qed.

Lemma enforce_consumed {A : Type} (n : Z) (ret_var : A)
  (rest : op binary_stream_reader A) (r : binary_stream_reader) :
  0 <= n -> takes n rest -> reader_consumed source L r ->
  reader_consumed source L (fst (STREAM_READ_BOUNDS_ENFORCE n ret_var rest r)).
Proof.
  intros Hn Hrest Hinv.
  destruct (stream_state_eqb (state r) ok) eqn:Hst.
  - apply stream_state_eqb_eq in Hst.
    destruct (bounds_enforce_cases n ret_var rest r Hst)
      as [(st & e & Heq & _) | (Hfit & Hlim & Heq)];
      rewrite Heq; cbn [fst].
    + apply set_state_consumed. exact Hinv.
    + destruct Hinv as (HL & Ht & Hb & Hle).
      unfold size, Buffer.size in Hfit.
      assert (Hlen : len (rbuffer_ r) = len source - total_read_ r).
      { rewrite Hb. apply len_skipn. exact Ht. }
      unfold is_size_t in *.
      assert (Hadd : size_add (total_read_ r) n = total_read_ r + n).
      { apply size_add_small. unfold is_size_t. lia. }
      specialize (Hrest (set_total_read r (size_add (total_read_ r) n))).
      cbn [set_total_read rbuffer_ total_read_ read_limit_ rbase] in Hrest.
      destruct Hrest as (Ht' & HL' & _ & Hb'); [lia|].
      unfold reader_consumed. rewrite Ht', HL', Hb', Hadd.
      split; [exact HL|]. split; [lia|]. split.
      * rewrite Hb. rewrite skipn_skipn_Z by lia. reflexivity.
      * intros HL0. destruct Hlim as [H0 | Hin]; [congruence|].
        rewrite HL in Hin.
        rewrite size_sub_small in Hin by (unfold is_size_t; specialize (Hle HL0); lia).
        lia.
  - rewrite bounds_enforce_poisoned; [exact Hinv|].
    intros Hok. rewrite Hok in Hst. discriminate.
Qed.

Lemma buffer_read_takes (n : Z) : takes n (buffer_read n).
Proof. intros r Hn. unfold buffer_read, Buffer.read. cbn. repeat split. Qed.

Lemma buffer_skip_takes (n : Z) : takes n (buffer_skip n).
Proof. intros r Hn. unfold buffer_skip, Buffer.skip. cbn. repeat split. Qed.

Lemma read_then_takes {A : Type} (n : Z) (k : list byte -> A) :
  takes n (dest <- buffer_read n ;; ret (k dest))%op.
Proof.
  intros r Hn. unfold bind, buffer_read, Buffer.read, ret. cbn.
  repeat split.
Qed.

Lemma safe_read_consumed {A : Type} (n : Z) (ret_var : A)
  (k : list byte -> A) (r : binary_stream_reader) :
  0 <= n -> reader_consumed source L r ->
  reader_consumed source L
    (fst (SAFE_READ n ret_var (fun dest => ret (k dest)) r)).
Proof.
  intros Hn Hinv. unfold SAFE_READ.
  apply enforce_consumed; [exact Hn | apply read_then_takes | exact Hinv].
Qed.

Lemma le_combine_nonneg (bs : list byte) : 0 <= le_combine bs.
Proof. pose proof (le_combine_bound bs). lia. Qed.

Lemma find_first_of_in_range (b : list byte) (v : byte) (pos : Z) :
  Buffer.find_first_of b v = Some pos -> 0 <= pos < len b.
Proof.
  intros H. apply find_first_of_found in H.
  destruct H as (pre & post & Hb & _ & Hpos). subst b pos.
  rewrite len_app. unfold len. cbn [length]. lia.
Qed.

Lemma exec_consumed (c : call) (r : binary_stream_reader) :
  reader_arguments_in_range c ->
  reader_consumed source L r -> reader_consumed source L (exec c r).
Proof.
  intros Hc Hinv.
  destruct c as [b | width | sizeof | | | | |];
    cbn [exec reader_arguments_in_range] in *.
  - destruct b as [sz n | n | n | k];
      cbn [exec_bounded requested] in *; unfold is_size_t in Hc.
    + unfold get. apply (safe_read_consumed _ _ (fun d => d)); [lia | exact Hinv].
    + unfold get_string.
      apply enforce_consumed; [lia | apply buffer_read_takes | exact Hinv].
    + unfold skip.
      apply enforce_consumed; [lia | apply buffer_skip_takes | exact Hinv].
    + unfold shr_pod. apply (safe_read_consumed _ _ (fun d => d));
        [apply len_nonneg | exact Hinv].
  - unfold shr_le. apply safe_read_consumed; [lia | exact Hinv].
  - unfold shr_pod. apply (safe_read_consumed _ _ (fun d => d));
      [apply len_nonneg | exact Hinv].
  - unfold get_uint8. apply safe_read_consumed; [lia | exact Hinv].
  - unfold shr_prefixed_string. unfold bind at 1.
    pose proof (safe_read_consumed (Z.of_nat 4) 0 le_combine r
                  ltac:(lia) Hinv) as H1.
    fold (shr_le 4 0) in H1.
    assert (Hval : forall r1 v, shr_le 4 0 r = (r1, Returned v) -> 0 <= v).
    { intros r1 v Heq. unfold shr_le, SAFE_READ in Heq.
      destruct (stream_state_eqb (state r) ok) eqn:Hst.
      - apply stream_state_eqb_eq in Hst.
        destruct (bounds_enforce_cases (Z.of_nat 4) 0
                    (dest <- buffer_read (Z.of_nat 4) ;; ret (le_combine dest))%op
                    r Hst)
          as [(st & e & Heq' & _) | (_ & _ & Heq')];
          rewrite Heq' in Heq.
        + unfold refused in Heq. destruct (allow_throw r); [discriminate|].
          injection Heq as _ Hv. lia.
        + unfold bind, buffer_read, Buffer.read, ret in Heq. cbn in Heq.
          injection Heq as _ Hv. subst v. apply le_combine_nonneg.
      - rewrite bounds_enforce_poisoned in Heq.
        + injection Heq as _ Hv. lia.
        + intros Hok. rewrite Hok in Hst. discriminate. }
    destruct (shr_le 4 0 r) as [r1 [v | e | |]] eqn:Heq; cbn [fst] in *;
      try exact H1.
    destruct (negb (stream_state_eqb (state r1) ok)); cbn [fst]; [exact H1|].
    apply enforce_consumed;
      [apply (Hval r1 v eq_refl) | apply buffer_read_takes | exact H1].
  - unfold shr_null_terminated_string.
    destruct (Buffer.find_first_of (rbuffer_ r) Byte.x00) as [pos|] eqn:Hf;
      [|exact Hinv].
    apply find_first_of_in_range in Hf.
    assert (Hlen : len (rbuffer_ r) <= len source).
    { destruct Hinv as (_ & Ht & Hb & _). rewrite Hb, len_skipn by exact Ht. lia. }
    unfold is_size_t in *.
    rewrite size_add_small by (unfold is_size_t; lia).
    apply enforce_consumed; [lia | | exact Hinv].
    intros r1 Hn. unfold bind, buffer_read, buffer_skip, Buffer.read,
      Buffer.skip, ret.
    cbn [fst set_buffer rbuffer_ total_read_ read_limit_ rbase].
    repeat split. rewrite skipn_skipn_Z by lia. reflexivity.
  - exact Hinv.
  - exact Hinv.
Qed.

Lemma make_consumed (throwing : bool) :
  reader_consumed source L (make source throwing L).
Proof.
  unfold reader_consumed, make. cbn.
  pose proof (len_nonneg source). unfold is_size_t in *.
  repeat split; lia.
Qed.

Lemma run_consumed (cs : list call) :
  forall r : binary_stream_reader,
    Forall reader_arguments_in_range cs ->
    reader_consumed source L r -> reader_consumed source L (run cs r).
Proof.
  induction cs as [|c cs IH]; intros r Hcs Hinv; cbn [run]; [exact Hinv|].
  inversion Hcs as [|? ? Hc Hcs']; subst.
  apply IH; [exact Hcs'|]. apply exec_consumed; assumption.
Qed.

End ReaderConsumption.

(** X7.  A pmc reader counts what it consumes: after any sequence of
    reads, string extractions and error-state calls on a reader built
    over a buffer, the buffer holds the source without its first
    [total_read] bytes.  Refused reads take nothing and count nothing. *)
Theorem reader_consumes_what_it_counts
  (source : list byte) (throwing : bool) (L : Z) (cs : list Pmc.Reader.call) :
  is_size_t (len source) -> is_size_t L ->
  Forall reader_arguments_in_range cs ->
  let r := Pmc.Reader.run cs (Pmc.Reader.make source throwing L) in
  0 <= Pmc.Reader.total_read r <= len source
  /\ Pmc.rbuffer_ r = skipn (Z.to_nat (Pmc.Reader.total_read r)) source
  /\ len source - len (Pmc.rbuffer_ r) = Pmc.Reader.total_read r.
Proof.
  intros Hsrc HL Hcs r.
  pose proof (run_consumed source L Hsrc HL cs _ Hcs
                (make_consumed source L Hsrc HL throwing)) as Hinv.
  fold r in Hinv. destruct Hinv as (_ & Ht & Hb & _).
  unfold Pmc.Reader.total_read.
  split; [exact Ht|]. split; [exact Hb|].
  rewrite Hb, len_skipn by exact Ht. lia.
Qed.

Lemma reader_consumes_what_it_counts_witness :
  Forall reader_arguments_in_range refused_then_read
  /\ Pmc.rbuffer_ (Pmc.Reader.run refused_then_read
                     (Pmc.Reader.make two_bytes false 0))
     = skipn
         (Z.to_nat
            (Pmc.Reader.total_read
               (Pmc.Reader.run refused_then_read
                  (Pmc.Reader.make two_bytes false 0))))
         two_bytes
  /\ Pmc.Reader.total_read
       (Pmc.Reader.run refused_then_read (Pmc.Reader.make two_bytes false 0))
     = 1.
Proof.
  assert (Hargs : Forall reader_arguments_in_range refused_then_read).
  { apply Forall_cons; [|repeat constructor].
    unfold reader_arguments_in_range, is_size_t. vm_compute.
    split; [discriminate | reflexivity]. }
  split; [exact Hargs|].
  pose proof (reader_consumes_what_it_counts two_bytes false 0
                refused_then_read) as H.
  cbv zeta in H. destruct H as (_ & Hb & _).
  - unfold is_size_t. vm_compute. split; [discriminate | reflexivity].
  - unfold is_size_t. vm_compute. split; [discriminate | reflexivity].
  - exact Hargs.
  - split; [exact Hb | reflexivity].
Defined.

(** X8.  A pmc reader built with a non-zero read limit never takes more
    than the limit from its buffer, whatever calls are made on it:
    bounded reads, prefixed and null-terminated string extractions, and
    clearing or setting the error state in between. *)
Theorem reader_never_passes_read_limit
  (source : list byte) (throwing : bool) (L : Z) (cs : list Pmc.Reader.call) :
  is_size_t (len source) -> is_size_t L -> L <> 0 ->
  Forall reader_arguments_in_range cs ->
  let r := Pmc.Reader.run cs (Pmc.Reader.make source throwing L) in
  Pmc.Reader.read_limit r = L
  /\ Pmc.Reader.total_read r <= L
  /\ len source - len (Pmc.rbuffer_ r) <= L.
Proof.
  intros Hsrc HL HL0 Hcs r.
  pose proof (run_consumed source L Hsrc HL cs _ Hcs
                (make_consumed source L Hsrc HL throwing)) as Hinv.
  fold r in Hinv. destruct Hinv as (Hlim & Ht & Hb & Hle).
  specialize (Hle HL0). unfold Pmc.Reader.total_read, Pmc.Reader.read_limit.
  split; [exact Hlim|]. split; [exact Hle|].
  rewrite Hb, len_skipn by exact Ht. lia.
Qed.

Lemma reader_never_passes_read_limit_witness :
  len four_bytes
  - len (Pmc.rbuffer_
           (Pmc.Reader.run
              [Pmc.Reader.ShrLe 2; Pmc.Reader.GetUint8;
               Pmc.Reader.ClearErrorState; Pmc.Reader.GetUint8]
              (Pmc.Reader.make four_bytes true 2)))
  <= 2.
Proof.
  pose proof (reader_never_passes_read_limit four_bytes true 2
                [Pmc.Reader.ShrLe 2; Pmc.Reader.GetUint8;
                 Pmc.Reader.ClearErrorState; Pmc.Reader.GetUint8]) as H.
  cbv zeta in H. destruct H as (_ & _ & H).
  - unfold is_size_t. vm_compute. split; [discriminate | reflexivity].
  - unfold is_size_t. vm_compute. split; [discriminate | reflexivity].
  - discriminate.
  - repeat constructor.
  - exact H.
Defined.

(** ** The ways a write of a pmc writer can end *)

Section WriterCases.

Import Pmc.

Variable sink_rejects : list byte -> list byte -> bool.

(** The three ways [write] can end. *)
Lemma write_cases (data : list byte) (w : binary_stream_writer) :
  (Writer.state w <> ok /\ Writer.write sink_rejects data w = (w, Returned tt))
  \/ (Writer.state w = ok /\ sink_rejects (wbuffer_ w) data = false
      /\ Writer.write sink_rejects data w
         = ({| wbase := wbase w; wbuffer_ := wbuffer_ w ++ data;
               total_write_ := size_add (total_write_ w) (len data) |},
            Returned tt))
  \/ (Writer.state w = ok /\ sink_rejects (wbuffer_ w) data = true
      /\ Writer.write sink_rejects data w
         = (Writer.set_state w buff_write_err,
            if Writer.allow_throw w then Thrown sink_exception
            else Returned tt)).
Proof.
  unfold Writer.write, Buffer.write.
  destruct (stream_state_eqb (Writer.state w) ok) eqn:Hst.
  - apply stream_state_eqb_eq in Hst.
    destruct (sink_rejects (wbuffer_ w) data) eqn:Hrej.
    + right. right. repeat split; try assumption.
      unfold Writer.allow_throw, Writer.set_state. cbn [wbase allow_throw_].
      destruct (allow_throw_ (wbase w)); reflexivity.
    + right. left. repeat split; assumption.
  - left. split; [|reflexivity].
    intros Hok. rewrite Hok in Hst. discriminate.
Qed.

End WriterCases.

(** X10.  A prefixed write on a pmc writer in state [ok], over a sink
    that takes a write whole or throws before taking any of it, stops at
    the write the sink rejects.  When the sink throws on the four bytes
    of the count, nothing is written or counted, the state becomes
    [buff_write_err] and the payload is not written; when the sink takes
    the count and throws on the payload, the count stays in the buffer
    and is counted, and the state becomes [buff_write_err]; when the sink
    takes both, the buffer holds the count and the payload, both are
    counted and the state stays [ok].  The exception of the sink is
    rethrown in throwing mode and swallowed in non-throwing mode. *)
Theorem prefixed_write_stops_at_rejection
  (sink_rejects : list byte -> list byte -> bool)
  (s : list byte) (w : Pmc.binary_stream_writer) :
  Pmc.Writer.state w = ok ->
  let count := le_split 4 (to_uint32 (len s)) in
  let failed := if Pmc.Writer.allow_throw w then Thrown sink_exception
                else Returned tt in
  (sink_rejects (Pmc.wbuffer_ w) count = true ->
   Pmc.Writer.shl_prefixed sink_rejects s w
   = (Pmc.Writer.set_state w buff_write_err, failed))
  /\ (sink_rejects (Pmc.wbuffer_ w) count = false ->
      sink_rejects (Pmc.wbuffer_ w ++ count) s = true ->
      Pmc.Writer.shl_prefixed sink_rejects s w
      = (Pmc.Writer.set_state
           {| Pmc.wbase := Pmc.wbase w;
              Pmc.wbuffer_ := Pmc.wbuffer_ w ++ count;
              Pmc.total_write_ := size_add (Pmc.total_write_ w) 4 |}
           buff_write_err,
         failed))
  /\ (sink_rejects (Pmc.wbuffer_ w) count = false ->
      sink_rejects (Pmc.wbuffer_ w ++ count) s = false ->
      Pmc.Writer.shl_prefixed sink_rejects s w
      = ({| Pmc.wbase := Pmc.wbase w;
            Pmc.wbuffer_ := (Pmc.wbuffer_ w ++ count) ++ s;
            Pmc.total_write_ :=
              size_add (size_add (Pmc.total_write_ w) 4) (len s) |},
         Returned tt)).
Proof.
  intros Hok. cbv zeta.
  unfold Pmc.Writer.shl_prefixed, Pmc.Writer.write_container, bind.
  set (count := le_split 4 (to_uint32 (len s))).
  assert (Hc : len count = 4).
  { unfold len, count. rewrite length_le_split. reflexivity. }
  split; [|split].
  - intros Hrej.
    destruct (write_cases sink_rejects count w)
      as [(Hbad & _) | [(_ & Hacc & _) | (_ & _ & Heq)]];
      [congruence | congruence |].
    rewrite Heq.
    destruct (Pmc.Writer.allow_throw w) eqn:Hthrow; [reflexivity|].
    rewrite write_poisoned; [reflexivity|].
    unfold Pmc.Writer.state, Pmc.Writer.set_state. cbn. discriminate.
  - intros Hacc Hrej.
    destruct (write_cases sink_rejects count w)
      as [(Hbad & _) | [(_ & _ & Heq) | (_ & Hrej' & _)]];
      [congruence | | congruence].
    rewrite Heq, Hc.
    set (w1 := {| Pmc.wbase := Pmc.wbase w;
                  Pmc.wbuffer_ := Pmc.wbuffer_ w ++ count;
                  Pmc.total_write_ := size_add (Pmc.total_write_ w) 4 |}).
    assert (Hok1 : Pmc.Writer.state w1 = ok) by exact Hok.
    destruct (write_cases sink_rejects s w1)
      as [(Hbad & _) | [(_ & Hacc1 & _) | (_ & _ & Heq1)]];
      [congruence | unfold w1 in Hacc1; cbn [Pmc.wbuffer_] in Hacc1; congruence |].
    rewrite Heq1. reflexivity.
  - intros Hacc Hacc'.
    destruct (write_cases sink_rejects count w)
      as [(Hbad & _) | [(_ & _ & Heq) | (_ & Hrej' & _)]];
      [congruence | | congruence].
    rewrite Heq, Hc.
    set (w1 := {| Pmc.wbase := Pmc.wbase w;
                  Pmc.wbuffer_ := Pmc.wbuffer_ w ++ count;
                  Pmc.total_write_ := size_add (Pmc.total_write_ w) 4 |}).
    assert (Hok1 : Pmc.Writer.state w1 = ok) by exact Hok.
    destruct (write_cases sink_rejects s w1)
      as [(Hbad & _) | [(_ & _ & Heq1) | (_ & Hrej1 & _)]];
      [congruence | | unfold w1 in Hrej1; cbn [Pmc.wbuffer_] in Hrej1; congruence].
    rewrite Heq1. reflexivity.
Qed.

Lemma prefixed_write_stops_at_rejection_witness :
  Pmc.Writer.state
    (fst (Pmc.Writer.shl_prefixed (sink_of_capacity 5) two_bytes
            (Pmc.Writer.make [] false))) = buff_write_err
  /\ Pmc.wbuffer_
       (fst (Pmc.Writer.shl_prefixed (sink_of_capacity 5) two_bytes
               (Pmc.Writer.make [] false))) = le_split 4 2
  /\ snd (Pmc.Writer.shl_prefixed (sink_of_capacity 5) two_bytes
             (Pmc.Writer.make [] false)) = Returned tt.
Proof.
  pose proof (prefixed_write_stops_at_rejection (sink_of_capacity 5)
                two_bytes (Pmc.Writer.make [] false) eq_refl) as H.
  cbv zeta in H. destruct H as (_ & H & _).
  rewrite H; [repeat split | reflexivity | reflexivity].
Defined.

Section WritesCompose.

Import Pmc.

Variable sink_rejects : list byte -> list byte -> bool.
Hypothesis accepts : forall b d, sink_rejects b d = false.

Lemma write_accepted (data : list byte) (w : binary_stream_writer) :
  Writer.state w = ok ->
  Writer.write sink_rejects data w
  = ({| wbase := wbase w; wbuffer_ := wbuffer_ w ++ data;
        total_write_ := size_add (total_write_ w) (len data) |},
     Returned tt).
Proof.
  intros Hok.
  destruct (write_cases sink_rejects data w)
    as [(Hbad & _) | [(_ & _ & Heq) | (_ & Hrej & _)]].
  - congruence.
  - exact Heq.
  - rewrite accepts in Hrej. discriminate.
Qed.

Lemma put_pods_accepted (range : list (list byte)) :
  forall w : binary_stream_writer,
    Writer.state w = ok -> is_size_t (total_write_ w) ->
    Writer.put_pods sink_rejects range w
    = ({| wbase := wbase w; wbuffer_ := wbuffer_ w ++ concat range;
          total_write_ := size_add (total_write_ w) (len (concat range)) |},
       Returned tt).
Proof.
  unfold Writer.put_pods.
  induction range as [|x range IH]; intros w Hok Ht; cbn [for_each concat].
  - unfold ret. rewrite app_nil_r. change (len []) with 0.
    rewrite size_add_small by (rewrite Z.add_0_r; exact Ht).
    rewrite Z.add_0_r. destruct w. reflexivity.
  - unfold bind, Writer.shl_pod. rewrite write_accepted by exact Hok.
    rewrite IH.
    + cbn [wbase wbuffer_ total_write_]. rewrite <- app_assoc.
      f_equal. f_equal. rewrite len_app. unfold size_add, wrap.
      rewrite Zplus_mod_idemp_l. f_equal. lia.
    + exact Hok.
    + cbn [total_write_]. apply wrap_range.
Qed.

End WritesCompose.

(** X11.  On a sink that accepts every write, a pmc writer adds no
    framing of its own between writes: [put] over a range of PODs leaves
    the writer as one write of the concatenated elements does, and the
    [std::string_view] overload of the null-terminated insertion (the
    characters, then the terminator) as the [std::string] overload (one
    write of both). *)
Theorem writes_concatenate
  (sink_rejects : list byte -> list byte -> bool)
  (range : list (list byte)) (s : list byte) (w : Pmc.binary_stream_writer) :
  (forall b d, sink_rejects b d = false) ->
  Pmc.Writer.state w = ok -> is_size_t (Pmc.Writer.total_write w) ->
  Pmc.Writer.put_pods sink_rejects range w
  = Pmc.Writer.write sink_rejects (concat range) w
  /\ Pmc.Writer.shl_null_terminated_string_view sink_rejects s w
     = Pmc.Writer.shl_null_terminated_string sink_rejects s w
  /\ Pmc.wbuffer_ (fst (Pmc.Writer.put_pods sink_rejects range w))
     = Pmc.wbuffer_ w ++ concat range.
Proof.
  intros Hacc Hok Ht. unfold Pmc.Writer.total_write in Ht.
  rewrite (put_pods_accepted sink_rejects Hacc range w Hok Ht).
  rewrite (write_accepted sink_rejects Hacc (concat range) w Hok).
  split; [reflexivity|]. split; [|reflexivity].
  unfold Pmc.Writer.shl_null_terminated_string_view,
    Pmc.Writer.shl_null_terminated_string, bind, asserting.
  destruct (Pmc.Writer.no_terminator_in s); [|reflexivity].
  rewrite (write_accepted sink_rejects Hacc s w Hok).
  rewrite !(write_accepted sink_rejects Hacc) by exact Hok.
  cbn [Pmc.wbase Pmc.wbuffer_ Pmc.total_write_].
  rewrite <- app_assoc, len_app. f_equal. f_equal.
  unfold size_add, wrap. rewrite Zplus_mod_idemp_l. f_equal. lia.
Qed.

Lemma writes_concatenate_witness :
  Pmc.Writer.put_pods accepting_sink [hi; yo] (Pmc.Writer.make [] true)
  = Pmc.Writer.write accepting_sink (hi ++ yo) (Pmc.Writer.make [] true).
Proof.
  pose proof (writes_concatenate accepting_sink [hi; yo] []
                (Pmc.Writer.make [] true)) as H.
  destruct H as (H & _).
  - reflexivity.
  - reflexivity.
  - unfold is_size_t. vm_compute. split; [discriminate | reflexivity].
  - exact H.
Defined.

(** ** What a pmc writer produces *)

Section WriterProduction.

Import Pmc.

Variable sink_rejects : list byte -> list byte -> bool.
Hypothesis accepts : forall b d, sink_rejects b d = false.

Lemma wrap_add_wrap (a b c : Z) : wrap (wrap (a + b) + c) = wrap (a + (b + c)).
Proof.
  unfold wrap. rewrite Zplus_mod_idemp_l. f_equal. lia.
Qed.

(** One call against the reference: what it appends and counts, and the
    state it leaves for the calls that follow. *)
Lemma exec_produces (c : Writer.call) (w : binary_stream_writer) :
  Writer.assertion_holds c -> is_size_t (total_write_ w) ->
  let good := stream_state_eqb (Writer.state w) ok in
  let bytes := if good then bytes_of_call c else [] in
  wbuffer_ (Writer.exec sink_rejects c w) = wbuffer_ w ++ bytes
  /\ total_write_ (Writer.exec sink_rejects c w)
     = wrap (total_write_ w + len bytes)
  /\ stream_state_eqb (Writer.state (Writer.exec sink_rejects c w)) ok
     = match c with
       | Writer.ClearErrorState => true
       | Writer.SetErrorState => false
       | _ => good
       end.
Proof.
  intros Hc Ht. cbv zeta.
  assert (Hsame : wrap (total_write_ w + 0) = total_write_ w)
    by (rewrite Z.add_0_r; apply wrap_small; exact Ht).
  destruct (stream_state_eqb (Writer.state w) ok) eqn:Hst.
  - pose proof Hst as Hst'. apply stream_state_eqb_eq in Hst.
    destruct c as [data | width value | s | s | |];
      cbn [Writer.exec bytes_of_call Writer.assertion_holds] in *.
    + rewrite (write_accepted sink_rejects accepts data w Hst).
      cbn [fst wbuffer_ total_write_ Writer.state wbase].
      split; [reflexivity|]. split; [reflexivity | exact Hst'].
    + unfold Writer.shl_le.
      rewrite (write_accepted sink_rejects accepts _ w Hst).
      cbn [fst wbuffer_ total_write_ Writer.state wbase].
      split; [reflexivity|]. split; [reflexivity | exact Hst'].
    + rewrite (shl_prefixed_accepted sink_rejects s w accepts Hst).
      cbn [fst wbuffer_ total_write_ Writer.state wbase].
      rewrite <- app_assoc, len_app.
      replace (len (le_split 4 (to_uint32 (len s)))) with 4
        by (unfold len; rewrite length_le_split; reflexivity).
      split; [reflexivity|]. split; [apply wrap_add_wrap | exact Hst'].
    + rewrite shl_null_terminated_string_asserted by exact Hc.
      rewrite (write_accepted sink_rejects accepts _ w Hst).
      cbn [fst wbuffer_ total_write_ Writer.state wbase].
      split; [reflexivity|]. split; [reflexivity | exact Hst'].
    + unfold Writer.clear_error_state, Writer.set_state, Writer.state.
      cbn [wbuffer_ total_write_ wbase state_ stream_state_eqb len length].
      rewrite app_nil_r. change (Z.of_nat 0) with 0.
      split; [reflexivity|]. split; [symmetry; exact Hsame | reflexivity].
    + unfold Writer.set_error_state, Writer.set_state, Writer.state.
      cbn [wbuffer_ total_write_ wbase state_ stream_state_eqb len length].
      rewrite app_nil_r. change (Z.of_nat 0) with 0.
      split; [reflexivity|]. split; [symmetry; exact Hsame | reflexivity].
  - assert (Hbad : Writer.state w <> ok)
      by (intros E; rewrite E in Hst; discriminate).
    rewrite app_nil_r. change (len []) with 0. rewrite Hsame.
    destruct c as [data | width value | s | s | |];
      try (rewrite writer_exec_poisoned by (exact Hbad || reflexivity);
           split; [reflexivity|]; split; [reflexivity | exact Hst]);
      cbn [Writer.exec];
      unfold Writer.clear_error_state, Writer.set_error_state,
        Writer.set_state, Writer.state;
      cbn [wbuffer_ total_write_ wbase state_ stream_state_eqb];
      repeat split.
Qed.

Lemma run_produces (cs : list Writer.call) :
  Forall Writer.assertion_holds cs ->
  forall w : binary_stream_writer,
    is_size_t (total_write_ w) ->
    let good := stream_state_eqb (Writer.state w) ok in
    wbuffer_ (Writer.run sink_rejects cs w)
    = wbuffer_ w ++ bytes_expected cs good
    /\ total_write_ (Writer.run sink_rejects cs w)
       = wrap (total_write_ w + len (bytes_expected cs good)).
Proof.
  induction 1 as [|c cs Hc Hcs IH]; intros w Hw; cbv zeta.
  - cbn [Writer.run bytes_expected]. change (len []) with 0.
    rewrite app_nil_r, Z.add_0_r, wrap_small by exact Hw.
    split; reflexivity.
  - cbn [Writer.run].
    destruct (exec_produces c w Hc Hw) as (Hb & Ht & Hg).
    cbv zeta in Hb, Ht, Hg.
    assert (Hw' : is_size_t (total_write_ (Writer.exec sink_rejects c w)))
      by (rewrite Ht; apply wrap_range).
    destruct (IH (Writer.exec sink_rejects c w) Hw') as (Hb' & Ht').
    cbv zeta in Hb', Ht'.
    rewrite Hb', Ht', Hb, Ht, Hg, wrap_add_wrap, <- app_assoc, <- len_app.
    destruct c as [data | width value | s | s | |]; cbn [bytes_expected];
      try (split; reflexivity);
      destruct (stream_state_eqb (Writer.state w) ok);
      cbn [app]; split; reflexivity.
Qed.

End WriterProduction.

(** X9.  On a sink that takes every write whole, a pmc writer leaves in the
    sink exactly the bytes its calls stand for, in the order of the calls,
    and counts exactly these: a block of bytes as it is, an integer as its
    little-endian bytes, a prefixed string or container as the four bytes
    of its length and then its bytes, a null-terminated string as its
    characters and the terminator; the calls made between
    [set_error_state] and the next [clear_error_state] contribute
    nothing.  [total_write] is the number of these bytes, as
    [std::size_t] arithmetic gives it. *)
Theorem writer_produces_what_it_counts
  (sink_rejects : list byte -> list byte -> bool)
  (cs : list Pmc.Writer.call) (dest : list byte) (throwing : bool) :
  (forall b d, sink_rejects b d = false) ->
  Forall Pmc.Writer.assertion_holds cs ->
  let w := Pmc.Writer.run sink_rejects cs (Pmc.Writer.make dest throwing) in
  Pmc.wbuffer_ w = dest ++ bytes_expected cs true
  /\ Pmc.Writer.total_write w = wrap (len (bytes_expected cs true)).
Proof.
  intros Hacc Hcs. cbv zeta.
  destruct (run_produces sink_rejects Hacc cs Hcs
              (Pmc.Writer.make dest throwing)) as (Hb & Ht).
  - unfold is_size_t. vm_compute. split; [discriminate | reflexivity].
  - cbv zeta in Hb, Ht. split; [exact Hb | exact Ht].
Qed.

Lemma writer_produces_what_it_counts_witness :
  Pmc.wbuffer_ (Pmc.Writer.run accepting_sink writes_around_an_error
                  (Pmc.Writer.make [] true))
  = [Byte.x02; Byte.x00; Byte.x00; Byte.x00; Byte.x68; Byte.x69;
     Byte.x79; Byte.x6f; Byte.x00]
  /\ Pmc.Writer.total_write
       (Pmc.Writer.run accepting_sink writes_around_an_error
          (Pmc.Writer.make [] true)) = 9.
Proof.
  pose proof (writer_produces_what_it_counts accepting_sink
                writes_around_an_error [] true) as H.
  cbv zeta in H. destruct H as (Hb & Ht).
  - reflexivity.
  - unfold writes_around_an_error.
    repeat (apply Forall_cons; [cbn; try exact I|]); [|apply Forall_nil].
    intros [H | [H | []]]; discriminate H.
  - split; [exact Hb | exact Ht].
Defined.

(** ** Round trips through a pmc writer and a pmc reader *)

Section ReaderDelivers.

Import Pmc Pmc.Reader.

(** A read the bounds policy allows hands over the front of the buffer. *)
Lemma safe_read_delivers {A : Type} (data rest : list byte) (ret_var : A)
  (k : list byte -> A) (r : binary_stream_reader) :
  state r = ok -> rbuffer_ r = data ++ rest ->
  read_limit_ r = 0
  \/ len data <= size_sub (read_limit_ r) (total_read_ r) ->
  SAFE_READ (len data) ret_var (fun dest => ret (k dest)) r
  = (set_buffer (set_total_read r (size_add (total_read_ r) (len data))) rest,
     Returned (k data)).
Proof.
  intros Hok Hb Hlim. unfold SAFE_READ.
  rewrite bounds_enforce_pass; [| exact Hok | | exact Hlim].
  - unfold bind, buffer_read, Buffer.read, ret.
    cbn [set_total_read rbuffer_]. rewrite Hb.
    rewrite firstn_len_app, skipn_len_app. reflexivity.
  - unfold size, Buffer.size. rewrite Hb, len_app.
    pose proof (len_nonneg rest). lia.
Qed.

Lemma enforce_delivers (data rest dest : list byte) (r : binary_stream_reader) :
  state r = ok -> rbuffer_ r = data ++ rest ->
  read_limit_ r = 0
  \/ len data <= size_sub (read_limit_ r) (total_read_ r) ->
  STREAM_READ_BOUNDS_ENFORCE (len data) dest (buffer_read (len data)) r
  = (set_buffer (set_total_read r (size_add (total_read_ r) (len data))) rest,
     Returned data).
Proof.
  intros Hok Hb Hlim.
  rewrite bounds_enforce_pass; [| exact Hok | | exact Hlim].
  - unfold buffer_read, Buffer.read.
    cbn [set_total_read rbuffer_]. rewrite Hb.
    rewrite firstn_len_app, skipn_len_app. reflexivity.
  - unfold size, Buffer.size. rewrite Hb, len_app.
    pose proof (len_nonneg rest). lia.
Qed.

Lemma len_le_split (width : nat) (value : Z) :
  len (le_split width value) = Z.of_nat width.
Proof. unfold len. rewrite length_le_split. reflexivity. Qed.

Lemma shr_le_delivers (width : nat) (value old : Z) (rest : list byte)
  (r : binary_stream_reader) :
  state r = ok -> rbuffer_ r = le_split width value ++ rest ->
  read_limit_ r = 0
  \/ Z.of_nat width <= size_sub (read_limit_ r) (total_read_ r) ->
  shr_le width old r
  = (set_buffer
       (set_total_read r (size_add (total_read_ r) (Z.of_nat width))) rest,
     Returned (value mod 2 ^ (Z.of_nat width * 8))).
Proof.
  intros Hok Hb Hlim. unfold shr_le.
  rewrite <- (len_le_split width value) in *.
  rewrite (safe_read_delivers (le_split width value) rest) by assumption.
  rewrite le_combine_split, len_le_split. reflexivity.
Qed.

End ReaderDelivers.

(** X12.  An unsigned integer written with the little-endian adaptor
    comes back from the little-endian extraction: the reader returns the
    value modulo [2^(8 * width)], hence the value itself when it fits the
    width, and leaves what follows it in the buffer. *)
Theorem little_endian_round_trip
  (sink_rejects : list byte -> list byte -> bool) (width : nat)
  (value old : Z) (wthrowing rthrowing : bool) (L : Z) :
  (forall b d, sink_rejects b d = false) ->
  L = 0 \/ Z.of_nat width <= L -> is_size_t L ->
  let w := fst (Pmc.Writer.shl_le sink_rejects width value
                  (Pmc.Writer.make [] wthrowing)) in
  let res := Pmc.Reader.shr_le width old
               (Pmc.Reader.make (Pmc.wbuffer_ w) rthrowing L) in
  Pmc.wbuffer_ w = le_split width value
  /\ snd res = Returned (value mod 2 ^ (Z.of_nat width * 8))
  /\ (0 <= value < 2 ^ (Z.of_nat width * 8) -> snd res = Returned value)
  /\ Pmc.rbuffer_ (fst res) = []
  /\ Pmc.Reader.state (fst res) = ok.
Proof.
  intros Hacc Hlim HL. cbv zeta.
  unfold Pmc.Writer.shl_le.
  rewrite (write_accepted sink_rejects Hacc) by reflexivity.
  cbn [fst Pmc.wbuffer_ Pmc.Writer.make app].
  rewrite (shr_le_delivers width value old []).
  - cbn [fst snd Pmc.Reader.set_buffer Pmc.rbuffer_ Pmc.Reader.state
         Pmc.rbase Pmc.Reader.set_total_read Pmc.Reader.make Pmc.state_].
    repeat split. intros Hv. rewrite Z.mod_small by exact Hv. reflexivity.
  - reflexivity.
  - cbn [Pmc.Reader.make Pmc.rbuffer_]. rewrite app_nil_r. reflexivity.
  - cbn [Pmc.Reader.make Pmc.read_limit_ Pmc.total_read_].
    destruct Hlim as [H0 | Hle]; [left; exact H0 | right].
    rewrite size_sub_small by (rewrite Z.sub_0_r; exact HL).
    lia.
Qed.

Lemma little_endian_round_trip_witness :
  snd (Pmc.Reader.shr_le 2 0
         (Pmc.Reader.make
            (Pmc.wbuffer_
               (fst (Pmc.Writer.shl_le accepting_sink 2 513
                       (Pmc.Writer.make [] true))))
            false 2))
  = Returned 513.
Proof.
  pose proof (little_endian_round_trip accepting_sink 2 513 0 true false 2)
    as H.
  cbv zeta in H. destruct H as (_ & _ & H & _).
  - reflexivity.
  - right. vm_compute. discriminate.
  - unfold is_size_t. vm_compute. split; [discriminate | reflexivity].
  - apply H. vm_compute. split; [discriminate | reflexivity].
Defined.

Section ReaderFrames.

Import Pmc Pmc.Reader.

Lemma shr_null_terminated_delivers (pre post dest : list byte)
  (r : binary_stream_reader) :
  ~ In Byte.x00 pre -> is_size_t (len pre + 1) ->
  state r = ok -> rbuffer_ r = pre ++ Byte.x00 :: post ->
  read_limit_ r = 0
  \/ len pre + 1 <= size_sub (read_limit_ r) (total_read_ r) ->
  shr_null_terminated_string dest r
  = (set_buffer
       (set_total_read r (size_add (total_read_ r) (len pre + 1))) post,
     Returned pre).
Proof.
  intros Hpre Hsz Hok Hb Hlim. unfold shr_null_terminated_string.
  rewrite Hb, find_first_of_present by assumption.
  rewrite (size_add_small (len pre) 1) by assumption.
  rewrite bounds_enforce_pass; try assumption.
  - unfold bind, buffer_read, buffer_skip, ret, Buffer.read, Buffer.skip.
    cbn [rbuffer_ set_total_read set_buffer].
    rewrite Hb, firstn_len_app, skipn_len_app. reflexivity.
  - unfold size, Buffer.size. rewrite Hb, len_app.
    unfold len. cbn [length]. lia.
Qed.

(** The limit test of a reader that has room for [n] more bytes. *)
Lemma limit_allows (r : binary_stream_reader) (n m : Z) :
  is_size_t (read_limit_ r) -> 0 <= total_read_ r -> 0 <= n -> 0 <= m ->
  read_limit_ r = 0 \/ total_read_ r + n + m <= read_limit_ r ->
  read_limit_ r = 0 \/ n <= size_sub (read_limit_ r) (total_read_ r).
Proof.
  intros HL Ht Hn Hm [H0 | Hle]; [left; exact H0 | right].
  unfold is_size_t in *.
  rewrite size_sub_small by (unfold is_size_t; lia). lia.
Qed.

Lemma shr_prefixed_string_delivers (x rest dest : list byte)
  (r : binary_stream_reader) :
  state r = ok -> rbuffer_ r = le_split 4 (len x) ++ x ++ rest ->
  len x < 2 ^ 32 -> 0 <= total_read_ r -> is_size_t (read_limit_ r) ->
  is_size_t (total_read_ r + 4 + len x) ->
  read_limit_ r = 0 \/ total_read_ r + 4 + len x <= read_limit_ r ->
  shr_prefixed_string dest r
  = (set_buffer (set_total_read r (total_read_ r + 4 + len x)) rest,
     Returned x).
Proof.
  intros Hok Hb Hx Ht HL Hsz Hlim.
  pose proof (len_nonneg x) as Hx0. unfold is_size_t in *.
  unfold shr_prefixed_string. unfold bind at 1.
  rewrite (shr_le_delivers 4 (len x) 0 (x ++ rest) r Hok Hb).
  - change (Z.of_nat 4) with 4.
    rewrite Z.mod_small by (change (2 ^ (4 * 8)) with (2 ^ 32); lia).
    rewrite size_add_small by (unfold is_size_t; lia).
    set (r1 := set_buffer (set_total_read r (total_read_ r + 4)) (x ++ rest)).
    assert (Hok1 : state r1 = ok) by exact Hok.
    rewrite Hok1. cbn [stream_state_eqb negb].
    rewrite (enforce_delivers x rest dest r1 Hok1 eq_refl).
    + unfold r1. cbn [set_buffer set_total_read total_read_ rbase rbuffer_
                      read_limit_].
      rewrite size_add_small by (unfold is_size_t; lia). reflexivity.
    + unfold r1. cbn [set_buffer set_total_read total_read_ read_limit_].
      destruct Hlim as [H0 | Hle]; [left; exact H0 | right].
      rewrite size_sub_small by (unfold is_size_t; lia). lia.
  - change (Z.of_nat 4) with 4.
    apply (limit_allows r 4 (len x)); unfold is_size_t; lia.
Qed.

Lemma len_prefixed_frames_nonneg (range : list (list byte)) :
  0 <= len (prefixed_frames range).
Proof. apply len_nonneg. Qed.

Lemma prefixed_frames_cons (x : list byte) (range : list (list byte)) :
  prefixed_frames (x :: range)
  = le_split 4 (len x) ++ x ++ prefixed_frames range.
Proof. unfold prefixed_frames. cbn [flat_map]. rewrite <- app_assoc. reflexivity. Qed.

Lemma get_strings_delivers (range : list (list byte)) :
  forall (dests : list (list byte)) (rest : list byte)
         (r : binary_stream_reader),
    length dests = length range ->
    Forall (fun s => len s < 2 ^ 32) range ->
    state r = ok -> rbuffer_ r = prefixed_frames range ++ rest ->
    0 <= total_read_ r -> is_size_t (read_limit_ r) ->
    is_size_t (total_read_ r + len (prefixed_frames range)) ->
    read_limit_ r = 0
    \/ total_read_ r + len (prefixed_frames range) <= read_limit_ r ->
    get_strings dests r
    = (set_buffer
         (set_total_read r (total_read_ r + len (prefixed_frames range))) rest,
       Returned range).
Proof.
  unfold get_strings.
  induction range as [|x range IH];
    intros dests rest r Hlen Hall Hok Hb Ht HL Hsz Hlim;
    destruct dests as [|d dests]; try discriminate Hlen.
  - cbn [for_each_into prefixed_frames flat_map app] in *. unfold ret.
    change (len []) with 0. rewrite Z.add_0_r.
    destruct r. cbn in *. subst. reflexivity.
  - inversion Hall as [|? ? Hx Hall']; subst.
    rewrite prefixed_frames_cons in *.
    rewrite !len_app, len_le_split in *. change (Z.of_nat 4) with 4 in *.
    pose proof (len_nonneg x) as Hx0.
    pose proof (len_prefixed_frames_nonneg range) as Hf0.
    unfold is_size_t in *.
    cbn [for_each_into]. unfold bind at 1. unfold shr_string.
    rewrite <- !app_assoc in Hb.
    rewrite (shr_prefixed_string_delivers x (prefixed_frames range ++ rest)
               d r Hok Hb Hx Ht);
      [| unfold is_size_t; lia | unfold is_size_t; lia
       | destruct Hlim as [H0 | Hle]; [left; exact H0 | right; lia]].
    unfold bind at 1.
    rewrite (IH dests rest); cbn [set_buffer set_total_read rbuffer_
                                  total_read_ read_limit_ rbase].
    + unfold ret, set_buffer, set_total_read.
      cbn [rbase rbuffer_ total_read_ read_limit_].
      replace (total_read_ r + 4 + len x + len (prefixed_frames range))
        with (total_read_ r + (4 + (len x + len (prefixed_frames range))))
        by lia.
      reflexivity.
    + cbn [length] in Hlen. lia.
    + exact Hall'.
    + exact Hok.
    + reflexivity.
    + lia.
    + unfold is_size_t. lia.
    + unfold is_size_t. lia.
    + destruct Hlim as [H0 | Hle]; [left; exact H0 | right; lia].
Qed.

End ReaderFrames.

Section WriterFrames.

Import Pmc.

Variable sink_rejects : list byte -> list byte -> bool.
Hypothesis accepts : forall b d, sink_rejects b d = false.

Lemma put_strings_accepted (range : list (list byte)) :
  forall w : binary_stream_writer,
    Writer.state w = ok ->
    Forall (fun s => len s < 2 ^ 32) range ->
    exists w',
      Writer.put_strings sink_rejects range w = (w', Returned tt)
      /\ wbuffer_ w' = wbuffer_ w ++ prefixed_frames range
      /\ Writer.state w' = ok.
Proof.
  unfold Writer.put_strings.
  induction range as [|x range IH]; intros w Hok Hall; cbn [for_each].
  - exists w. unfold ret, prefixed_frames. cbn [flat_map].
    rewrite app_nil_r. repeat split. exact Hok.
  - inversion Hall as [|? ? Hx Hall']; subst.
    unfold bind.
    change (Writer.shl_string sink_rejects x w)
      with (Writer.shl_prefixed sink_rejects x w).
    rewrite (shl_prefixed_accepted sink_rejects x w accepts Hok).
    cbv beta iota.
    match goal with
    | |- context [for_each _ range ?w1] =>
        destruct (IH w1 Hok Hall') as (w' & Heq & Hb & Hok')
    end.
    exists w'. rewrite Heq. split; [reflexivity|]. split; [|exact Hok'].
    rewrite Hb. cbn [wbuffer_]. rewrite prefixed_frames_cons.
    rewrite le_split_4_to_uint32, <- !app_assoc. reflexivity.
Qed.

End WriterFrames.

(** X13.  Strings written one after the other with the fixed-length
    prefix come back in the order they were written: [put] over a range
    of strings followed by [get] over a range of as many strings returns
    the strings written, each shorter than [2^32] bytes, and leaves the
    buffer empty with every byte counted. *)
Theorem prefixed_strings_round_trip
  (sink_rejects : list byte -> list byte -> bool)
  (range dests : list (list byte)) (wthrowing rthrowing : bool) (L : Z) :
  (forall b d, sink_rejects b d = false) ->
  length dests = length range ->
  Forall (fun s => len s < 2 ^ 32) range ->
  is_size_t (len (prefixed_frames range)) -> is_size_t L ->
  L = 0 \/ len (prefixed_frames range) <= L ->
  let w := fst (Pmc.Writer.put_strings sink_rejects range
                  (Pmc.Writer.make [] wthrowing)) in
  let res := Pmc.Reader.get_strings dests
               (Pmc.Reader.make (Pmc.wbuffer_ w) rthrowing L) in
  Pmc.wbuffer_ w = prefixed_frames range
  /\ snd res = Returned range
  /\ Pmc.rbuffer_ (fst res) = []
  /\ Pmc.Reader.total_read (fst res) = len (prefixed_frames range)
  /\ Pmc.Reader.state (fst res) = ok.
Proof.
  intros Hacc Hlen Hall Hsz HL Hlim. cbv zeta.
  destruct (put_strings_accepted sink_rejects Hacc range
              (Pmc.Writer.make [] wthrowing) eq_refl Hall)
    as (w' & Heq & Hb & _).
  rewrite Heq. cbn [fst]. cbn [Pmc.Writer.make Pmc.wbuffer_ app] in Hb.
  rewrite Hb.
  rewrite (get_strings_delivers range dests []); try assumption.
  - cbn [fst snd Pmc.Reader.set_buffer Pmc.Reader.set_total_read
         Pmc.rbuffer_ Pmc.Reader.total_read Pmc.total_read_
         Pmc.Reader.make Pmc.Reader.state Pmc.rbase Pmc.state_].
    repeat split.
  - reflexivity.
  - cbn [Pmc.Reader.make Pmc.rbuffer_]. rewrite app_nil_r. reflexivity.
  - cbn. lia.
Qed.

Lemma prefixed_strings_round_trip_witness :
  snd (Pmc.Reader.get_strings [[]; []]
         (Pmc.Reader.make
            (Pmc.wbuffer_
               (fst (Pmc.Writer.put_strings accepting_sink [hi; yo]
                       (Pmc.Writer.make [] true))))
            false 12))
  = Returned [hi; yo].
Proof.
  pose proof (prefixed_strings_round_trip accepting_sink [hi; yo] [[]; []]
                true false 12) as H.
  cbv zeta in H. destruct H as (_ & H & _).
  - reflexivity.
  - reflexivity.
  - repeat constructor.
  - unfold is_size_t. vm_compute. split; [discriminate | reflexivity].
  - unfold is_size_t. vm_compute. split; [discriminate | reflexivity].
  - right. vm_compute. discriminate.
  - exact H.
Defined.

(** X14.  A string without a zero byte written with the null-terminated
    adaptor comes back from the null-terminated extraction, whichever
    overload wrote it ([std::string] or [std::string_view]); the
    terminator is consumed and counted, and is not part of the result. *)
Theorem null_terminated_round_trip
  (sink_rejects : list byte -> list byte -> bool) (s dest : list byte)
  (wthrowing rthrowing : bool) (L : Z) :
  (forall b d, sink_rejects b d = false) ->
  ~ In Byte.x00 s -> is_size_t (len s + 1) -> is_size_t L ->
  L = 0 \/ len s + 1 <= L ->
  let w := fst (Pmc.Writer.shl_null_terminated_string sink_rejects s
                  (Pmc.Writer.make [] wthrowing)) in
  let v := fst (Pmc.Writer.shl_null_terminated_string_view sink_rejects s
                  (Pmc.Writer.make [] wthrowing)) in
  let res := Pmc.Reader.shr_null_terminated_string dest
               (Pmc.Reader.make (Pmc.wbuffer_ w) rthrowing L) in
  Pmc.wbuffer_ w = s ++ [Byte.x00]
  /\ Pmc.wbuffer_ v = s ++ [Byte.x00]
  /\ snd res = Returned s
  /\ Pmc.rbuffer_ (fst res) = []
  /\ Pmc.Reader.total_read (fst res) = len s + 1
  /\ Pmc.Reader.state (fst res) = ok.
Proof.
  intros Hacc Hs Hsz HL Hlim. cbv zeta.
  rewrite shl_null_terminated_string_asserted,
    shl_null_terminated_string_view_asserted by exact Hs.
  unfold bind.
  rewrite !(write_accepted sink_rejects Hacc) by reflexivity.
  cbv beta iota.
  rewrite ?(write_accepted sink_rejects Hacc) by reflexivity.
  cbn [fst Pmc.wbuffer_ Pmc.Writer.make app].
  rewrite (shr_null_terminated_delivers s [] dest); try assumption.
  - cbn [fst snd Pmc.Reader.set_buffer Pmc.Reader.set_total_read
         Pmc.rbuffer_ Pmc.Reader.total_read Pmc.total_read_
         Pmc.Reader.make Pmc.Reader.state Pmc.rbase Pmc.state_].
    rewrite size_add_small by exact Hsz.
    repeat split.
  - reflexivity.
  - reflexivity.
  - cbn [Pmc.Reader.make Pmc.read_limit_ Pmc.total_read_].
    destruct Hlim as [H0 | Hle]; [left; exact H0 | right].
    rewrite size_sub_small by (rewrite Z.sub_0_r; exact HL). lia.
Qed.

Lemma null_terminated_round_trip_witness :
  snd (Pmc.Reader.shr_null_terminated_string []
         (Pmc.Reader.make
            (Pmc.wbuffer_
               (fst (Pmc.Writer.shl_null_terminated_string accepting_sink hi
                       (Pmc.Writer.make [] true))))
            true 0))
  = Returned hi.
Proof.
  pose proof (null_terminated_round_trip accepting_sink hi [] true true 0)
    as H.
  cbv zeta in H. destruct H as (_ & _ & H & _).
  - reflexivity.
  - cbn. intros [H | [H | []]]; discriminate H.
  - unfold is_size_t. vm_compute. split; [discriminate | reflexivity].
  - unfold is_size_t. vm_compute. split; [discriminate | reflexivity].
  - left. reflexivity.
  - exact H.
Defined.

Section Containers.

Import Pmc Pmc.Reader.

Lemma length_resize (container : list byte) (count : Z) :
  length (resize container count) = Z.to_nat count.
Proof.
  unfold resize. rewrite length_app, length_firstn, repeat_length. lia.
Qed.

Lemma len_resize (container : list byte) (count : Z) :
  0 <= count -> len (resize container count) = count.
Proof. intros H. unfold len. rewrite length_resize. lia. Qed.

Lemma memcpy_over (container data : list byte) :
  length container = length data -> Storage.memcpy container 0 data = data.
Proof.
  intros H. unfold Storage.memcpy. cbn [Z.to_nat firstn app Nat.add].
  rewrite skipn_all2 by lia. apply app_nil_r.
Qed.

Lemma read_container_delivers (s rest dest : list byte)
  (r : binary_stream_reader) :
  is_size_t (len s) -> state r = ok -> rbuffer_ r = s ++ rest ->
  read_limit_ r = 0
  \/ len s <= size_sub (read_limit_ r) (total_read_ r) ->
  read_container dest (len s) r
  = (set_buffer (set_total_read r (size_add (total_read_ r) (len s))) rest,
     Returned s).
Proof.
  intros Hsz Hok Hb Hlim. unfold read_container.
  rewrite Z.mul_1_r, wrap_small by exact Hsz.
  rewrite (safe_read_delivers s rest) by assumption.
  rewrite memcpy_over; [reflexivity|].
  rewrite length_resize. unfold len. apply Nat2Z.id.
Qed.

(** What the 4-byte count leaves behind on a fresh reader. *)
Lemma count_read (n : Z) (payload : list byte) (throwing : bool) (L : Z) :
  0 <= n < 2 ^ 32 -> is_size_t L -> L = 0 \/ 4 <= L ->
  shr_le 4 0 (make (le_split 4 n ++ payload) throwing L)
  = ({| rbase := {| state_ := ok; allow_throw_ := throwing |};
        rbuffer_ := payload; total_read_ := 4; read_limit_ := L |},
     Returned n).
Proof.
  intros Hn HL Hlim.
  rewrite (shr_le_delivers 4 n 0 payload); [| reflexivity | reflexivity |].
  - rewrite Z.mod_small by (change (2 ^ (Z.of_nat 4 * 8)) with (2 ^ 32); lia).
    reflexivity.
  - cbn [make read_limit_ total_read_].
    destruct Hlim as [H0 | Hle]; [left; exact H0 | right].
    rewrite size_sub_small by (rewrite Z.sub_0_r; exact HL).
    change (Z.of_nat 4) with 4. lia.
Qed.

End Containers.

(** X15.  A container of bytes written with the fixed-length prefix
    comes back from the prefixed container extraction, whatever the
    destination held before: the reader returns the bytes written, for
    every container of fewer than [2^32] bytes. *)
Theorem prefixed_container_round_trip
  (sink_rejects : list byte -> list byte -> bool) (s dest : list byte)
  (wthrowing rthrowing : bool) (L : Z) :
  (forall b d, sink_rejects b d = false) ->
  len s < 2 ^ 32 -> is_size_t L -> L = 0 \/ 4 + len s <= L ->
  let w := fst (Pmc.Writer.shl_prefixed sink_rejects s
                  (Pmc.Writer.make [] wthrowing)) in
  let res := Pmc.Reader.shr_prefixed_container dest
               (Pmc.Reader.make (Pmc.wbuffer_ w) rthrowing L) in
  snd res = Returned s
  /\ Pmc.rbuffer_ (fst res) = []
  /\ Pmc.Reader.total_read (fst res) = 4 + len s
  /\ Pmc.Reader.state (fst res) = ok.
Proof.
  intros Hacc Hs HL Hlim. cbv zeta.
  pose proof (len_nonneg s) as Hs0.
  assert (H232 : 2 ^ 32 + 4 < size_t_modulus) by reflexivity.
  rewrite (shl_prefixed_accepted sink_rejects s _ Hacc) by reflexivity.
  cbn [fst Pmc.wbuffer_ Pmc.Writer.make app].
  rewrite le_split_4_to_uint32.
  unfold Pmc.Reader.shr_prefixed_container, bind.
  rewrite count_read; [| lia | exact HL
                       | destruct Hlim as [H0 | Hle]; [left; exact H0 | right; lia]].
  rewrite (read_container_delivers s [] dest).
  - cbn [fst snd Pmc.Reader.set_buffer Pmc.Reader.set_total_read
         Pmc.rbuffer_ Pmc.Reader.total_read Pmc.total_read_
         Pmc.Reader.state Pmc.rbase Pmc.state_].
    rewrite size_add_small by (unfold is_size_t; lia).
    repeat split.
  - unfold is_size_t. lia.
  - reflexivity.
  - cbn [Pmc.rbuffer_]. rewrite app_nil_r. reflexivity.
  - cbn [Pmc.read_limit_ Pmc.total_read_].
    destruct Hlim as [H0 | Hle]; [left; exact H0 | right].
    unfold is_size_t in HL.
    rewrite size_sub_small by (unfold is_size_t; lia). lia.
Qed.

Lemma prefixed_container_round_trip_witness :
  snd (Pmc.Reader.shr_prefixed_container four_bytes
         (Pmc.Reader.make
            (Pmc.wbuffer_
               (fst (Pmc.Writer.shl_prefixed accepting_sink hi
                       (Pmc.Writer.make [] true))))
            false 0))
  = Returned hi.
Proof.
  pose proof (prefixed_container_round_trip accepting_sink hi four_bytes
                true false 0) as H.
  cbv zeta in H. destruct H as (H & _).
  - reflexivity.
  - vm_compute. reflexivity.
  - unfold is_size_t. vm_compute. split; [discriminate | reflexivity].
  - left. reflexivity.
  - exact H.
Defined.

(** X16.  The prefixed container extraction resizes the container to
    the count it read before the bounds policy looks at the payload: when
    the buffer holds fewer bytes than the count announces, the read is
    refused with a buffer underrun, the four bytes of the count stay
    consumed, and in non-throwing mode the container is left holding
    [count] elements (its old elements, padded with zero bytes). *)
Theorem short_payload_resizes_container
  (n : Z) (payload dest : list byte) (throwing : bool) (L : Z) :
  0 <= n < 2 ^ 32 -> len payload < n -> is_size_t L -> L = 0 \/ 4 <= L ->
  let res := Pmc.Reader.shr_prefixed_container dest
               (Pmc.Reader.make (le_split 4 n ++ payload) throwing L) in
  Pmc.Reader.state (fst res) = buff_limit_err
  /\ Pmc.rbuffer_ (fst res) = payload
  /\ Pmc.Reader.total_read (fst res) = 4
  /\ snd res = (if throwing
                then Thrown (buffer_underrun n 4 (len payload))
                else Returned (Pmc.Reader.resize dest n))
  /\ len (Pmc.Reader.resize dest n) = n.
Proof.
  intros Hn Hshort HL Hlim. cbv zeta.
  assert (H232 : 2 ^ 32 < size_t_modulus) by reflexivity.
  unfold Pmc.Reader.shr_prefixed_container, bind.
  rewrite count_read by assumption.
  unfold Pmc.Reader.read_container, Pmc.Reader.SAFE_READ.
  rewrite Z.mul_1_r, wrap_small by (unfold is_size_t; lia).
  rewrite bounds_enforce_underrun;
    [| reflexivity | unfold Pmc.Reader.size, Buffer.size; cbn [Pmc.rbuffer_]; lia].
  unfold Pmc.Reader.refused, Pmc.Reader.allow_throw, Pmc.Reader.size,
    Buffer.size.
  cbn [fst snd Pmc.Reader.set_state Pmc.rbase Pmc.rbuffer_ Pmc.total_read_
       Pmc.Reader.state Pmc.state_ Pmc.allow_throw_ Pmc.Reader.total_read].
  repeat split.
  apply len_resize. lia.
Qed.

Lemma short_payload_resizes_container_witness :
  snd (Pmc.Reader.shr_prefixed_container hi
         (Pmc.Reader.make (le_split 4 4 ++ two_bytes) false 0))
  = Returned (hi ++ [Byte.x00; Byte.x00]).
Proof.
  pose proof (short_payload_resizes_container 4 two_bytes hi false 0) as H.
  cbv zeta in H. destruct H as (_ & _ & _ & H & _).
  - vm_compute. split; [discriminate | reflexivity].
  - vm_compute. reflexivity.
  - unfold is_size_t. vm_compute. split; [discriminate | reflexivity].
  - left. reflexivity.
  - exact H.
Defined.

(** X17.  A prefixed string whose payload is cut short is not read
    atomically: the four bytes of the count are consumed and counted
    before the payload is refused with a buffer underrun, and the
    destination string is left as it was. *)
Theorem short_payload_consumes_count
  (n : Z) (payload dest : list byte) (throwing : bool) (L : Z) :
  0 <= n < 2 ^ 32 -> len payload < n -> is_size_t L -> L = 0 \/ 4 <= L ->
  let res := Pmc.Reader.shr_prefixed_string dest
               (Pmc.Reader.make (le_split 4 n ++ payload) throwing L) in
  Pmc.Reader.state (fst res) = buff_limit_err
  /\ Pmc.rbuffer_ (fst res) = payload
  /\ Pmc.Reader.total_read (fst res) = 4
  /\ snd res = (if throwing
                then Thrown (buffer_underrun n 4 (len payload))
                else Returned dest).
Proof.
  intros Hn Hshort HL Hlim. cbv zeta.
  unfold Pmc.Reader.shr_prefixed_string, bind.
  rewrite count_read by assumption.
  unfold Pmc.Reader.state at 1. cbn [Pmc.rbase Pmc.state_ stream_state_eqb negb].
  rewrite bounds_enforce_underrun;
    [| reflexivity | unfold Pmc.Reader.size, Buffer.size; cbn [Pmc.rbuffer_]; lia].
  unfold Pmc.Reader.refused, Pmc.Reader.allow_throw, Pmc.Reader.size,
    Buffer.size.
  cbn [fst snd Pmc.Reader.set_state Pmc.rbase Pmc.rbuffer_ Pmc.total_read_
       Pmc.Reader.state Pmc.state_ Pmc.allow_throw_ Pmc.Reader.total_read].
  repeat split.
Qed.

Lemma short_payload_consumes_count_witness :
  Pmc.Reader.shr_prefixed_string hi
    (Pmc.Reader.make (le_split 4 4 ++ two_bytes) true 0)
  = (Pmc.Reader.set_state
       (Pmc.Reader.set_buffer
          (Pmc.Reader.set_total_read
             (Pmc.Reader.make (le_split 4 4 ++ two_bytes) true 0) 4)
          two_bytes)
       buff_limit_err,
     Thrown (buffer_underrun 4 4 2)).
Proof.
  pose proof (short_payload_consumes_count 4 two_bytes hi true 0) as H.
  cbv zeta in H. destruct H as (_ & _ & _ & H).
  - vm_compute. split; [discriminate | reflexivity].
  - vm_compute. reflexivity.
  - unfold is_size_t. vm_compute. split; [discriminate | reflexivity].
  - left. reflexivity.
  - apply injective_projections; [reflexivity | exact H].
Defined.

Section PodRanges.

Import Pmc Pmc.Reader.

Lemma get_pods_delivers (range : list (list byte)) :
  forall (dests : list (list byte)) (rest : list byte)
         (r : binary_stream_reader),
    Forall2 (fun d x => len d = len x) dests range ->
    state r = ok -> rbuffer_ r = concat range ++ rest ->
    read_limit_ r = 0 -> is_size_t (total_read_ r + len (concat range)) ->
    0 <= total_read_ r ->
    get_pods dests r
    = (set_buffer
         (set_total_read r (total_read_ r + len (concat range))) rest,
       Returned range).
Proof.
  unfold get_pods.
  induction range as [|x range IH];
    intros dests rest r Hshape Hok Hb HL Hsz Ht;
    inversion Hshape as [|d ? dests' ? Hd Hshape']; subst.
  - cbn [for_each_into concat app] in *. unfold ret.
    change (len []) with 0. rewrite Z.add_0_r.
    destruct r. cbn in *. subst. reflexivity.
  - cbn [concat] in *. rewrite len_app in *.
    pose proof (len_nonneg x) as Hx0.
    pose proof (len_nonneg (concat range)) as Hc0.
    unfold is_size_t in *.
    cbn [for_each_into]. unfold bind at 1. unfold shr_pod. rewrite Hd.
    rewrite <- app_assoc in Hb.
    rewrite (safe_read_delivers x (concat range ++ rest) d (fun v => v) r
               Hok Hb (or_introl HL)).
    rewrite size_add_small by (unfold is_size_t; lia).
    unfold bind at 1.
    rewrite (IH dests' rest);
      cbn [set_buffer set_total_read rbuffer_ total_read_ read_limit_ rbase].
    + unfold ret, set_buffer, set_total_read.
      cbn [rbase rbuffer_ total_read_ read_limit_].
      replace (total_read_ r + len x + len (concat range))
        with (total_read_ r + (len x + len (concat range))) by lia.
      reflexivity.
    + exact Hshape'.
    + exact Hok.
    + reflexivity.
    + exact HL.
    + unfold is_size_t. lia.
    + lia.
Qed.

End PodRanges.

(** X26.  PODs written one after the other come back in the order they
    were written: [put] over a range of PODs followed by [get] over a
    range of destinations of the same sizes returns the PODs written and
    empties the buffer, with every byte counted. *)
Theorem pod_range_round_trip
  (sink_rejects : list byte -> list byte -> bool)
  (range dests : list (list byte)) (wthrowing rthrowing : bool) :
  (forall b d, sink_rejects b d = false) ->
  Forall2 (fun d x => len d = len x) dests range ->
  is_size_t (len (concat range)) ->
  let w := fst (Pmc.Writer.put_pods sink_rejects range
                  (Pmc.Writer.make [] wthrowing)) in
  let res := Pmc.Reader.get_pods dests
               (Pmc.Reader.make (Pmc.wbuffer_ w) rthrowing 0) in
  Pmc.wbuffer_ w = concat range
  /\ Pmc.Writer.total_write w = len (concat range)
  /\ snd res = Returned range
  /\ Pmc.rbuffer_ (fst res) = []
  /\ Pmc.Reader.total_read (fst res) = len (concat range)
  /\ Pmc.Reader.state (fst res) = ok.
Proof.
  intros Hacc Hshape Hsz. cbv zeta.
  rewrite (put_pods_accepted sink_rejects Hacc range);
    [| reflexivity
     | unfold is_size_t; vm_compute; split; [discriminate | reflexivity]].
  cbn [fst Pmc.wbuffer_ Pmc.Writer.make app Pmc.Writer.total_write
       Pmc.total_write_].
  rewrite (get_pods_delivers range dests []).
  - cbn [fst snd Pmc.Reader.set_buffer Pmc.Reader.set_total_read
         Pmc.rbuffer_ Pmc.Reader.total_read Pmc.total_read_
         Pmc.Reader.make Pmc.Reader.state Pmc.rbase Pmc.state_].
    rewrite size_add_small by exact Hsz.
    repeat split.
  - exact Hshape.
  - reflexivity.
  - cbn [Pmc.Reader.make Pmc.rbuffer_]. rewrite app_nil_r. reflexivity.
  - reflexivity.
  - exact Hsz.
  - cbn. lia.
Qed.

Lemma pod_range_round_trip_witness :
  snd (Pmc.Reader.get_pods [two_bytes; two_bytes]
         (Pmc.Reader.make
            (Pmc.wbuffer_
               (fst (Pmc.Writer.put_pods accepting_sink [hi; yo]
                       (Pmc.Writer.make [] true))))
            false 0))
  = Returned [hi; yo].
Proof.
  pose proof (pod_range_round_trip accepting_sink [hi; yo]
                [two_bytes; two_bytes] true false) as H.
  cbv zeta in H. destruct H as (_ & _ & H & _).
  - reflexivity.
  - repeat constructor.
  - unfold is_size_t. vm_compute. split; [discriminate | reflexivity].
  - exact H.
Defined.

(** ** What a [binary_stream] consumes and produces *)

Lemma wrap_add_wrap_l (a b : Z) : wrap (wrap a + b) = wrap (a + b).
Proof. unfold wrap. apply Zplus_mod_idemp_l. Qed.



Section StreamBalance.

Import BinaryStream.

Variable sink_rejects : list byte -> list byte -> bool.







End StreamBalance.



Section TerminatedStrings.

Import BinaryStream.

Lemma shr_string_delivers (pre post dest : list byte) (s : binary_stream) :
  ~ In Byte.x00 pre -> buffer_ s = pre ++ Byte.x00 :: post ->
  shr_string dest s
  = (set_buffer
       (set_total_read s (size_add (size_add (total_read_ s) (len pre)) 1))
       post,
     Returned pre).
Proof.
  intros Hpre Hb. unfold shr_string.
  rewrite Hb, find_first_of_present by assumption.
  unfold bind, buffer_read, add_total_read, buffer_skip, ret, Buffer.read,
    Buffer.skip.
  rewrite Hb, firstn_len_app, skipn_len_app. reflexivity.
Qed.

Lemma terminated_frames_cons (x : list byte) (range : list (list byte)) :
  terminated_frames (x :: range)
  = x ++ Byte.x00 :: terminated_frames range.
Proof.
  unfold terminated_frames. cbn [flat_map]. rewrite <- app_assoc. reflexivity.
Qed.

Lemma get_terminated_strings (range : list (list byte)) :
  forall (dests : list (list byte)) (rest : list byte) (s : binary_stream),
    length dests = length range ->
    Forall (fun x => ~ In Byte.x00 x) range ->
    buffer_ s = terminated_frames range ++ rest ->
    exists s',
      get_strings dests s = (s', Returned range)
      /\ buffer_ s' = rest /\ state_ s' = state_ s
      /\ total_write_ s' = total_write_ s.
Proof.
  unfold get_strings.
  induction range as [|x range IH]; intros dests rest s Hlen Hall Hb;
    destruct dests as [|d dests]; try discriminate Hlen.
  - exists s. cbn [for_each_into]. unfold ret. repeat split. exact Hb.
  - inversion Hall as [|? ? Hx Hall']; subst.
    rewrite terminated_frames_cons, <- app_assoc in Hb.
    cbn [app] in Hb.
    cbn [for_each_into]. unfold bind at 1.
    rewrite (shr_string_delivers x (terminated_frames range ++ rest) d s Hx Hb).
    match goal with
    | |- context [bind (for_each_into _ dests) _ ?s1] =>
        destruct (IH dests rest s1) as (s' & Heq & Hb' & Hst & Hw);
          [cbn [length] in Hlen; lia | exact Hall' | reflexivity |]
    end.
    exists s'. unfold bind. rewrite Heq. unfold ret.
    repeat split; assumption.
Qed.

Variable sink_rejects : list byte -> list byte -> bool.
Hypothesis accepts : forall b d, sink_rejects b d = false.

Lemma shl_string_accepted (data : list byte) (s : binary_stream) :
  shl_string sink_rejects data s
  = (set_total_write (set_buffer s (buffer_ s ++ data ++ [Byte.x00]))
       (size_add (total_write_ s) (size_add (len data) 1)),
     Returned tt).
Proof.
  unfold shl_string, bind, buffer_write, Buffer.write, add_total_write.
  rewrite accepts. reflexivity.
Qed.

Lemma put_terminated_strings (range : list (list byte)) :
  forall s : binary_stream,
    exists s',
      put_strings sink_rejects range s = (s', Returned tt)
      /\ buffer_ s' = buffer_ s ++ terminated_frames range
      /\ state_ s' = state_ s /\ total_read_ s' = total_read_ s.
Proof.
  unfold put_strings.
  induction range as [|x range IH]; intros s; cbn [for_each].
  - exists s. unfold ret, terminated_frames. cbn [flat_map].
    rewrite app_nil_r. repeat split.
  - unfold bind. rewrite shl_string_accepted.
    match goal with
    | |- context [for_each _ range ?s1] =>
        destruct (IH s1) as (s' & Heq & Hb & Hst & Ht)
    end.
    exists s'. rewrite Heq. split; [reflexivity|].
    rewrite Hb, Hst, Ht, terminated_frames_cons.
    cbn [set_total_write set_buffer buffer_ state_ total_read_].
    rewrite <- !app_assoc. repeat split.
Qed.

End TerminatedStrings.

(** X19.  Strings without zero bytes written to a [binary_stream] one
    after the other come back in the order they were written: [put] over
    a range of strings followed by [get] over a range of as many strings
    returns the strings written and empties the buffer.  A string with a
    zero byte inside comes back cut at that byte, and what followed it
    stays in the buffer as a string of its own.  The [std::string_view]
    overload writes what the [std::string] overload writes. *)
Theorem terminated_strings_round_trip
  (sink_rejects : list byte -> list byte -> bool)
  (range dests : list (list byte)) (s : BinaryStream.binary_stream) :
  (forall b d, sink_rejects b d = false) ->
  BinaryStream.buffer_ s = [] ->
  length dests = length range ->
  Forall (fun x => ~ In Byte.x00 x) range ->
  (let written := fst (BinaryStream.put_strings sink_rejects range s) in
   let res := BinaryStream.get_strings dests written in
   BinaryStream.buffer_ written = terminated_frames range
   /\ snd res = Returned range
   /\ BinaryStream.buffer_ (fst res) = []
   /\ BinaryStream.state (fst res) = BinaryStream.state s)
  /\ (forall pre post dest : list byte,
        ~ In Byte.x00 pre ->
        let written :=
          fst (BinaryStream.shl_string sink_rejects
                 (pre ++ Byte.x00 :: post) s) in
        let res := BinaryStream.shr_string dest written in
        snd res = Returned pre
        /\ BinaryStream.buffer_ (fst res) = post ++ [Byte.x00])
  /\ (forall x : list byte,
        BinaryStream.shl_string_view sink_rejects x s
        = BinaryStream.shl_string sink_rejects x s).
Proof.
  intros Hacc Hempty Hlen Hall. split; [|split].
  - cbv zeta.
    destruct (put_terminated_strings sink_rejects Hacc range s)
      as (s1 & Heq & Hb & Hst & _).
    rewrite Heq. cbn [fst]. rewrite Hempty in Hb. cbn [app] in Hb.
    destruct (get_terminated_strings range dests [] s1 Hlen Hall)
      as (s2 & Heq2 & Hb2 & Hst2 & _).
    { rewrite Hb, app_nil_r. reflexivity. }
    rewrite Heq2. cbn [fst snd]. unfold BinaryStream.state.
    rewrite Hst2, Hst. repeat split; assumption.
  - intros pre post dest Hpre. cbv zeta.
    rewrite (shl_string_accepted sink_rejects Hacc). cbn [fst].
    rewrite (shr_string_delivers pre (post ++ [Byte.x00]) dest).
    + split; reflexivity.
    + exact Hpre.
    + cbn [BinaryStream.set_total_write BinaryStream.set_buffer
           BinaryStream.buffer_].
      rewrite Hempty. cbn [app]. rewrite <- app_assoc. reflexivity.
  - intros x. rewrite (shl_string_accepted sink_rejects Hacc).
    unfold BinaryStream.shl_string_view, bind, BinaryStream.buffer_write,
      Buffer.write, BinaryStream.add_total_write.
    rewrite !Hacc.
    cbn [BinaryStream.set_buffer BinaryStream.set_total_write
         BinaryStream.buffer_ BinaryStream.total_write_
         BinaryStream.total_read_ BinaryStream.state_
         BinaryStream.read_limit_].
    rewrite <- app_assoc. reflexivity.
Qed.

Lemma terminated_strings_round_trip_witness :
  snd (BinaryStream.get_strings [[]; []]
         (fst (BinaryStream.put_strings accepting_sink [hi; yo]
                 (BinaryStream.make [] 0))))
  = Returned [hi; yo].
Proof.
  pose proof (terminated_strings_round_trip accepting_sink [hi; yo] [[]; []]
                (BinaryStream.make [] 0)) as H.
  destruct H as ((_ & H & _) & _).
  - reflexivity.
  - reflexivity.
  - reflexivity.
  - repeat constructor; cbn; intros [H | [H | []]]; discriminate H.
  - exact H.
Defined.

(** X20.  The views of a [binary_stream] agree with its copying reads:
    [view()] and [operator>>(std::string_view&)] return the bytes that
    [operator>>(std::string&)] returns and leave the stream as it does,
    and [span(count)] returns the bytes that [get(dest, count)] reads
    and leaves the stream as it does. *)
Theorem views_agree_with_reads
  (ex : BinaryStream.except_tag) (s : BinaryStream.binary_stream)
  (dest : list byte) (sizeof_out count : Z) :
  is_size_t (len (BinaryStream.buffer_ s)) ->
  BinaryStream.view Byte.x00 s = BinaryStream.shr_string dest s
  /\ BinaryStream.shr_string_view s = BinaryStream.shr_string dest s
  /\ BinaryStream.span ex sizeof_out count s
     = BinaryStream.get ex sizeof_out [] count s.
Proof.
  intros Hsz.
  assert (Hview : BinaryStream.view Byte.x00 s = BinaryStream.shr_string dest s).
  { unfold BinaryStream.view, BinaryStream.shr_string.
    destruct (Buffer.find_first_of (BinaryStream.buffer_ s) Byte.x00)
      as [pos|] eqn:Hf; [|reflexivity].
    apply find_first_of_in_range in Hf. unfold is_size_t in Hsz.
    unfold bind, BinaryStream.buffer_read, BinaryStream.add_total_read,
      BinaryStream.buffer_skip, ret, Buffer.read, Buffer.skip.
    cbn [BinaryStream.set_buffer BinaryStream.set_total_read
         BinaryStream.buffer_ BinaryStream.total_read_
         BinaryStream.total_write_ BinaryStream.state_
         BinaryStream.read_limit_].
    rewrite (size_add_small pos 1) by (unfold is_size_t; lia).
    rewrite skipn_skipn_Z by lia.
    unfold size_add. rewrite wrap_add_wrap_l, Z.add_assoc. reflexivity. }
  split; [exact Hview|]. split; [exact Hview|].
  unfold BinaryStream.span, BinaryStream.get.
  rewrite (Z.mul_comm sizeof_out count). reflexivity.
Qed.

Lemma views_agree_with_reads_witness :
  BinaryStream.view Byte.x00 (BinaryStream.make hi_yo 0)
  = BinaryStream.shr_string [] (BinaryStream.make hi_yo 0).
Proof.
  pose proof (views_agree_with_reads BinaryStream.allow_throw
                (BinaryStream.make hi_yo 0) [] 1 1) as H.
  destruct H as (H & _).
  - unfold is_size_t. vm_compute. split; [discriminate | reflexivity].
  - exact H.
Defined.

(** ** How errors surface in the two propagation modes *)

Section QuietReaders.

Import Pmc Pmc.Reader.

Lemma ret_never_throws {A : Type} (a : A) :
  reader_never_throws (ret a).
Proof. intros r Hr. split; [exists a; reflexivity | exact Hr]. Qed.

Lemma bind_never_throws {A B : Type} (m : op binary_stream_reader A)
  (k : A -> op binary_stream_reader B) :
  reader_never_throws m -> (forall a, reader_never_throws (k a)) ->
  reader_never_throws (bind m k).
Proof.
  intros Hm Hk r Hr. destruct (Hm r Hr) as ((a & Ha) & Hmode).
  unfold bind. destruct (m r) as [r1 o]. cbn [fst snd] in *. subst o.
  apply Hk. exact Hmode.
Qed.

Lemma buffer_read_never_throws (n : Z) : reader_never_throws (buffer_read n).
Proof.
  intros r Hr. unfold buffer_read, Buffer.read. cbn [fst snd].
  split; [eexists; reflexivity | exact Hr].
Qed.

Lemma buffer_skip_never_throws (n : Z) : reader_never_throws (buffer_skip n).
Proof.
  intros r Hr. unfold buffer_skip. cbn [fst snd].
  split; [eexists; reflexivity | exact Hr].
Qed.

Lemma enforce_read_bounds_never_throws (n : Z) :
  reader_never_throws (enforce_read_bounds n).
Proof.
  intros r Hr. unfold enforce_read_bounds.
  unfold allow_throw in *. cbn [set_state rbase allow_throw_].
  rewrite Hr.
  destruct (n >? Buffer.size (rbuffer_ r));
    [| destruct (negb (read_limit_ r =? 0)
                 && (n >? size_sub (read_limit_ r) (total_read_ r)))];
    cbn [fst snd set_state set_total_read rbase allow_throw_];
    (split; [eexists; reflexivity | exact Hr]).
Qed.

Lemma bounds_enforce_never_throws {A : Type} (n : Z) (ret_var : A)
  (rest : op binary_stream_reader A) :
  reader_never_throws rest ->
  reader_never_throws (STREAM_READ_BOUNDS_ENFORCE n ret_var rest).
Proof.
  intros Hrest r Hr. unfold STREAM_READ_BOUNDS_ENFORCE.
  destruct (negb (stream_state_eqb (state r) ok)).
  - split; [exists ret_var; reflexivity | exact Hr].
  - apply bind_never_throws; [apply enforce_read_bounds_never_throws | | exact Hr].
    intros _ r1 Hr1.
    destruct (negb (allow_throw r1) && negb (stream_state_eqb (state r1) ok)).
    + split; [exists ret_var; reflexivity | exact Hr1].
    + apply Hrest. exact Hr1.
Qed.

Lemma safe_read_never_throws {A : Type} (n : Z) (ret_var : A)
  (k : list byte -> A) :
  reader_never_throws (SAFE_READ n ret_var (fun dest => ret (k dest))).
Proof.
  unfold SAFE_READ. apply bounds_enforce_never_throws.
  apply bind_never_throws; [apply buffer_read_never_throws|].
  intros dest. apply ret_never_throws.
Qed.

Lemma for_each_into_never_throws {T : Type}
  (body : T -> op binary_stream_reader T) (range : list T) :
  (forall x, reader_never_throws (body x)) ->
  reader_never_throws (for_each_into body range).
Proof.
  intros Hbody. induction range as [|x range IH]; cbn [for_each_into].
  - apply ret_never_throws.
  - apply bind_never_throws; [apply Hbody|]. intros v.
    apply bind_never_throws; [exact IH|]. intros vs. apply ret_never_throws.
Qed.

Lemma shr_prefixed_string_never_throws (dest : list byte) :
  reader_never_throws (shr_prefixed_string dest).
Proof.
  unfold shr_prefixed_string.
  apply bind_never_throws; [apply safe_read_never_throws|].
  intros size r Hr.
  destruct (negb (stream_state_eqb (state r) ok)).
  - split; [exists dest; reflexivity | exact Hr].
  - apply bounds_enforce_never_throws; [apply buffer_read_never_throws | exact Hr].
Qed.

End QuietReaders.

Section QuietWriters.

Import Pmc.

Variable sink_rejects : list byte -> list byte -> bool.

Lemma write_never_throws (data : list byte) :
  writer_never_throws (Writer.write sink_rejects data).
Proof.
  intros w Hw.
  destruct (write_cases sink_rejects data w)
    as [(_ & Heq) | [(_ & _ & Heq) | (_ & _ & Heq)]]; rewrite Heq;
    cbn [fst snd].
  - split; [exists tt; reflexivity | exact Hw].
  - split; [exists tt; reflexivity | exact Hw].
  - rewrite Hw. split; [exists tt; reflexivity | exact Hw].
Qed.

Lemma bind_writer_never_throws {A B : Type} (m : op binary_stream_writer A)
  (k : A -> op binary_stream_writer B) :
  writer_never_throws m -> (forall a, writer_never_throws (k a)) ->
  writer_never_throws (bind m k).
Proof.
  intros Hm Hk w Hw. destruct (Hm w Hw) as ((a & Ha) & Hmode).
  unfold bind. destruct (m w) as [w1 o]. cbn [fst snd] in *. subst o.
  apply Hk. exact Hmode.
Qed.

Lemma for_each_never_throws {T : Type}
  (body : T -> op binary_stream_writer unit) (range : list T) :
  (forall x, writer_never_throws (body x)) ->
  writer_never_throws (for_each body range).
Proof.
  intros Hbody. induction range as [|x range IH]; cbn [for_each].
  - intros w Hw. split; [exists tt; reflexivity | exact Hw].
  - apply bind_writer_never_throws; [apply Hbody|]. intros _. exact IH.
Qed.

Lemma shl_prefixed_never_throws (s : list byte) :
  writer_never_throws (Writer.shl_prefixed sink_rejects s).
Proof.
  unfold Writer.shl_prefixed, Writer.write_container.
  apply bind_writer_never_throws; [apply write_never_throws|].
  intros _. apply write_never_throws.
Qed.

End QuietWriters.

(** X21.  A pmc stream built with [no_throw] never throws: every read of
    a non-throwing reader and every write of a non-throwing writer comes
    back with a value, whatever the buffer holds and whether the sink
    takes the write or throws; the error is left in the stream state.
    The null-terminated insertions are handed characters without a
    terminator, as their assertion demands.  (The varint-prefixed
    extraction apart.) *)
Theorem non_throwing_streams_never_throw :
  (forall sizeof_T dest n, reader_never_throws (Pmc.Reader.get sizeof_T dest n))
  /\ (forall dest n, reader_never_throws (Pmc.Reader.get_string dest n))
  /\ (forall n, reader_never_throws (Pmc.Reader.skip n))
  /\ (forall width value, reader_never_throws (Pmc.Reader.shr_le width value))
  /\ (forall data, reader_never_throws (Pmc.Reader.shr_pod data))
  /\ reader_never_throws Pmc.Reader.get_uint8
  /\ (forall dest, reader_never_throws (Pmc.Reader.shr_prefixed_string dest))
  /\ (forall dest,
        reader_never_throws (Pmc.Reader.shr_null_terminated_string dest))
  /\ (forall dest,
        reader_never_throws (Pmc.Reader.shr_prefixed_container dest))
  /\ (forall range, reader_never_throws (Pmc.Reader.get_strings range))
  /\ (forall range, reader_never_throws (Pmc.Reader.get_pods range))
  /\ (forall sink_rejects : list byte -> list byte -> bool,
        (forall data,
            writer_never_throws (Pmc.Writer.write sink_rejects data))
        /\ (forall width value,
               writer_never_throws (Pmc.Writer.shl_le sink_rejects width value))
        /\ (forall s,
               writer_never_throws (Pmc.Writer.shl_prefixed sink_rejects s))
        /\ (forall s, ~ In Byte.x00 s ->
               writer_never_throws
                 (Pmc.Writer.shl_null_terminated_string sink_rejects s))
        /\ (forall s, ~ In Byte.x00 s ->
               writer_never_throws
                 (Pmc.Writer.shl_null_terminated_string_view sink_rejects s))
        /\ (forall range,
               writer_never_throws (Pmc.Writer.put_pods sink_rejects range))
        /\ (forall range,
               writer_never_throws (Pmc.Writer.put_strings sink_rejects range))).
Proof.
  repeat match goal with |- _ /\ _ => split end.
  - intros. unfold Pmc.Reader.get.
    apply (safe_read_never_throws _ _ (fun d => d)).
  - intros. unfold Pmc.Reader.get_string.
    apply bounds_enforce_never_throws, buffer_read_never_throws.
  - intros. unfold Pmc.Reader.skip.
    apply bounds_enforce_never_throws, buffer_skip_never_throws.
  - intros. unfold Pmc.Reader.shr_le. apply safe_read_never_throws.
  - intros. unfold Pmc.Reader.shr_pod.
    apply (safe_read_never_throws _ _ (fun d => d)).
  - unfold Pmc.Reader.get_uint8. apply safe_read_never_throws.
  - apply shr_prefixed_string_never_throws.
  - intros dest r Hr. unfold Pmc.Reader.shr_null_terminated_string.
    destruct (Buffer.find_first_of (Pmc.rbuffer_ r) Byte.x00).
    + apply bounds_enforce_never_throws; [|exact Hr].
      apply bind_never_throws; [apply buffer_read_never_throws|].
      intros strbuf.
      apply bind_never_throws; [apply buffer_skip_never_throws|].
      intros _. apply ret_never_throws.
    + split; [exists []; reflexivity | exact Hr].
  - intros dest. unfold Pmc.Reader.shr_prefixed_container.
    apply bind_never_throws; [apply safe_read_never_throws|].
    intros count. unfold Pmc.Reader.read_container.
    apply safe_read_never_throws.
  - intros range. unfold Pmc.Reader.get_strings.
    apply for_each_into_never_throws. intros x.
    apply shr_prefixed_string_never_throws.
  - intros range. unfold Pmc.Reader.get_pods.
    apply for_each_into_never_throws. intros x.
    unfold Pmc.Reader.shr_pod.
    apply (safe_read_never_throws _ _ (fun d => d)).
  - intros sink_rejects.
    repeat match goal with |- _ /\ _ => split end.
    + intros. apply write_never_throws.
    + intros. unfold Pmc.Writer.shl_le. apply write_never_throws.
    + intros. apply shl_prefixed_never_throws.
    + intros s Hs w.
      rewrite shl_null_terminated_string_asserted by exact Hs.
      apply write_never_throws.
    + intros s Hs w.
      rewrite shl_null_terminated_string_view_asserted by exact Hs.
      apply bind_writer_never_throws; [apply write_never_throws|].
      intros _. apply write_never_throws.
    + intros. unfold Pmc.Writer.put_pods. apply for_each_never_throws.
      intros x. unfold Pmc.Writer.shl_pod. apply write_never_throws.
    + intros. unfold Pmc.Writer.put_strings. apply for_each_never_throws.
      intros x. unfold Pmc.Writer.shl_string.
      apply shl_prefixed_never_throws.
Qed.

Section SignallingReaders.

Import Pmc Pmc.Reader.









End SignallingReaders.

Section SignallingWriters.

Import Pmc.

Variable sink_rejects : list byte -> list byte -> bool.





End SignallingWriters.

Section CheckingStreams.

Import Pmc Pmc.Reader.




End CheckingStreams.



(** ** [read_max], moved-from streams, and the read limit of [binary_stream] *)

(** X23.  When the reader is in state [ok] and what is left of the read
    limit does not exceed the buffer, the number [read_max()] returns can
    be read: a skip of that many bytes succeeds.  After it a reader
    without a read limit reports 0, and a reader with a read limit has
    reached it, where the assertion of [read_max()] no longer holds. *)
Theorem read_max_bytes_can_be_read (r : Pmc.binary_stream_reader) (m : Z) :
  Pmc.Reader.state r = ok ->
  is_size_t (Pmc.Reader.read_limit r) ->
  0 <= Pmc.Reader.total_read r ->
  is_size_t (Pmc.Reader.total_read r + Pmc.Reader.size r) ->
  Pmc.Reader.read_max r = Some m ->
  m <= Pmc.Reader.size r ->
  let res := Pmc.Reader.skip m r in
  snd res = Returned tt
  /\ Pmc.Reader.state (fst res) = ok
  /\ Pmc.Reader.total_read (fst res) = Pmc.Reader.total_read r + m
  /\ Pmc.Reader.size (fst res) = Pmc.Reader.size r - m
  /\ (Pmc.Reader.read_limit r = 0 ->
      Pmc.Reader.read_max (fst res) = Some 0)
  /\ (Pmc.Reader.read_limit r <> 0 ->
      Pmc.Reader.total_read (fst res) = Pmc.Reader.read_limit r
      /\ Pmc.Reader.read_max (fst res) = None).
Proof.
  unfold Pmc.Reader.read_limit, Pmc.Reader.total_read, Pmc.Reader.size,
    Buffer.size, is_size_t.
  intros Hok HL Ht Hsz Hmax Hfit. cbv zeta.
  pose proof (len_nonneg (Pmc.rbuffer_ r)) as Hlen.
  assert (Hm : 0 <= m
               /\ (Pmc.read_limit_ r = 0 -> m = len (Pmc.rbuffer_ r))
               /\ (Pmc.read_limit_ r <> 0 ->
                   m = Pmc.read_limit_ r - Pmc.total_read_ r
                   /\ Pmc.total_read_ r < Pmc.read_limit_ r)).
  { unfold Pmc.Reader.read_max, Buffer.size in Hmax.
    destruct (Z.eqb_spec (Pmc.read_limit_ r) 0) as [H0 | H0];
      cbn [negb] in Hmax.
    - injection Hmax as Hmax. subst m.
      split; [lia|]. split; [reflexivity|]. intros Hne. contradiction.
    - destruct (Z.ltb_spec (Pmc.total_read_ r) (Pmc.read_limit_ r))
        as [Hlt | Hge]; [|discriminate].
      injection Hmax as Hmax.
      rewrite size_sub_small in Hmax by (unfold is_size_t; lia).
      subst m. split; [lia|]. split; [intros H1; contradiction|].
      intros _. split; [reflexivity | exact Hlt]. }
  destruct Hm as (Hm0 & Hm1 & Hm2).
  unfold Pmc.Reader.skip.
  rewrite bounds_enforce_pass;
    [| exact Hok | unfold Pmc.Reader.size, Buffer.size; exact Hfit |].
  - unfold Pmc.Reader.buffer_skip, Buffer.skip.
    cbn [fst snd Pmc.Reader.set_buffer Pmc.Reader.set_total_read
         Pmc.rbuffer_ Pmc.total_read_ Pmc.read_limit_ Pmc.rbase
         Pmc.Reader.state].
    rewrite size_add_small by (unfold is_size_t; lia).
    rewrite len_skipn by lia.
    split; [reflexivity|]. split; [exact Hok|]. split; [reflexivity|].
    split; [reflexivity|]. split.
    + intros H0. unfold Pmc.Reader.read_max, Buffer.size.
      cbn [Pmc.read_limit_ Pmc.rbuffer_ Pmc.total_read_
           Pmc.Reader.set_buffer Pmc.Reader.set_total_read].
      rewrite H0. cbn [Z.eqb negb].
      rewrite len_skipn by lia. f_equal. specialize (Hm1 H0). lia.
    + intros Hne. destruct (Hm2 Hne) as (Hm & Hlt).
      split; [lia|].
      unfold Pmc.Reader.read_max.
      cbn [Pmc.read_limit_ Pmc.rbuffer_ Pmc.total_read_
           Pmc.Reader.set_buffer Pmc.Reader.set_total_read].
      destruct (Z.eqb_spec (Pmc.read_limit_ r) 0) as [H0 | H0];
        [contradiction|]. cbn [negb].
      destruct (Z.ltb_spec (Pmc.total_read_ r + m) (Pmc.read_limit_ r));
        [lia | reflexivity].
  - destruct (Z.eq_dec (Pmc.read_limit_ r) 0) as [H0 | Hne];
      [left; exact H0 | right].
    destruct (Hm2 Hne) as (Hm & Hlt).
    rewrite size_sub_small by (unfold is_size_t; lia). lia.
Qed.

Lemma read_max_bytes_can_be_read_witness :
  Pmc.Reader.read_max (Pmc.Reader.make four_bytes true 3) = Some 3
  /\ Pmc.Reader.read_max
       (fst (Pmc.Reader.skip 3 (Pmc.Reader.make four_bytes true 3))) = None.
Proof.
  split; [reflexivity|].
  pose proof (read_max_bytes_can_be_read
                (Pmc.Reader.make four_bytes true 3) 3) as H.
  cbv zeta in H. destruct H as (_ & _ & _ & _ & _ & H).
  - reflexivity.
  - unfold is_size_t. vm_compute. split; [discriminate | reflexivity].
  - vm_compute. discriminate.
  - unfold is_size_t. vm_compute. split; [discriminate | reflexivity].
  - reflexivity.
  - vm_compute. discriminate.
  - apply H. discriminate.
Defined.

Lemma moved_stream_check (n : Z) (s : BinaryStream.binary_stream)
  {A : Type} (ret_var : A) (rest : op BinaryStream.binary_stream A) :
  BinaryStream.state_ s <> ok ->
  BinaryStream.buffer_
    (fst (BinaryStream.STREAM_READ_BOUNDS_CHECK BinaryStream.no_throw
            n ret_var rest s))
  = BinaryStream.buffer_ s
  /\ snd (BinaryStream.STREAM_READ_BOUNDS_CHECK BinaryStream.no_throw
            n ret_var rest s)
     = Returned ret_var.
Proof.
  intros Hbad.
  pose proof (check_read_bounds_keeps_poison BinaryStream.no_throw n s Hbad)
    as H. cbv zeta in H. destruct H as (Hst & Hb & _).
  unfold BinaryStream.STREAM_READ_BOUNDS_CHECK, bind.
  assert (Hret : snd (BinaryStream.check_read_bounds BinaryStream.no_throw n s)
                 = Returned tt).
  { unfold BinaryStream.check_read_bounds.
    destruct (n >? Buffer.size (BinaryStream.buffer_ s));
      [reflexivity|].
    destruct (negb (BinaryStream.read_limit_ s =? 0)
              && (n >? size_sub (BinaryStream.read_limit_ s)
                        (BinaryStream.total_read_ s))); reflexivity. }
  destruct (BinaryStream.check_read_bounds BinaryStream.no_throw n s)
    as [s1 o]. cbn [fst snd] in *. subst o.
  rewrite stream_state_eqb_neq by exact Hst. cbn [negb fst snd].
  split; [exact Hb | reflexivity].
Qed.

(** X24.  What a moved-from stream does.  The move constructors hand the
    counters and the state to the new stream and leave the old one in
    state [invalid_stream] with a counter of [2^64 - 1].  A moved-from pmc
    reader is left as it is by [get], [skip] and the extraction of an
    integer, a POD, one byte, a length-prefixed or a null-terminated
    string, in any sequence; the extraction of a length-prefixed
    container leaves it as it is too, but empties the caller's container;
    the extraction of a varint-prefixed string is no such no-op: it
    leaves the reader as it is and reaches [std::unreachable()].  A
    moved-from pmc writer is left as it is by every sequence of writes
    whose assertions hold, and on a non-throwing moved-from
    [binary_stream] no bounded read takes a byte from the buffer. *)
Theorem moved_from_streams_are_inert :
  (forall rhs : Pmc.binary_stream_reader,
      fst (Pmc.Reader.move rhs) = rhs
      /\ Pmc.Reader.state (snd (Pmc.Reader.move rhs)) = invalid_stream
      /\ Pmc.Reader.total_read (snd (Pmc.Reader.move rhs))
         = size_t_modulus - 1
      /\ (forall cs, forallb Pmc.Reader.is_read cs = true ->
            Pmc.Reader.run cs (snd (Pmc.Reader.move rhs))
            = snd (Pmc.Reader.move rhs))
      /\ (forall adaptor,
            Pmc.Reader.shr_prefixed_container adaptor
              (snd (Pmc.Reader.move rhs))
            = (snd (Pmc.Reader.move rhs), Returned []))
      /\ (forall fuel dest,
            Pmc.Reader.shr_prefixed_varint_string (S fuel) dest
              (snd (Pmc.Reader.move rhs))
            = Some (snd (Pmc.Reader.move rhs), Unreachable)))
  /\ (forall (sink_rejects : list byte -> list byte -> bool)
             (rhs : Pmc.binary_stream_writer),
         fst (Pmc.Writer.move rhs) = rhs
         /\ Pmc.Writer.state (snd (Pmc.Writer.move rhs)) = invalid_stream
         /\ Pmc.Writer.total_write (snd (Pmc.Writer.move rhs))
            = size_t_modulus - 1
         /\ (forall cs, forallb Pmc.Writer.is_write cs = true ->
               Forall Pmc.Writer.assertion_holds cs ->
               Pmc.Writer.run sink_rejects cs (snd (Pmc.Writer.move rhs))
               = snd (Pmc.Writer.move rhs)))
  /\ (forall rhs : BinaryStream.binary_stream,
         fst (BinaryStream.move rhs) = rhs
         /\ BinaryStream.state (snd (BinaryStream.move rhs)) = invalid_stream
         /\ BinaryStream.total_read (snd (BinaryStream.move rhs))
            = size_t_modulus - 1
         /\ (forall b : bounded_read,
               BinaryStream.buffer_
                 (BinaryStream.exec_bounded BinaryStream.no_throw b
                    (snd (BinaryStream.move rhs)))
               = BinaryStream.buffer_ rhs)).
Proof.
  split; [|split].
  - intros rhs. split; [destruct rhs; reflexivity|].
    split; [reflexivity|]. split; [reflexivity|].
    assert (Hbad : Pmc.Reader.state (snd (Pmc.Reader.move rhs)) <> ok)
      by (unfold Pmc.Reader.move, Pmc.Reader.state; cbn; discriminate).
    split; [|split].
    + intros cs Hcs. apply reader_run_poisoned; [exact Hbad | exact Hcs].
    + intros adaptor.
      unfold Pmc.Reader.shr_prefixed_container, Pmc.Reader.read_container,
        Pmc.Reader.shr_le, Pmc.Reader.SAFE_READ, bind.
      rewrite bounds_enforce_poisoned by exact Hbad.
      rewrite bounds_enforce_poisoned by exact Hbad.
      reflexivity.
    + intros fuel dest.
      unfold Pmc.Reader.shr_prefixed_varint_string, Pmc.Reader.varint_decode.
      cbn [Pmc.Reader.varint_decode_loop].
      rewrite get_uint8_poisoned by exact Hbad.
      replace (Pmc.Reader.continuation_bit Byte.x00) with false
        by (vm_compute; reflexivity).
      rewrite stream_state_eqb_neq by exact Hbad. reflexivity.
  - intros sink_rejects rhs. split; [destruct rhs; reflexivity|].
    split; [reflexivity|]. split; [reflexivity|].
    intros cs Hcs _. apply writer_run_poisoned; [|exact Hcs].
    unfold Pmc.Writer.move, Pmc.Writer.state. cbn. discriminate.
  - intros rhs. split; [destruct rhs; reflexivity|].
    split; [reflexivity|]. split; [reflexivity|].
    intros b.
    assert (Hbad : BinaryStream.state_ (snd (BinaryStream.move rhs)) <> ok)
      by (cbn; discriminate).
    destruct b as [sz n | n | n | k]; cbn [BinaryStream.exec_bounded];
      unfold BinaryStream.get, BinaryStream.get_string, BinaryStream.skip,
        BinaryStream.shr_pod;
      match goal with
      | |- context [BinaryStream.STREAM_READ_BOUNDS_CHECK _ ?n ?ret ?rest _] =>
          destruct (moved_stream_check n _ ret rest Hbad) as (Hb & _)
      end; rewrite Hb; reflexivity.
Qed.

Lemma wrap_negative (z : Z) :
  - size_t_modulus <= z < 0 -> wrap z = z + size_t_modulus.
Proof.
  intros H. unfold wrap.
  rewrite <- (Z.mod_add z 1 size_t_modulus) by discriminate.
  rewrite Z.mul_1_l. apply Z.mod_small. lia.
Qed.

(** X25.  On a [binary_stream] the extraction of a null-terminated
    string is outside the read limit: it succeeds although it takes
    [total_read] beyond the limit, sets no error, and from then on the
    limit test [read_size > read_limit_ - total_read_] wraps around and
    lets through any bounded read the buffer can serve. *)
Theorem string_extraction_is_outside_the_read_limit
  (ex : BinaryStream.except_tag) (pre post dest : list byte)
  (s : BinaryStream.binary_stream) (n : Z) :
  ~ In Byte.x00 pre ->
  BinaryStream.buffer_ s = pre ++ Byte.x00 :: post ->
  0 <= BinaryStream.total_read s ->
  is_size_t (BinaryStream.read_limit s) -> BinaryStream.read_limit s <> 0 ->
  BinaryStream.read_limit s < BinaryStream.total_read s + len pre + 1 ->
  0 <= n <= len post ->
  is_size_t (BinaryStream.total_read s + len pre + 1 + n) ->
  let res := BinaryStream.shr_string dest s in
  snd res = Returned pre
  /\ BinaryStream.state (fst res) = BinaryStream.state s
  /\ BinaryStream.total_read (fst res)
     = BinaryStream.total_read s + len pre + 1
  /\ BinaryStream.read_limit (fst res) < BinaryStream.total_read (fst res)
  /\ BinaryStream.check_read_bounds ex n (fst res)
     = (BinaryStream.set_total_read (fst res)
          (BinaryStream.total_read (fst res) + n),
        Returned tt).
Proof.
  unfold BinaryStream.total_read, BinaryStream.read_limit, BinaryStream.state,
    is_size_t.
  intros Hpre Hb Ht HL HL0 Hcross Hn Hsz. cbv zeta.
  pose proof (len_nonneg pre) as Hp.
  rewrite (shr_string_delivers pre post dest s Hpre Hb).
  cbn [fst snd BinaryStream.set_buffer BinaryStream.set_total_read
       BinaryStream.total_read_ BinaryStream.state_ BinaryStream.read_limit_].
  rewrite (size_add_small (BinaryStream.total_read_ s) (len pre))
    by (unfold is_size_t; lia).
  rewrite size_add_small by (unfold is_size_t; lia).
  split; [reflexivity|]. split; [reflexivity|]. split; [reflexivity|].
  split; [exact Hcross|].
  rewrite check_read_bounds_pass.
  - cbn [BinaryStream.set_buffer BinaryStream.set_total_read
         BinaryStream.total_read_].
    rewrite size_add_small by (unfold is_size_t; lia). reflexivity.
  - unfold BinaryStream.size, Buffer.size.
    cbn [BinaryStream.buffer_ BinaryStream.set_buffer
         BinaryStream.set_total_read]. lia.
  - right. cbn [BinaryStream.read_limit_ BinaryStream.total_read_
                BinaryStream.set_buffer BinaryStream.set_total_read].
    unfold size_sub. rewrite wrap_negative by lia. lia.
Qed.

Lemma string_extraction_is_outside_the_read_limit_witness :
  BinaryStream.total_read
    (fst (BinaryStream.shr_string [] (BinaryStream.make hi_yo 2))) = 3
  /\ BinaryStream.check_read_bounds BinaryStream.allow_throw 2
       (fst (BinaryStream.shr_string [] (BinaryStream.make hi_yo 2)))
     = (BinaryStream.set_total_read
          (fst (BinaryStream.shr_string [] (BinaryStream.make hi_yo 2)))
          (BinaryStream.total_read
             (fst (BinaryStream.shr_string [] (BinaryStream.make hi_yo 2)))
           + 2),
        Returned tt).
Proof.
  pose proof (string_extraction_is_outside_the_read_limit
                BinaryStream.allow_throw hi yo []
                (BinaryStream.make hi_yo 2) 2) as H.
  cbv zeta in H. destruct H as (_ & _ & Ht & _ & Hc).
  - cbn. intros [H | [H | []]]; discriminate H.
  - reflexivity.
  - vm_compute. discriminate.
  - unfold is_size_t. vm_compute. split; [discriminate | reflexivity].
  - discriminate.
  - vm_compute. reflexivity.
  - vm_compute. split; discriminate.
  - unfold is_size_t. vm_compute. split; [discriminate | reflexivity].
  - split; [exact Ht | exact Hc].
Defined.
